(** * A shallow embedding of the RingCT-SP23 cryptographic engine

    The curve group is modelled by an arbitrary left module [V] over the
    scalar field [F] (the group written additively, [s *: P] for the scalar
    multiplication [P * s] of arkworks).  A point's affine and projective
    forms are the same element of [V].  Randomness, the Fiat-Shamir
    transcript's squeeze and SHA-256 are parameters of the development, so
    every theorem holds for every random-number generator and every hash.

    Rust's three outcomes of a call are kept apart: a returned value
    ([Ok]), a returned error ([Err]) and a panic ([Panic]) raised by
    [assert!], [assert_eq!], [unwrap], out-of-range indexing or [usize]
    underflow. *)

From HB Require Import structures.
From mathcomp Require Import boot order algebra.
From mathcomp Require Import rat.
From Stdlib Require Import String Ascii.
From AAC_tactics Require Import AAC.

Set Implicit Arguments.
Unset Strict Implicit.
Unset Printing Implicit Defensive.

Import GRing.Theory.
Local Open Scope ring_scope.

(** ** Errors and outcomes *)

(** [CommitmentErrors] of src/ringsignature/src/errors.rs. *)
Module CommitmentErrors.
Inductive t :=
| InvalidProver (msg : string)
| InvalidVerifier (msg : string)
| InvalidProof (msg : string)
| InvalidParameters (msg : string)
| SerializationError.
End CommitmentErrors.

(** Modelled from the spec: [toolbox::errors::SigmaErrors] is not among the
    sources; the spec's error taxonomy (InvalidParameters, InvalidProof,
    SerializationError, TranscriptError) plus the conversion from a
    commitment error that the [?] operator of the protocols relies on. *)
Module SigmaErrors.
Inductive t :=
| InvalidParameters (msg : string)
| InvalidProof (msg : string)
| SerializationError
| TranscriptError
| CommitmentErrors (e : CommitmentErrors.t).
End SigmaErrors.

(** The outcome of a Rust call: [Ok], [Err] or a panic with its message. *)
Inductive result (A E : Type) : Type :=
| Ok (a : A)
| Err (e : E)
| Panic (msg : string).
Arguments Ok {A E} a.
Arguments Err {A E} e.
Arguments Panic {A E} msg.

Definition bind {A B E : Type} (r : result A E) (k : A -> result B E) : result B E :=
  match r with
  | Ok a => k a
  | Err e => Err e
  | Panic m => Panic m
  end.

Notation "x <- c ;; k" := (bind c (fun x => k))
  (at level 61, c at next level, right associativity).

(** The [?] operator across error types ([From] conversion). *)
Definition map_err {A E1 E2 : Type} (f : E1 -> E2) (r : result A E1) : result A E2 :=
  match r with
  | Ok a => Ok a
  | Err e => Err (f e)
  | Panic m => Panic m
  end.

Definition unwrap {A E : Type} (o : option A) : result A E :=
  match o with
  | Some a => Ok a
  | None => Panic "called `unwrap()` on an error value"%string
  end.

(** [assert!(b, msg)] and [assert_eq!]. *)
Definition assert {E : Type} (b : bool) (msg : string) : result unit E :=
  if b then Ok tt else Panic msg.

(** [v[i]]: indexing panics out of range. *)
Definition index {A E : Type} (x0 : A) (v : seq A) (i : nat) : result A E :=
  if (i < size v)%N then Ok (nth x0 v i)
  else Panic "index out of bounds"%string.

(** [x.inverse().unwrap()]. *)
Definition inverse_unwrap {F : fieldType} {E : Type} (x : F) : result F E :=
  if x == 0 then Panic "called `Option::unwrap()` on a `None` value"%string
  else Ok x^-1.

(** A property of each of the three outcomes of a call. *)
Definition outcome {A E : Type} (Pok : A -> Prop) (Perr : E -> Prop) (Ppanic : string -> Prop)
  (r : result A E) : Prop :=
  match r with
  | Ok a => Pok a
  | Err e => Perr e
  | Panic m => Ppanic m
  end.

Definition okT {A : Type} (_ : A) : Prop := True.

(** ** Vector utilities (src/toolbox/src/vec.rs) *)
Module Vec.
Section Vec.
Context {F : fieldType} {V : lmodType F}.

Definition scalar_product (vec_a : seq F) (c : F) : seq F :=
  [seq a * c | a <- vec_a].

Definition inner_product {E : Type} (vec_a vec_b : seq F) : result F E :=
  if size vec_a == size vec_b then
    Ok (foldl (fun acc x => acc + x) 0 [seq p.1 * p.2 | p <- zip vec_a vec_b])
  else Panic "Vectors must be of the same length"%string.

Definition vec_add {E : Type} (vec_a vec_b : seq F) : result (seq F) E :=
  if size vec_a == size vec_b then Ok [seq p.1 + p.2 | p <- zip vec_a vec_b]
  else Panic "Vectors must be of the same length"%string.

Definition vec_split {A E : Type} (vec : seq A) (n : nat) : result (seq A * seq A) E :=
  if (n <= size vec)%N then Ok (take n vec, drop n vec)
  else Panic "Vectors must have length than n"%string.

Definition hadamard_product {E : Type} (vec_a vec_b : seq F) : result (seq F) E :=
  if size vec_a == size vec_b then Ok [seq p.1 * p.2 | p <- zip vec_a vec_b]
  else Panic "Vectors must be of the same length"%string.

(** [iter::successors(Some(y), |c| Some(c * y)).take(n)]. *)
Fixpoint successors_take (current y : F) (n : nat) : seq F :=
  match n with
  | 0 => [::]
  | n'.+1 => current :: successors_take (current * y) y n'
  end.

Definition generate_powers (y : F) (n : nat) : seq F := successors_take y y n.

(** [shuffle(vec_pk, pk)]: [vec_pk.shuffle(&mut thread_rng())] followed by
    the indicator loop.  The permutation [thread_rng] picks is the argument
    [thread_shuffle] (the shuffled ring); the function returns the ring as
    left in place together with [vec_b]. *)
Definition shuffle (thread_shuffle : seq V -> seq V) (vec_pk : seq V) (pk : V)
  : seq V * seq F :=
  let vec_pk' := thread_shuffle vec_pk in
  (vec_pk', [seq (if pk == q then 1 else 0) | q <- vec_pk']).

End Vec.
End Vec.

(** ** Multi-scalar multiplication (arkworks [VariableBaseMSM::msm]):
    [Err] (here [None]) when the lengths differ. *)
Definition msm {F : fieldType} {V : lmodType F} (bases : seq V) (scalars : seq F)
  : option V :=
  if size bases == size scalars then
    Some (foldr (fun p acc => p.2 *: p.1 + acc) 0 (zip bases scalars))
  else None.

(** ** Fiat-Shamir transcript

    Modelled from the spec: [toolbox::sigma::transcript::ProofTranscript] is
    not among the sources.  Per the spec it is an append-only record of
    labelled absorptions; [challenge(label)] squeezes a scalar from the
    record so far (the squeeze is the parameter [challenge_hash]) and
    [get_and_append_challenge] also absorbs the challenge it returns. *)
Module Transcript.
Section Transcript.
Context {F : fieldType} {V : lmodType F}.

Inductive entry :=
| Domain (label : string)
| FieldElement (label : string) (x : F)
| Points (label : string) (ps : seq V)
| Message (label : string) (bytes : seq ascii)
| Challenge (label : string) (x : F).

Definition transcript := seq entry.

Definition new (label : string) : transcript := [:: Domain label].

Definition append_field_element (t : transcript) (label : string) (x : F) : transcript :=
  rcons t (FieldElement label x).

Definition append_serializable_element (t : transcript) (label : string) (ps : seq V)
  : transcript :=
  rcons t (Points label ps).

Definition append_message (t : transcript) (label : string) (m : seq ascii) : transcript :=
  rcons t (Message label m).

Variable challenge_hash : transcript -> string -> F.

Definition get_and_append_challenge (t : transcript) (label : string) : F * transcript :=
  let x := challenge_hash t label in (x, rcons t (Challenge label x)).

End Transcript.
End Transcript.

(** ** Pedersen vector commitment (src/ringsignature/src/commitment/pedersen.rs)

    [PedersenParams { h, vec_g }]; the protocols call the same fields
    [generator] and [vec_gen], and pass a label as a fourth argument of
    [commit] that takes no part in the value. *)
Module Pedersen.
Section Pedersen.
Context {F : fieldType} {V : lmodType F}.

Record PedersenParams := { h : V; vec_g : seq V }.
Record PedersenOpening := { message : seq F; random : F }.

(** The random-number generator [rng: &mut R]: each [UniformRand::rand]
    call draws a value and advances the state. *)
Variable Rng : Type.
Variable rand_scalar : Rng -> F * Rng.
Variable rand_point : Rng -> V * Rng.
(** [C::generator()], the curve's conventional generator. *)
Variable generator : V.

(** [setup]: [h_scalar = rand(rng)], [g = generator()],
    [generators = vec![C::Affine::rand(rng); supported_size]] (the macro
    evaluates the random point once and clones it), [h = g.mul(h_scalar)]. *)
Definition setup (rng : Rng) (supported_size : nat)
  : result (PedersenParams * Rng) CommitmentErrors.t :=
  let (h_scalar, rng1) := rand_scalar rng in
  let g := generator in
  let (pt, rng2) := rand_point rng1 in
  let generators := nseq supported_size pt in
  Ok ({| h := h_scalar *: g; vec_g := generators |}, rng2).

Definition commit (params : PedersenParams) (m : seq F) (r : F)
  : result V CommitmentErrors.t :=
  if size m != size (vec_g params) then
    Err (CommitmentErrors.InvalidParameters
           "message length should equal to the generator length"%string)
  else
    msm_v <- unwrap (msm (vec_g params) m) ;;
    Ok (r *: h params + msm_v).

Definition open (m : seq F) (r : F) : result PedersenOpening CommitmentErrors.t :=
  Ok {| message := m; random := r |}.

Definition verify (params : PedersenParams) (cm : V) (op : PedersenOpening)
  : result bool CommitmentErrors.t :=
  msm_v <- unwrap (msm (vec_g params) (message op)) ;;
  let cm_prime := random op *: h params + msm_v in
  Ok (cm_prime == cm).

End Pedersen.
End Pedersen.

(** [for i in 0..n { ... }] building vectors, stopping at the first
    error or panic. *)
Fixpoint mapM {A B E : Type} (f : A -> result B E) (l : seq A) : result (seq B) E :=
  match l with
  | [::] => Ok [::]
  | x :: l' => y <- f x ;; ys <- mapM f l' ;; Ok (y :: ys)
  end.

(** [v[lo..hi]]: slicing panics when [hi] passes the end. *)
Definition slice {A E : Type} (v : seq A) (lo hi : nat) : result (seq A) E :=
  if (lo <= hi)%N && (hi <= size v)%N then Ok (take (hi - lo) (drop lo v))
  else Panic "range end index out of range for slice"%string.

(** [usize::is_power_of_two]: a single set bit, i.e. [n] is 2 raised to its
    2-adic valuation ([0] is not a power of two). *)
Definition is_power_of_two (n : nat) : bool := n == (2 ^ logn 2 n)%N.

(** [usize::trailing_zeros] ([64] for [0]). *)
Definition trailing_zeros (n : nat) : nat := if n == 0%N then 64%N else logn 2 n.

(** Significant bits of [i] within a [w]-bit word. *)
Fixpoint bit_length (w i : nat) : nat :=
  match w with
  | 0 => 0
  | w'.+1 => if i == 0%N then 0 else (bit_length w' i./2).+1
  end.

(** [u32::leading_zeros]. *)
Definition leading_zeros_u32 (i : nat) : nat := (32 - bit_length 32 i)%N.

(** ** Inner-product argument (src/bulletproofs/src/ipa.rs, structs.rs) *)
Module IPA.
Section IPA.
Context {F : fieldType} {V : lmodType F}.
Import Vec Transcript.

Record InnerProductParam := {
  factors_G : seq F;
  factors_H : seq F;
  u : V;
  vec_G : seq V;
  vec_H : seq V }.

Record InnerProductProof := {
  vec_L : seq V;
  vec_R : seq V;
  a : F;
  b : F;
  challenges : seq F }.

Variable challenge_hash : @transcript F V -> string -> F.

(** The prover's mutable locals. *)
Record state := {
  st_n : nat;
  st_a : seq F;
  st_b : seq F;
  st_G : seq V;
  st_H : seq V;
  st_L : seq V;
  st_R : seq V;
  st_x : seq F;
  st_t : @transcript F V }.

(** The base step [if n != 1 { ... }] (ipa.rs lines 62-137): the factors
    [factors_G], [factors_H] enter the cross terms and the generator fold. *)
Definition base_step (params : InnerProductParam) (s : state)
  : result state SigmaErrors.t :=
  let n := ((st_n s) %/ 2)%N in
  pa <- vec_split (st_a s) n ;; let (a_L, a_R) := pa in
  pb <- vec_split (st_b s) n ;; let (b_L, b_R) := pb in
  pG <- vec_split (st_G s) n ;; let (G_L, G_R) := pG in
  pH <- vec_split (st_H s) n ;; let (H_L, H_R) := pH in
  c_L <- inner_product a_L b_R ;;
  c_R <- inner_product a_R b_L ;;
  fG_hi <- slice (factors_G params) n (2 * n) ;;
  fH_lo <- slice (factors_H params) 0 n ;;
  temp_a <- hadamard_product a_L fG_hi ;;
  temp_b <- hadamard_product b_R fH_lo ;;
  com_L <- unwrap (msm (G_R ++ H_L ++ [:: u params]) (temp_a ++ temp_b ++ [:: c_L])) ;;
  fG_lo <- slice (factors_G params) 0 n ;;
  fH_hi <- slice (factors_H params) n (2 * n) ;;
  temp_a' <- hadamard_product a_R fG_lo ;;
  temp_b' <- hadamard_product b_L fH_hi ;;
  com_R <- unwrap (msm (G_L ++ H_R ++ [:: u params]) (temp_a' ++ temp_b' ++ [:: c_R])) ;;
  let t1 := append_serializable_element (st_t s) "commitments L, R" [:: com_L; com_R] in
  let (x, t2) := get_and_append_challenge challenge_hash t1 "challenge" in
  x_inv <- inverse_unwrap x ;;
  a' <- vec_add (scalar_product a_L x) (scalar_product a_R x_inv) ;;
  b' <- vec_add (scalar_product b_L x_inv) (scalar_product b_R x) ;;
  GH <- mapM (fun i =>
          gl <- index 0 G_L i ;; gr <- index 0 G_R i ;;
          hl <- index 0 H_L i ;; hr <- index 0 H_R i ;;
          fgl <- index 0 (factors_G params) i ;; fgr <- index 0 (factors_G params) (n + i) ;;
          fhl <- index 0 (factors_H params) i ;; fhr <- index 0 (factors_H params) (n + i) ;;
          term_G <- unwrap (msm [:: gl; gr] [:: x_inv * fgl; x * fgr]) ;;
          term_H <- unwrap (msm [:: hl; hr] [:: x * fhl; x_inv * fhr]) ;;
          Ok (term_G, term_H)) (iota 0 n) ;;
  Ok {| st_n := n; st_a := a'; st_b := b'; st_G := map fst GH; st_H := map snd GH;
        st_L := rcons (st_L s) com_L; st_R := rcons (st_R s) com_R;
        st_x := rcons (st_x s) x; st_t := t2 |}.

(** One iteration of [while n != 1 { ... }] (ipa.rs lines 140-200). *)
Definition loop_step (params : InnerProductParam) (s : state)
  : result state SigmaErrors.t :=
  let n := ((st_n s) %/ 2)%N in
  pa <- vec_split (st_a s) n ;; let (a_L, a_R) := pa in
  pb <- vec_split (st_b s) n ;; let (b_L, b_R) := pb in
  pG <- vec_split (st_G s) n ;; let (G_L, G_R) := pG in
  pH <- vec_split (st_H s) n ;; let (H_L, H_R) := pH in
  c_L <- inner_product a_L b_R ;;
  c_R <- inner_product a_R b_L ;;
  com_L <- unwrap (msm (G_R ++ H_L ++ [:: u params]) (a_L ++ b_R ++ [:: c_L])) ;;
  com_R <- unwrap (msm (G_L ++ H_R ++ [:: u params]) (a_R ++ b_L ++ [:: c_R])) ;;
  let t1 := append_serializable_element (st_t s) "commitments L, R" [:: com_L; com_R] in
  let (x, t2) := get_and_append_challenge challenge_hash t1 "challenge" in
  x_inv <- inverse_unwrap x ;;
  a' <- vec_add (scalar_product a_L x) (scalar_product a_R x_inv) ;;
  b' <- vec_add (scalar_product b_L x_inv) (scalar_product b_R x) ;;
  GH <- mapM (fun i =>
          gl <- index 0 G_L i ;; gr <- index 0 G_R i ;;
          hl <- index 0 H_L i ;; hr <- index 0 H_R i ;;
          term_G <- unwrap (msm [:: gl; gr] [:: x_inv; x]) ;;
          term_H <- unwrap (msm [:: hl; hr] [:: x; x_inv]) ;;
          Ok (term_G, term_H)) (iota 0 n) ;;
  Ok {| st_n := n; st_a := a'; st_b := b'; st_G := map fst GH; st_H := map snd GH;
        st_L := rcons (st_L s) com_L; st_R := rcons (st_R s) com_R;
        st_x := rcons (st_x s) x; st_t := t2 |}.

(** [while n != 1]; the loop halves [n] each time, and [n] is a power of two
    when it starts, so [log_n] iterations bound it. *)
Fixpoint while_loop (fuel : nat) (params : InnerProductParam) (s : state)
  : result state SigmaErrors.t :=
  match fuel with
  | 0 => Ok s
  | fuel'.+1 =>
      if st_n s != 1%N then
        s' <- loop_step params s ;; while_loop fuel' params s'
      else Ok s
  end.

Definition prove (params : InnerProductParam) (vec_a vec_b : seq F)
  : result InnerProductProof SigmaErrors.t :=
  let transcript := new "RingSignature" in
  let n := size (vec_G params) in
  if (size (vec_H params) != n) || (size vec_a != n) || (size vec_b != n)
     || (size (factors_G params) != n) || (size (factors_H params) != n) then
    Err (SigmaErrors.InvalidParameters "vectors length are different")
  else if ~~ is_power_of_two n then
    Err (SigmaErrors.InvalidParameters "vector length is not power of two")
  else
    let transcript := append_field_element transcript "IPAsize" n%:R in
    let log_n := trailing_zeros n in
    let s0 := {| st_n := n; st_a := vec_a; st_b := vec_b;
                 st_G := vec_G params; st_H := vec_H params;
                 st_L := [::]; st_R := [::]; st_x := [::]; st_t := transcript |} in
    s1 <- (if n != 1%N then base_step params s0 else Ok s0) ;;
    s2 <- while_loop log_n params s1 ;;
    a0 <- index 0 (st_a s2) 0 ;;
    b0 <- index 0 (st_b s2) 0 ;;
    Ok {| vec_L := st_L s2; vec_R := st_R s2; a := a0; b := b0; challenges := st_x s2 |}.

(** The verifier's challenge loop [for i in 0..log_n] (ipa.rs lines 245-256):
    its state is the transcript, [challenges], [challenges_sq],
    [challenges_inv_sq] and [all_inv]. *)
Fixpoint challenge_loop (proof : InnerProductProof) (i fuel : nat)
  (acc : @transcript F V * seq F * seq F * seq F * F)
  : result (@transcript F V * seq F * seq F * seq F * F) SigmaErrors.t :=
  match fuel with
  | 0 => Ok acc
  | fuel'.+1 =>
      let '(t, xs, xs_sq, xs_inv_sq, all_inv) := acc in
      Li <- index 0 (vec_L proof) i ;;
      Ri <- index 0 (vec_R proof) i ;;
      let t1 := append_serializable_element t "commitments L, R" [:: Li; Ri] in
      let (x, t2) := get_and_append_challenge challenge_hash t1 "challenge" in
      x_inv <- inverse_unwrap x ;;
      pi <- index 0 (challenges proof) i ;;
      if x != pi then Err (SigmaErrors.InvalidProof "invalid challenge value")
      else challenge_loop proof i.+1 fuel'
             (t2, rcons xs x, rcons xs_sq (x * x), rcons xs_inv_sq (x_inv * x_inv),
              all_inv * x_inv)
  end.

(** The "box" loop [for i in 1..n] (ipa.rs lines 263-270).  Its two
    indexings are in range whenever it runs ([i - k < i] and
    [log_n - 1 - log_i < log_n], as [n = 2^log_n] was checked). *)
Fixpoint box_loop (challenges_sq : seq F) (log_n : nat) (i fuel : nat) (vec_box : seq F)
  : seq F :=
  match fuel with
  | 0 => vec_box
  | fuel'.+1 =>
      let log_i := (32 - 1 - leading_zeros_u32 i)%N in
      let k := (2 ^ log_i)%N in
      let x_log_i_sq := nth 0 challenges_sq (log_n - 1 - log_i) in
      box_loop challenges_sq log_n i.+1 fuel' (rcons vec_box (nth 0 vec_box (i - k) * x_log_i_sq))
  end.

Definition verify (n : nat) (target_P : V) (params : InnerProductParam)
  (proof : InnerProductProof) : result unit SigmaErrors.t :=
  _ <- assert (size (vec_G params) == n) "assertion `left == right` failed" ;;
  let log_n := size (vec_L proof) in
  if (32 <= log_n)%N then Err (SigmaErrors.InvalidParameters "vector size is too large")
  else if n != (2 ^ log_n)%N then Err (SigmaErrors.InvalidProof "incorrect proof length")
  else
    let transcript := append_field_element (new "RingSignature") "IPAsize" n%:R in
    acc <- challenge_loop proof 0 log_n (transcript, [::], [::], [::], 1) ;;
    let '(_, _, challenges_sq, challenges_inv_sq, all_inv) := acc in
    let vec_box := box_loop challenges_sq log_n 1 (n - 1) [:: all_inv] in
    let vec_box_reverse := rev vec_box in
    gb <- hadamard_product vec_box (factors_G params) ;;
    let g_a_box := scalar_product gb (a proof) in
    hb <- hadamard_product vec_box_reverse (factors_H params) ;;
    let h_b_box := scalar_product hb (b proof) in
    let neg_challenges_sq := [seq - xi | xi <- challenges_sq] in
    let neg_challenges_inv_sq := [seq - xi | xi <- challenges_inv_sq] in
    let exp := (a proof * b proof) :: g_a_box ++ h_b_box ++ neg_challenges_sq
               ++ neg_challenges_inv_sq in
    let base := u params :: vec_G params ++ vec_H params ++ vec_L proof ++ vec_R proof in
    expected_P <- unwrap (msm base exp) ;;
    if expected_P == target_P then Ok tt
    else Err (SigmaErrors.InvalidProof "invalid IPA proof").

End IPA.
End IPA.

(** ** Ring signature, linear variant (src/ringsignature/src/ringsig/protocol_linear.rs,
    structs.rs) *)
Module Linear.
Section Linear.
Context {F : fieldType} {V : lmodType F}.
Import Vec Transcript.

Record Openings := {
  zeta : seq F;
  eta : seq F;
  hat_t : F;
  taux : F;
  mu : F;
  fs : F }.

Record LinearRingSignature := {
  commitments : seq V;
  openings : Openings;
  challenges : seq F;
  digest : string }.

Record RingSignatureParams := {
  num_witness : nat;
  num_pub_inputs : nat;
  com_parameters : seq (@Pedersen.PedersenParams F V);
  message : string;
  vec_pk : seq V }.

Variable Rng : Type.
Variable rand_scalar : Rng -> F * Rng.
Variable rand_point : Rng -> V * Rng.
Variable generator : V.
(** The permutation [vec_pk.shuffle(&mut thread_rng())] applies. *)
Variable thread_shuffle : seq V -> seq V.
Variable challenge_hash : @transcript F V -> string -> F.
(** [sha256::digest]: the hexadecimal digest string. *)
Variable sha256_digest : string -> string.

Definition com_err {A : Type} (r : result A CommitmentErrors.t) : result A SigmaErrors.t :=
  map_err SigmaErrors.CommitmentErrors r.

Definition pedersen_setup := Pedersen.setup rand_scalar rand_point generator.

Definition no_params : @Pedersen.PedersenParams F V := {| Pedersen.h := 0; Pedersen.vec_g := [::] |}.

(** [let mut h_msg: &mut [u8] = &mut [0; 32]; h_msg.write(h.as_bytes())]:
    [write] on a [&mut [u8]] copies [min(32, len h)] bytes and advances the
    slice past them, so [&h_msg] is the unwritten rest of the zeroed buffer
    (empty for a 64-character hexadecimal digest). *)
Definition h_msg_of (h : string) : seq ascii :=
  nseq (32 - minn 32 (size (list_ascii_of_string h))) zero.

(** [setup]: three Pedersen parameter sets, the signer's key
    [pk = commit(key_params, wit, 0)], the ring
    [vec![C::Affine::rand(rng); supported_size-1]] with [pk] pushed, shuffled;
    [wit] is extended with the indicator vector. *)
Definition setup (rng : Rng) (wit : seq F) (msg : string) (supported_size : nat)
  : result (RingSignatureParams * seq F * Rng) SigmaErrors.t :=
  p1 <- com_err (pedersen_setup rng supported_size) ;; let (com_params_1, rng1) := p1 in
  p2 <- com_err (pedersen_setup rng1 supported_size) ;; let (com_params_2, rng2) := p2 in
  p3 <- com_err (pedersen_setup rng2 1) ;; let (key_params, rng3) := p3 in
  pk <- com_err (Pedersen.commit key_params wit 0) ;;
  let (pt, rng4) := rand_point rng3 in
  if supported_size == 0%N then Panic "attempt to subtract with overflow"%string
  else
    let vec_pk0 := rcons (nseq (supported_size - 1) pt) pk in
    let (vec_pk', vec_b) := shuffle thread_shuffle vec_pk0 pk in
    let wit' := wit ++ vec_b in
    Ok ({| num_witness := size wit'; num_pub_inputs := supported_size;
           com_parameters := [:: com_params_1; com_params_2; key_params];
           message := msg; vec_pk := vec_pk' |}, wit', rng4).

(** The prover's locals after its first round (lines 79-122). *)
Record Round1 := {
  r1_t : @transcript F V;
  r1_vec_sk : seq F;
  r1_vec_b : seq F;
  r1_b0 : seq F;
  r1_b1 : seq F;
  r1_alpha : F;
  r1_beta : F;
  r1_r0 : seq F;
  r1_r1 : seq F;
  r1_A : V;
  r1_B : V;
  r1_y : F;
  r1_z : F;
  r1_rng : Rng }.

Definition prove_round1 (rng : Rng) (params : RingSignatureParams) (wit : seq F)
  : result Round1 SigmaErrors.t :=
  let t := append_serializable_element (new "RingSignature") "public list" (vec_pk params) in
  param_g_u <- index no_params (com_parameters params) 0 ;;
  param_h_v <- index no_params (com_parameters params) 1 ;;
  _ <- index no_params (com_parameters params) 2 ;;
  let N := num_pub_inputs params in
  if (size wit < N)%N then Panic "attempt to subtract with overflow"%string
  else
  let vec_sk := take (size wit - N) wit in
  let vec_b := drop (size wit - N) wit in
  let vec_b0 := vec_b in
  let vec_b1 := [seq 1 - b_i | b_i <- vec_b] in
  let constraint_1 := all (fun p => p.1 + p.2 == 1) (zip vec_b0 vec_b1) in
  let constraint_2 := all (fun p => p.1 * p.2 == 0) (zip vec_b0 vec_b1) in
  _ <- assert (constraint_1 && constraint_2)
         "assertion failed: constraint_1 && constraint_2"%string ;;
  let (alpha, rng1) := rand_scalar rng in
  let (beta, rng2) := rand_scalar rng1 in
  let (s0, rng3) := rand_scalar rng2 in
  let vec_r0 := nseq (size vec_b0) s0 in
  let (s1, rng4) := rand_scalar rng3 in
  let vec_r1 := nseq (size vec_b1) s1 in
  cA1 <- com_err (Pedersen.commit param_g_u vec_b0 alpha) ;;
  cA2 <- com_err (Pedersen.commit param_h_v vec_b1 0) ;;
  cB1 <- com_err (Pedersen.commit param_g_u vec_r0 beta) ;;
  cB2 <- com_err (Pedersen.commit param_h_v vec_r1 0) ;;
  let com_A := cA1 + cA2 in
  let com_B := cB1 + cB2 in
  let t := append_serializable_element t "commitments A,B" [:: com_A; com_B] in
  let (y, t) := get_and_append_challenge challenge_hash t "challenge y" in
  let (z, t) := get_and_append_challenge challenge_hash t "challenge z" in
  Ok {| r1_t := t; r1_vec_sk := vec_sk; r1_vec_b := vec_b; r1_b0 := vec_b0; r1_b1 := vec_b1;
        r1_alpha := alpha; r1_beta := beta; r1_r0 := vec_r0; r1_r1 := vec_r1;
        r1_A := com_A; r1_B := com_B; r1_y := y; r1_z := z; r1_rng := rng4 |}.

(** The prover's locals after its third round (lines 124-161). *)
Record Round3 := {
  r3_powers_yn : seq F;
  r3_z1n : seq F;
  r3_t1 : F;
  r3_t2 : F;
  r3_rs : F;
  r3_tau1 : F;
  r3_tau2 : F;
  r3_E : V;
  r3_T1 : V;
  r3_T2 : V;
  r3_h : string;
  r3_x : F;
  r3_rng : Rng }.

Definition prove_round3 (params : RingSignatureParams) (s : Round1)
  : result Round3 SigmaErrors.t :=
  param_g_u <- index no_params (com_parameters params) 0 ;;
  param_h_v <- index no_params (com_parameters params) 1 ;;
  param_key <- index no_params (com_parameters params) 2 ;;
  let N := num_pub_inputs params in
  let powers_yn := generate_powers (r1_y s) N in
  let vec_z1n := nseq N (r1_z s) in
  vec_r0_yn <- hadamard_product (r1_r0 s) powers_yn ;;
  vec_z1n_b1 <- vec_add vec_z1n (r1_b1 s) ;;
  z1n_b0 <- vec_add vec_z1n (r1_b0 s) ;;
  vec_b0_z1n_yn <- hadamard_product z1n_b0 powers_yn ;;
  i1 <- inner_product vec_r0_yn vec_z1n_b1 ;;
  i2 <- inner_product vec_b0_z1n_yn (r1_r1 s) ;;
  let t1 := i1 + i2 in
  t2 <- inner_product vec_r0_yn (r1_r1 s) ;;
  let (rs, rng1) := rand_scalar (r1_rng s) in
  let neg_rs := - rs in
  let (tau1, rng2) := rand_scalar rng1 in
  let (tau2, rng3) := rand_scalar rng2 in
  e1 <- unwrap (msm (vec_pk params) vec_r0_yn) ;;
  e2 <- com_err (Pedersen.commit param_key [:: neg_rs] 0) ;;
  let com_E := e1 + e2 in
  let param_u_v := {| Pedersen.h := Pedersen.h param_h_v;
                      Pedersen.vec_g := [:: Pedersen.h param_g_u] |} in
  com_T1 <- com_err (Pedersen.commit param_u_v [:: tau1] t1) ;;
  com_T2 <- com_err (Pedersen.commit param_u_v [:: tau2] t2) ;;
  let t := append_serializable_element (r1_t s) "commitments A,B" [:: com_E; com_T1; com_T2] in
  let h := sha256_digest (message params) in
  let t := append_message t "message digest" (h_msg_of h) in
  let (x, _) := get_and_append_challenge challenge_hash t "challenge x" in
  Ok {| r3_powers_yn := powers_yn; r3_z1n := vec_z1n; r3_t1 := t1; r3_t2 := t2;
        r3_rs := rs; r3_tau1 := tau1; r3_tau2 := tau2; r3_E := com_E; r3_T1 := com_T1;
        r3_T2 := com_T2; r3_h := h; r3_x := x; r3_rng := rng3 |}.

(** [for i in 0..N { term = powers_yn[i]*vec_b[i]; if term != 0 { sum += term*vec_sk[j]; j += 1 } }] *)
Fixpoint fs_loop (powers_yn vec_b vec_sk : seq F) (i fuel j : nat) (sum : F)
  : result (nat * F) SigmaErrors.t :=
  match fuel with
  | 0 => Ok (j, sum)
  | fuel'.+1 =>
      p <- index 0 powers_yn i ;;
      bi <- index 0 vec_b i ;;
      let term := p * bi in
      if term != 0 then
        skj <- index 0 vec_sk j ;;
        fs_loop powers_yn vec_b vec_sk i.+1 fuel' j.+1 (sum + term * skj)
      else fs_loop powers_yn vec_b vec_sk i.+1 fuel' j sum
  end.

(** The fourth round, the openings (lines 163-210). *)
Definition prove_round4 (params : RingSignatureParams) (s : Round1) (s3 : Round3)
  : result LinearRingSignature SigmaErrors.t :=
  let x := r3_x s3 in
  let powers_yn := r3_powers_yn s3 in
  let vec_z1n := r3_z1n s3 in
  v1 <- vec_add vec_z1n (scalar_product (r1_r0 s) x) ;;
  b0_z1n_r0x <- vec_add (r1_b0 s) v1 ;;
  zeta <- hadamard_product b0_z1n_r0x powers_yn ;;
  v2 <- vec_add vec_z1n (scalar_product (r1_r1 s) x) ;;
  eta <- vec_add (r1_b1 s) v2 ;;
  hat_t <- inner_product zeta eta ;;
  let taux := r3_tau1 s3 * x + r3_tau2 s3 * x * x in
  let mu := r1_alpha s + r1_beta s * x in
  js <- fs_loop powers_yn (r1_vec_b s) (r1_vec_sk s) 0 (num_pub_inputs params) 0 0 ;;
  let (j, sum) := js in
  let fs := sum + r3_rs s3 * x in
  _ <- assert (j == size (r1_vec_sk s)) "assertion `left == right` failed"%string ;;
  Ok {| commitments := [:: r1_A s; r1_B s; r3_E s3; r3_T1 s3; r3_T2 s3];
        openings := {| zeta := zeta; eta := eta; hat_t := hat_t; taux := taux;
                       mu := mu; fs := fs |};
        challenges := [:: r1_y s; r1_z s; x];
        digest := r3_h s3 |}.

Definition prove (rng : Rng) (params : RingSignatureParams) (wit : seq F)
  : result LinearRingSignature SigmaErrors.t :=
  s1 <- prove_round1 rng params wit ;;
  s3 <- prove_round3 params s1 ;;
  prove_round4 params s1 s3.

Definition step1_msg := "step 1: T1, T2 checks fail"%string.
Definition step2_msg := "step 2: A,B checks fail"%string.
Definition step3_msg := "step 3: pk check fails"%string.
Definition step4_msg := "step 4: hat_t check fails"%string.
Definition assert_eq_msg := "assertion `left == right` failed"%string.

(** The panic messages that can abort [verify]: out-of-range indexing,
    the digest [assert_eq!], the [unwrap]s, vector length checks and the
    four [assert!]s. *)
Definition verify_panics : seq string :=
  [:: "index out of bounds"; assert_eq_msg; "called `unwrap()` on an error value";
      "called `Option::unwrap()` on a `None` value"; "Vectors must be of the same length";
      step1_msg; step2_msg; step3_msg; step4_msg]%string.

Definition verify (params : RingSignatureParams) (proof : LinearRingSignature)
  : result bool SigmaErrors.t :=
  let t := append_serializable_element (new "RingSignature") "public list" (vec_pk params) in
  param_g_u <- index no_params (com_parameters params) 0 ;;
  param_h_v <- index no_params (com_parameters params) 1 ;;
  param_key <- index no_params (com_parameters params) 2 ;;
  com_A <- index 0 (commitments proof) 0 ;;
  com_B <- index 0 (commitments proof) 1 ;;
  com_E <- index 0 (commitments proof) 2 ;;
  com_T1 <- index 0 (commitments proof) 3 ;;
  com_T2 <- index 0 (commitments proof) 4 ;;
  let op := openings proof in
  let t := append_serializable_element t "commitments A,B" [:: com_A; com_B] in
  let (y, t) := get_and_append_challenge challenge_hash t "challenge y" in
  let (z, t) := get_and_append_challenge challenge_hash t "challenge z" in
  let t := append_serializable_element t "commitments A,B" [:: com_E; com_T1; com_T2] in
  let h := sha256_digest (message params) in
  _ <- assert (String.eqb h (digest proof)) assert_eq_msg ;;
  let t := append_message t "message digest" (h_msg_of h) in
  let (x, _) := get_and_append_challenge challenge_hash t "challenge x" in
  c0 <- index 0 (challenges proof) 0 ;;
  c1 <- index 0 (challenges proof) 1 ;;
  c2 <- index 0 (challenges proof) 2 ;;
  if ~~ [&& y == c0, z == c1 & x == c2] then
    Err (SigmaErrors.InvalidProof "invalid challenge value")
  else
  let N := num_pub_inputs params in
  let vec_0n := nseq N (0 : F) in
  let vec_1n := nseq N (1 : F) in
  let powers_yn := generate_powers y N in
  ip1 <- inner_product vec_1n powers_yn ;;
  let delta := ip1 * (z + z * z) in
  l1 <- com_err (Pedersen.commit param_h_v vec_0n (hat_t op)) ;;
  l2 <- com_err (Pedersen.commit param_g_u vec_0n (taux op)) ;;
  r1 <- com_err (Pedersen.commit param_h_v vec_0n delta) ;;
  _ <- assert (l1 + l2 == r1 + x *: com_T1 + (x * x) *: com_T2) step1_msg ;;
  y_inv <- inverse_unwrap y ;;
  let powers_yn_inverse := generate_powers y_inv N in
  zeta_yn <- hadamard_product (zeta op) powers_yn_inverse ;;
  let vec_z1n := nseq N z in
  l3 <- com_err (Pedersen.commit param_g_u zeta_yn (mu op)) ;;
  l4 <- com_err (Pedersen.commit param_h_v (eta op) 0) ;;
  r3 <- com_err (Pedersen.commit param_g_u vec_z1n 0) ;;
  r4 <- com_err (Pedersen.commit param_h_v vec_z1n 0) ;;
  _ <- assert (l3 + l4 == com_A + x *: com_B + r3 + r4) step2_msg ;;
  let vec_z_yn := scalar_product powers_yn z in
  l5 <- unwrap (msm (vec_pk params) (zeta op)) ;;
  r5 <- com_err (Pedersen.commit param_key [:: fs op] 0) ;;
  r6 <- unwrap (msm (vec_pk params) vec_z_yn) ;;
  _ <- assert (l5 == r5 + x *: com_E + r6) step3_msg ;;
  tt' <- inner_product (zeta op) (eta op) ;;
  _ <- assert (hat_t op == tt') step4_msg ;;
  Ok true.

End Linear.
End Linear.

(** ** Ring signature, compressed variant
    (src/ringsignature/src/ringsig/protocol_compressed_modification.rs): its
    [setup] and the prover's first round, up to the commitments A, B, C, D. *)
Module Compressed.
Section Compressed.
Context {F : fieldType} {V : lmodType F}.
Import Vec Transcript Linear.

Variable Rng : Type.
Variable rand_scalar : Rng -> F * Rng.
Variable rand_point : Rng -> V * Rng.
Variable generator : V.
Variable thread_shuffle : seq V -> seq V.

Definition pedersen_setup := Pedersen.setup rand_scalar rand_point generator.

(** [setup]: five Pedersen parameter sets and the ring
    [vec![C::Affine::rand(rng); 2*supported_size-1]] with [pk] pushed, shuffled. *)
Definition setup (rng : Rng) (wit : seq F) (msg : string) (supported_size : nat)
  : result (@RingSignatureParams F V * seq F * Rng) SigmaErrors.t :=
  p1 <- com_err (pedersen_setup rng supported_size) ;; let (com_params_1, rng1) := p1 in
  p2 <- com_err (pedersen_setup rng1 supported_size) ;; let (com_params_2, rng2) := p2 in
  p3 <- com_err (pedersen_setup rng2 supported_size) ;; let (com_params_3, rng3) := p3 in
  p4 <- com_err (pedersen_setup rng3 supported_size) ;; let (com_params_4, rng4) := p4 in
  p5 <- com_err (pedersen_setup rng4 1) ;; let (key_params, rng5) := p5 in
  pk <- com_err (Pedersen.commit key_params wit 0) ;;
  let (pt, rng6) := rand_point rng5 in
  if supported_size == 0%N then Panic "attempt to subtract with overflow"%string
  else
    let vec_pk0 := rcons (nseq (2 * supported_size - 1) pt) pk in
    let (vec_pk', vec_b) := shuffle thread_shuffle vec_pk0 pk in
    let wit' := wit ++ vec_b in
    Ok ({| num_witness := size wit'; num_pub_inputs := supported_size;
           com_parameters := [:: com_params_1; com_params_2; com_params_3; com_params_4;
                                 key_params];
           message := msg; vec_pk := vec_pk' |}, wit', rng6).

Record Commitments := {
  c_alpha : seq F;
  c_r0 : seq F;
  c_r1 : seq F;
  c_r2 : seq F;
  c_r3 : seq F;
  c_points : seq V;
  c_t : @transcript F V;
  c_rng : Rng }.

(** [prove], lines 86-178: the witness split, [b'], [b_0 .. b_3], the random
    masks and the commitments [A, B, C, D] appended to the transcript. *)
Definition prove_commitments (rng : Rng) (params : @RingSignatureParams F V) (wit : seq F)
  : result Commitments SigmaErrors.t :=
  let t := append_serializable_element (new "RingSignature") "public list" (vec_pk params) in
  param_g_1_u_1 <- index no_params (com_parameters params) 0 ;;
  param_h_1_v_1 <- index no_params (com_parameters params) 1 ;;
  param_g_2_u_2 <- index no_params (com_parameters params) 2 ;;
  param_h_2_v_2 <- index no_params (com_parameters params) 3 ;;
  _ <- index no_params (com_parameters params) 4 ;;
  let N := num_pub_inputs params in
  if (size wit < N)%N then Panic "attempt to subtract with overflow"%string
  else
  let vec_b := drop (size wit - N) wit in
  let n := size vec_b in
  let bits := if (0 < n)%N then 1 :: nseq (n - 1) 0 else nseq n 0 in
  let vec_b_prime := [seq p.1 - p.2 | p <- zip vec_b bits] in
  let vec_b0 := vec_b in
  let vec_b1 := [seq 1 - b_i | b_i <- vec_b] in
  let ones := nseq N (1 : F) in
  let vec_b3 := [seq p.1 - p.2 | p <- zip ones vec_b_prime] in
  let vec_b2 := vec_b_prime in
  let constraint_1 := all (fun p => p.1 + p.2 == 1) (zip vec_b0 vec_b1) in
  let constraint_2 := all (fun p => p.1 * p.2 == 0) (zip vec_b0 vec_b1) in
  _ <- assert (constraint_1 && constraint_2)
         "assertion failed: constraint_1 && constraint_2"%string ;;
  let (alpha_1, rng1) := rand_scalar rng in
  let (alpha_2, rng2) := rand_scalar rng1 in
  let (alpha_3, rng3) := rand_scalar rng2 in
  let (alpha_4, rng4) := rand_scalar rng3 in
  let (s0, rng5) := rand_scalar rng4 in
  let vec_r0 := nseq (size vec_b0) s0 in
  let (s1, rng6) := rand_scalar rng5 in
  let vec_r1 := nseq (size vec_b1) s1 in
  let (s2, rng7) := rand_scalar rng6 in
  let vec_r2 := nseq (size vec_b1) s2 in
  let (s3, rng8) := rand_scalar rng7 in
  let vec_r3 := nseq (size vec_b1) s3 in
  cA1 <- com_err (Pedersen.commit param_g_1_u_1 vec_b0 alpha_1) ;;
  cA2 <- com_err (Pedersen.commit param_h_1_v_1 vec_b1 0) ;;
  cB1 <- com_err (Pedersen.commit param_g_1_u_1 vec_r0 alpha_2) ;;
  cB2 <- com_err (Pedersen.commit param_h_1_v_1 vec_r1 0) ;;
  cC1 <- com_err (Pedersen.commit param_g_2_u_2 vec_b2 alpha_3) ;;
  cC2 <- com_err (Pedersen.commit param_h_2_v_2 vec_b3 0) ;;
  cD1 <- com_err (Pedersen.commit param_g_2_u_2 vec_r2 alpha_4) ;;
  cD2 <- com_err (Pedersen.commit param_h_2_v_2 vec_r3 0) ;;
  let pts := [:: cA1 + cA2; cB1 + cB2; cC1 + cC2; cD1 + cD2] in
  let t := append_serializable_element t "commitments A,B,C,D" pts in
  Ok {| c_alpha := [:: alpha_1; alpha_2; alpha_3; alpha_4]; c_r0 := vec_r0; c_r1 := vec_r1;
        c_r2 := vec_r2; c_r3 := vec_r3; c_points := pts; c_t := t; c_rng := rng8 |}.

Variable challenge_hash : @transcript F V -> string -> F.
Variable sha256_digest : string -> string.

(** [LogarithmicRingSignature]: the compressed variant's proof. *)
Record LogarithmicRingSignature := {
  commitments : seq V;
  openings : @Openings F;
  challenges : seq F;
  compression_proof : @IPA.InnerProductProof F V;
  digest : string }.

(** [for i in 0..gs.len() { out.push(gs[i] * powers[i]) }] *)
Fixpoint scale_loop (gs : seq V) (powers : seq F) (i : nat) : result (seq V) SigmaErrors.t :=
  match gs with
  | [::] => Ok [::]
  | g :: gs' =>
      p <- index 0 powers i ;;
      rest <- scale_loop gs' powers i.+1 ;;
      Ok (p *: g :: rest)
  end.

(** [for i in 0..n { vec_G.push(vec_g[i] + params.vec_pk[i]) }], [n = vec_g.len()]. *)
Fixpoint add_loop (gs pks : seq V) (i : nat) : result (seq V) SigmaErrors.t :=
  match gs with
  | [::] => Ok [::]
  | g :: gs' =>
      pki <- index 0 pks i ;;
      rest <- add_loop gs' pks i.+1 ;;
      Ok (g + pki :: rest)
  end.

(** [verify], lines 357-533.  The unused [zeros] vector is left out. *)
Definition verify (params : @RingSignatureParams F V) (proof : LogarithmicRingSignature)
  : result bool SigmaErrors.t :=
  let t := append_serializable_element (new "RingSignature") "public list" (vec_pk params) in
  param_g_1_u_1 <- index no_params (com_parameters params) 0 ;;
  param_h_1_v_1 <- index no_params (com_parameters params) 1 ;;
  param_g_2_u_2 <- index no_params (com_parameters params) 2 ;;
  param_h_2_v_2 <- index no_params (com_parameters params) 3 ;;
  param_key <- index no_params (com_parameters params) 4 ;;
  com_A <- index 0 (commitments proof) 0 ;;
  com_B <- index 0 (commitments proof) 1 ;;
  com_C <- index 0 (commitments proof) 2 ;;
  com_D <- index 0 (commitments proof) 3 ;;
  com_E <- index 0 (commitments proof) 4 ;;
  com_T1 <- index 0 (commitments proof) 5 ;;
  com_T2 <- index 0 (commitments proof) 6 ;;
  let op := openings proof in
  y <- index 0 (challenges proof) 0 ;;
  z <- index 0 (challenges proof) 1 ;;
  x <- index 0 (challenges proof) 2 ;;
  let N := num_pub_inputs params in
  let vec_0n := nseq N (0 : F) in
  let vec_1n := nseq N (1 : F) in
  let vec_12n := nseq (2 * N) (1 : F) in
  let powers_yn := generate_powers y N in
  let z2 := z ^+ 2 in
  let z3 := z ^+ 3 in
  let z5 := z ^+ 5 in
  let z7 := z ^+ 7 in
  let z6 := z ^+ 6 in
  let z8 := z ^+ 8 in
  let two_power_n := nseq N (2%:R : F) in
  let yn_yn := powers_yn ++ powers_yn in
  ip1 <- inner_product vec_1n powers_yn ;;
  let delta_1 := (z + z2 + z5 + z6 + z7) * ip1 in
  delta_21 <- hadamard_product vec_12n yn_yn ;;
  let delta_22 := two_power_n ++ two_power_n in
  ip2 <- inner_product delta_21 delta_22 ;;
  let delta_2 := z8 * ip2 in
  let delta := delta_1 + delta_2 in
  c_delta <- com_err (Pedersen.commit param_h_1_v_1 vec_0n delta) ;;
  c_taux <- com_err (Pedersen.commit param_g_1_u_1 vec_0n (taux op)) ;;
  let rhs_step1 := c_delta + x *: com_T1 + (x * x) *: com_T2 - c_taux in
  y_inv <- inverse_unwrap y ;;
  let powers_yn_inverse := generate_powers y_inv N in
  vec_g1_yn <- scale_loop (Pedersen.vec_g param_g_1_u_1) powers_yn_inverse 0 ;;
  vec_g2_yn <- scale_loop (Pedersen.vec_g param_g_2_u_2) powers_yn_inverse 0 ;;
  let vec_g1_g2 := vec_g1_yn ++ vec_g2_yn in
  let vec_g12 := vec_g1_g2 in
  let vec_h1_h2 := Pedersen.vec_g param_h_1_v_1 ++ Pedersen.vec_g param_h_2_v_2 in
  let vec_z1n := nseq N z in
  let vec_z3_1n := nseq N z3 in
  let vec_z7_2n := [seq z7 * c | c <- two_power_n] in
  vec_z1n_z72n <- vec_add vec_z1n vec_z7_2n ;;
  let vec_z5_2n := [seq z5 * c | c <- two_power_n] in
  vec_z3n_z52n <- vec_add vec_z3_1n vec_z5_2n ;;
  let param_g1_yn_u1 := {| Pedersen.h := Pedersen.h param_g_1_u_1; Pedersen.vec_g := vec_g1_g2 |} in
  let param_h12_v1 := {| Pedersen.h := Pedersen.h param_h_1_v_1; Pedersen.vec_g := vec_h1_h2 |} in
  c3 <- com_err (Pedersen.commit param_g_1_u_1 vec_z1n 0) ;;
  c4 <- com_err (Pedersen.commit param_g_2_u_2 vec_z3_1n 0) ;;
  c5 <- com_err (Pedersen.commit param_h_1_v_1 vec_z1n_z72n 0) ;;
  c6 <- com_err (Pedersen.commit param_h_2_v_2 vec_z3n_z52n 0) ;;
  let rhs_step2 := com_A + x *: com_B + z2 *: com_C + x *: com_D + c3 + c4 + c5 + c6 in
  let vec_z_yn := scalar_product powers_yn z in
  let vec_z_yn_expanded := vec_z_yn ++ vec_z_yn in
  c7 <- com_err (Pedersen.commit param_key [:: fs op] 0) ;;
  m <- unwrap (msm (vec_pk params) vec_z_yn_expanded) ;;
  let rhs_step3 := c7 + x *: com_E + m in
  let t := append_serializable_element t "commitments A,B,C,D" [:: com_A; com_B; com_C; com_D] in
  let (y', t) := get_and_append_challenge challenge_hash t "challenge y" in
  let (z', t) := get_and_append_challenge challenge_hash t "challenge z" in
  let t := append_serializable_element t "commitments E,T1,T2" [:: com_E; com_T1; com_T2] in
  let h := sha256_digest (message params) in
  _ <- assert (String.eqb h (digest proof)) assert_eq_msg ;;
  let t := append_message t "message digest" (h_msg_of h) in
  let (x', _) := get_and_append_challenge challenge_hash t "challenge x" in
  if ~~ [&& y' == y, z' == z & x' == x] then
    Err (SigmaErrors.InvalidProof "invalid challenge value")
  else
  let RHS := rhs_step1 + rhs_step2 + rhs_step3 in
  let n := size (Pedersen.vec_g param_g1_yn_u1) in
  vec_G <- add_loop vec_g12 (vec_pk params) 0 ;;
  let param := {| IPA.factors_G := nseq n 1; IPA.factors_H := nseq n 1;
                  IPA.u := Pedersen.h param_h12_v1; IPA.vec_G := vec_G;
                  IPA.vec_H := Pedersen.vec_g param_h12_v1 |} in
  _ <- IPA.verify challenge_hash n RHS param (compression_proof proof) ;;
  Ok true.

End Compressed.
End Compressed.

(** ** A pure reading of the inner-product argument

    The prover's rounds and the verifier's recomputation, written as plain
    functions of the data, for the proofs about [IPA.prove] and [IPA.verify]. *)
Module IPARead.
Section IPARead.
Context {F : fieldType} {V : lmodType F}.
Import Vec Transcript IPA.

Variable challenge_hash : @transcript F V -> string -> F.

(** The value of [msm] when the lengths agree. *)
Definition msum (bases : seq V) (scalars : seq F) : V :=
  foldr (fun p acc => p.2 *: p.1 + acc) 0 (zip bases scalars).

(** The value of [inner_product] when the lengths agree. *)
Definition ip (xs ys : seq F) : F :=
  foldl (fun acc x => acc + x) 0 [seq p.1 * p.2 | p <- zip xs ys].

(** [vec_add(scalar_product(l, c1), scalar_product(r, c2))]. *)
Definition fold_sc (c1 c2 : F) (l r : seq F) : seq F :=
  [seq p.1 * c1 + p.2 * c2 | p <- zip l r].

(** [[msm([l_i, r_i], [c1, c2]) for i]]. *)
Definition fold_pt (c1 c2 : F) (l r : seq V) : seq V :=
  [seq c1 *: p.1 + c2 *: p.2 | p <- zip l r].

(** The generators weighted by the factors: [f_i * G_i]. *)
Definition scale (fs : seq F) (Gs : seq V) : seq V :=
  [seq p.1 *: p.2 | p <- zip fs Gs].

Definition cross_L (u : V) (s : state) : V :=
  let m := (st_n s %/ 2)%N in
  msum (drop m (st_G s) ++ take m (st_H s) ++ [:: u])
       (take m (st_a s) ++ drop m (st_b s) ++ [:: ip (take m (st_a s)) (drop m (st_b s))]).

Definition cross_R (u : V) (s : state) : V :=
  let m := (st_n s %/ 2)%N in
  msum (take m (st_G s) ++ drop m (st_H s) ++ [:: u])
       (drop m (st_a s) ++ take m (st_b s) ++ [:: ip (drop m (st_a s)) (take m (st_b s))]).

(** One folding round with no factors. *)
Definition round (u : V) (s : state) : state :=
  let m := (st_n s %/ 2)%N in
  let t1 := append_serializable_element (st_t s) "commitments L, R"
              [:: cross_L u s; cross_R u s] in
  let (x, t2) := get_and_append_challenge challenge_hash t1 "challenge" in
  {| st_n := m;
     st_a := fold_sc x x^-1 (take m (st_a s)) (drop m (st_a s));
     st_b := fold_sc x^-1 x (take m (st_b s)) (drop m (st_b s));
     st_G := fold_pt x^-1 x (take m (st_G s)) (drop m (st_G s));
     st_H := fold_pt x x^-1 (take m (st_H s)) (drop m (st_H s));
     st_L := rcons (st_L s) (cross_L u s);
     st_R := rcons (st_R s) (cross_R u s);
     st_x := rcons (st_x s) x;
     st_t := t2 |}.

Definition rounds (u : V) (k : nat) (s : state) : state := iter k (round u) s.

(** The state whose generators carry the factors. *)
Definition scaled (params : @InnerProductParam F V) (s : state) : state :=
  {| st_n := st_n s; st_a := st_a s; st_b := st_b s;
     st_G := scale (factors_G params) (st_G s); st_H := scale (factors_H params) (st_H s);
     st_L := st_L s; st_R := st_R s; st_x := st_x s; st_t := st_t s |}.

(** [<G, a> + <H, b> + <a, b> u] for the prover's current vectors. *)
Definition Pval (u : V) (s : state) : V :=
  msum (st_G s) (st_a s) + msum (st_H s) (st_b s) + ip (st_a s) (st_b s) *: u.

(** The challenges the transcript yields for the points [L_j, R_j] in order. *)
Fixpoint replay (t : @transcript F V) (Ls Rs : seq V) : @transcript F V * seq F :=
  match Ls, Rs with
  | L :: Ls', R :: Rs' =>
      let t1 := append_serializable_element t "commitments L, R" [:: L; R] in
      let (x, t2) := get_and_append_challenge challenge_hash t1 "challenge" in
      let (tf, xs) := replay t2 Ls' Rs' in (tf, x :: xs)
  | _, _ => (t, [::])
  end.

(** [all_inv] of the verifier. *)
Definition all_inv (xs : seq F) : F := foldl (fun acc x => acc * x^-1) 1 xs.

(** The coefficients [s_i] of the folded generator: the first challenge
    splits the vector in halves weighted [x^-1] and [x]. *)
Fixpoint box_rec (xs : seq F) : seq F :=
  match xs with
  | [::] => [:: 1]
  | x :: xs' => [seq x^-1 * c | c <- box_rec xs'] ++ [seq x * c | c <- box_rec xs']
  end.

Definition proof_of (s : @state F V) : @InnerProductProof F V :=
  {| vec_L := st_L s; vec_R := st_R s; a := nth 0 (st_a s) 0; b := nth 0 (st_b s) 0;
     challenges := st_x s |}.

Definition init_state (params : @InnerProductParam F V) (vec_a vec_b : seq F) : state :=
  let n := size (vec_G params) in
  {| st_n := n; st_a := vec_a; st_b := vec_b; st_G := vec_G params; st_H := vec_H params;
     st_L := [::]; st_R := [::]; st_x := [::];
     st_t := append_field_element (new "RingSignature") "IPAsize" n%:R |}.

(** A prover state of length [2^k]: [n] and the four vectors agree. *)
Definition shaped (k : nat) (s : @state F V) : Prop :=
  st_n s = (2 ^ k)%N /\ size (st_a s) = (2 ^ k)%N /\ size (st_b s) = (2 ^ k)%N /\
  size (st_G s) = (2 ^ k)%N /\ size (st_H s) = (2 ^ k)%N.

End IPARead.
End IPARead.

(** ** A concrete instance: the scalar field [F_101] acting on itself *)
Module Concrete.

Definition Fq : fieldType := 'F_101.
Definition Vq : lmodType Fq := (Fq^o : lmodType Fq).

(** A transcript squeeze that never yields zero. *)
Definition hash_nz (t : @Transcript.transcript Fq Vq) (_ : string) : Fq :=
  let c : Fq := (size t)%:R + 2%:R in if c == 0 then 1 else c.

(** A deterministic generator: a counter. *)
Definition rng_scalar (r : nat) : Fq * nat := ((r + 3)%:R, r.+1).
Definition rng_point (r : nat) : Vq * nat := ((r + 5)%:R, r.+1).

(** The concrete digest: the message itself. *)
Definition sha (s : string) : string := s.

Definition setupL := @Linear.setup Fq Vq nat rng_scalar rng_point 1 id 0 [:: 5%:R] "msg"%string 2.

Definition params0 : @Linear.RingSignatureParams Fq Vq :=
  {| Linear.num_witness := 0; Linear.num_pub_inputs := 0; Linear.com_parameters := [::];
     Linear.message := "m"; Linear.vec_pk := [::] |}.

Definition paramsL : @Linear.RingSignatureParams Fq Vq :=
  match setupL with Ok (p, _, _) => p | _ => params0 end.
Definition witL : seq Fq := match setupL with Ok (_, w, _) => w | _ => [::] end.
Definition rngL : nat := match setupL with Ok (_, _, r) => r | _ => 0%N end.

Definition proofL0 : @Linear.LinearRingSignature Fq Vq :=
  {| Linear.commitments := [::];
     Linear.openings := {| Linear.zeta := [::]; Linear.eta := [::]; Linear.hat_t := 0;
                           Linear.taux := 0; Linear.mu := 0; Linear.fs := 0 |};
     Linear.challenges := [::]; Linear.digest := "m" |}.

Definition proofL : @Linear.LinearRingSignature Fq Vq :=
  match @Linear.prove Fq Vq nat rng_scalar hash_nz sha rngL paramsL witL with
  | Ok p => p | _ => proofL0 end.

(** [proofL] with a digest that is not the message's. *)
Definition proofL_bad : @Linear.LinearRingSignature Fq Vq :=
  {| Linear.commitments := Linear.commitments proofL; Linear.openings := Linear.openings proofL;
     Linear.challenges := Linear.challenges proofL; Linear.digest := "zzz" |}.

Definition ipa_params2 : @IPA.InnerProductParam Fq Vq :=
  {| IPA.factors_G := [:: 1; 2%:R]; IPA.factors_H := [:: 3%:R; 4%:R]; IPA.u := 5%:R;
     IPA.vec_G := [:: 6%:R; 7%:R]; IPA.vec_H := [:: 8%:R; 9%:R] |}.

Definition ipa_params1 : @IPA.InnerProductParam Fq Vq :=
  {| IPA.factors_G := [:: 2%:R]; IPA.factors_H := [:: 3%:R]; IPA.u := 5%:R;
     IPA.vec_G := [:: 6%:R]; IPA.vec_H := [:: 8%:R] |}.

(** A proof for length [2] whose challenge is not the transcript's. *)
Definition ipa_bad_challenge : @IPA.InnerProductProof Fq Vq :=
  {| IPA.vec_L := [:: 1]; IPA.vec_R := [:: 2%:R]; IPA.a := 0; IPA.b := 0; IPA.challenges := [:: 0] |}.

(** As [ipa_bad_challenge], with one more [R] point and challenge than [L] points. *)
Definition ipa_bad_challenge_long : @IPA.InnerProductProof Fq Vq :=
  {| IPA.vec_L := [:: 1]; IPA.vec_R := [:: 2%:R; 3%:R]; IPA.a := 0; IPA.b := 0;
     IPA.challenges := [:: 0; 4%:R] |}.

Definition ipa_params_empty : @IPA.InnerProductParam Fq Vq :=
  {| IPA.factors_G := [::]; IPA.factors_H := [::]; IPA.u := 0; IPA.vec_G := [::]; IPA.vec_H := [::] |}.

Definition ipa_proof32 : @IPA.InnerProductProof Fq Vq :=
  {| IPA.vec_L := nseq 32 0; IPA.vec_R := nseq 32 0; IPA.a := 0; IPA.b := 0;
     IPA.challenges := nseq 32 0 |}.

(** Parameters and vectors of length [2^32]. *)
Definition ipa_params_big : @IPA.InnerProductParam Fq Vq :=
  {| IPA.factors_G := nseq (2 ^ 32) 1; IPA.factors_H := nseq (2 ^ 32) 1; IPA.u := 1;
     IPA.vec_G := nseq (2 ^ 32) 1; IPA.vec_H := nseq (2 ^ 32) 1 |}.
Definition vec_big : seq Fq := nseq (2 ^ 32) 1.

Definition P_big : Vq :=
  IPARead.msum (IPA.vec_G ipa_params_big) [seq p.1 * p.2 | p <- zip vec_big (IPA.factors_G ipa_params_big)]
  + IPARead.msum (IPA.vec_H ipa_params_big) [seq p.1 * p.2 | p <- zip vec_big (IPA.factors_H ipa_params_big)]
  + IPARead.ip vec_big vec_big *: IPA.u ipa_params_big.

(** Linear parameters for a ring of two keys, [5 g_k] at position [1]. *)
Definition paramsX : @Linear.RingSignatureParams Fq Vq :=
  {| Linear.num_witness := 3; Linear.num_pub_inputs := 2;
     Linear.com_parameters :=
       [:: {| Pedersen.h := (1 : Vq); Pedersen.vec_g := [:: 2%:R; 3%:R] |};
           {| Pedersen.h := (4%:R : Vq); Pedersen.vec_g := [:: 5%:R; 6%:R] |};
           {| Pedersen.h := (7%:R : Vq); Pedersen.vec_g := [:: 8%:R] |}];
     Linear.message := "m"; Linear.vec_pk := [:: 9%:R; (5%:R : Fq) *: (8%:R : Vq)] |}.

(** The commitment the IPA proves for [a = [1; 2]], [b = [3; 4]]. *)
Definition P2 : Vq :=
  IPARead.msum (IPA.vec_G ipa_params2) [seq p.1 * p.2 | p <- zip [:: 1; 2%:R] (IPA.factors_G ipa_params2)]
  + IPARead.msum (IPA.vec_H ipa_params2) [seq p.1 * p.2 | p <- zip [:: 3%:R; 4%:R] (IPA.factors_H ipa_params2)]
  + IPARead.ip [:: 1; 2%:R] [:: 3%:R; 4%:R] *: IPA.u ipa_params2.

(** A linear ring of three keys: two decoys and the signer's. *)
Definition setupL3 := @Linear.setup Fq Vq nat rng_scalar rng_point 1 id 0 [:: 5%:R] "msg"%string 3.

(** The compressed setup for [supported_size = 2]: a ring of four keys. *)
Definition setupC2 := @Compressed.setup Fq Vq nat rng_scalar rng_point 1 id 0 [:: 5%:R] "msg"%string 2.

Definition paramsC : @Linear.RingSignatureParams Fq Vq :=
  match setupC2 with Ok (p, _, _) => p | _ => params0 end.

Definition ipa_proof0 : @IPA.InnerProductProof Fq Vq :=
  {| IPA.vec_L := [::]; IPA.vec_R := [::]; IPA.a := 0; IPA.b := 0; IPA.challenges := [::] |}.

(** A compressed proof with seven commitments, challenges [1, 1, 1] and a
    digest that is not the message's. *)
Definition proofC_bad : @Compressed.LogarithmicRingSignature Fq Vq :=
  {| Compressed.commitments := nseq 7 1; Compressed.openings := Linear.openings proofL0;
     Compressed.challenges := [:: 1; 1; 1]; Compressed.compression_proof := ipa_proof0;
     Compressed.digest := "zzz" |}.

End Concrete.

(** * Properties *)

(** ** Generic facts about the outcome monad and the vector helpers *)
Module Facts.
Section Facts.
Context {F : fieldType} {V : lmodType F}.
Import Vec IPARead.

Lemma bind_Ok {A B E : Type} (a : A) (k : A -> result B E) : bind (Ok a) k = k a.
Proof. by []. Qed.

Lemma bindP {A B E : Type} (r : result A E) (k : A -> result B E) (b : B) :
  bind r k = Ok b -> exists a, r = Ok a /\ k a = Ok b.
Proof. by case: r => [a|e|m] //= H; exists a. Qed.

Lemma msm_some (bs : seq V) (ss : seq F) :
  size bs = size ss -> msm bs ss = Some (msum bs ss).
Proof. by rewrite /msm => ->; rewrite eqxx. Qed.

Lemma msum_cons (p : V) (bs : seq V) (c : F) (ss : seq F) :
  msum (p :: bs) (c :: ss) = c *: p + msum bs ss.
Proof. by []. Qed.

Lemma msum_nil_l (ss : seq F) : msum ([::] : seq V) ss = 0.
Proof. by rewrite /msum; case: ss. Qed.

Lemma msum_nil_r (bs : seq V) : msum bs [::] = 0.
Proof. by rewrite /msum; case: bs. Qed.

Lemma size_cons_inj {A B : Type} (x : A) (y : B) (l : seq A) (r : seq B) :
  size (x :: l) = size (y :: r) -> size l = size r.
Proof. by move=> /= [->]. Qed.

Lemma msum_sum (bs : seq V) (ss : seq F) :
  size bs = size ss -> msum bs ss = \sum_(i < size ss) ss`_i *: bs`_i.
Proof.
elim: bs ss => [|p bs IH] [|c ss] Hs //.
  by rewrite msum_nil_l big_ord0.
rewrite msum_cons big_ord_recl; congr (_ + _).
by rewrite (IH ss (size_cons_inj Hs)); apply: eq_bigr => i _.
Qed.

Lemma msum_cat (bs1 bs2 : seq V) (ss1 ss2 : seq F) :
  size bs1 = size ss1 -> msum (bs1 ++ bs2) (ss1 ++ ss2) = msum bs1 ss1 + msum bs2 ss2.
Proof.
elim: bs1 ss1 => [|p bs IH] [|c ss] Hs //; first by rewrite msum_nil_l add0r.
by rewrite cat_cons cat_cons !msum_cons (IH ss (size_cons_inj Hs)) addrA.
Qed.

Lemma msum_rcons (bs : seq V) (ss : seq F) (p : V) (c : F) :
  size bs = size ss -> msum (rcons bs p) (rcons ss c) = msum bs ss + c *: p.
Proof. by move=> Hs; rewrite -!cats1 msum_cat // msum_cons msum_nil_l addr0. Qed.

Lemma msumZ (c : F) (bs : seq V) (ss : seq F) :
  msum bs [seq c * s | s <- ss] = c *: msum bs ss.
Proof.
elim: bs ss => [|p bs IH] [|s ss]; rewrite ?msum_nil_l ?msum_nil_r ?scaler0 //.
by rewrite map_cons !msum_cons IH scalerDr scalerA.
Qed.

Lemma msum_opp (bs : seq V) (ss : seq F) :
  msum bs [seq - s | s <- ss] = - msum bs ss.
Proof.
elim: bs ss => [|p bs IH] [|s ss]; rewrite ?msum_nil_l ?msum_nil_r ?oppr0 //.
by rewrite map_cons !msum_cons IH scaleNr opprD.
Qed.

Lemma ip_cons (x y : F) (xs ys : seq F) : ip (x :: xs) (y :: ys) = x * y + ip xs ys.
Proof.
rewrite /ip /=; move: (x * y) => c.
have H : forall (l : seq F) (a : F),
    foldl (fun acc z => acc + z) a l = a + foldl (fun acc z => acc + z) 0 l.
  by elim=> [|z l IHl] a /=; rewrite ?addr0 // IHl (IHl (0 + z)) add0r addrA.
by rewrite H add0r.
Qed.

Lemma ip_nil_l (ys : seq F) : ip [::] ys = 0.
Proof. by rewrite /ip; case: ys. Qed.

Lemma ip_cat (xs1 xs2 ys1 ys2 : seq F) :
  size xs1 = size ys1 -> ip (xs1 ++ xs2) (ys1 ++ ys2) = ip xs1 ys1 + ip xs2 ys2.
Proof.
elim: xs1 ys1 => [|x xs IH] [|y ys] Hs //; first by rewrite ip_nil_l add0r.
by rewrite !cat_cons !ip_cons (IH ys (size_cons_inj Hs)) addrA.
Qed.

Lemma ip_sum (xs ys : seq F) :
  size xs = size ys -> ip xs ys = \sum_(i < size xs) xs`_i * ys`_i.
Proof.
elim: xs ys => [|x xs IH] [|y ys] Hs //; first by rewrite ip_nil_l big_ord0.
by rewrite ip_cons big_ord_recl (IH ys (size_cons_inj Hs)).
Qed.

Lemma inner_product_ok {E : Type} (xs ys : seq F) :
  size xs = size ys -> inner_product xs ys = (Ok (ip xs ys) : result F E).
Proof. by rewrite /inner_product => ->; rewrite eqxx. Qed.

Lemma vec_add_ok {E : Type} (xs ys : seq F) :
  size xs = size ys -> vec_add xs ys = (Ok [seq p.1 + p.2 | p <- zip xs ys] : result _ E).
Proof. by rewrite /vec_add => ->; rewrite eqxx. Qed.

Lemma hadamard_ok {E : Type} (xs ys : seq F) :
  size xs = size ys -> hadamard_product xs ys = (Ok [seq p.1 * p.2 | p <- zip xs ys] : result _ E).
Proof. by rewrite /hadamard_product => ->; rewrite eqxx. Qed.

Lemma size_successors_take (c y : F) (n : nat) : size (successors_take c y n) = n.
Proof.
elim: n c => [|n IH] c //.
have -> : successors_take c y n.+1 = c :: successors_take (c * y) y n by [].
exact: (congr1 S (IH (c * y))).
Qed.

Lemma size_generate_powers (y : F) (n : nat) : size (generate_powers y n) = n.
Proof. exact: size_successors_take. Qed.

Lemma nth_generate_powers (y : F) (n i : nat) :
  (i < n)%N -> (generate_powers y n)`_i = y ^+ i.+1.
Proof.
rewrite /generate_powers.
have H : forall m c j, (j < m)%N -> (successors_take c y m)`_j = c * y ^+ j.
  elim=> [|m IH] c [|j] //=; first by rewrite mulr1.
  by rewrite ltnS => Hj; rewrite IH // -mulrA -exprS.
by move=> Hi; rewrite H // -exprS.
Qed.

Lemma map_zip_map {A B C D : Type} (f : A -> C) (g : B -> D) (l : seq A) (r : seq B) :
  zip (map f l) (map g r) = [seq (f p.1, g p.2) | p <- zip l r].
Proof. by elim: l r => [|x l IH] [|y r] //=; rewrite IH. Qed.

Lemma size_zip_eq {A B : Type} (l : seq A) (r : seq B) :
  size l = size r -> size (zip l r) = size l.
Proof. by move=> H; rewrite size_zip H minnn. Qed.

End Facts.
End Facts.

Module PedersenProps.
Section PedersenProps.
Context {F : fieldType} {V : lmodType F}.
Import Pedersen IPARead Facts.

(** Claim C10: [commit] returns [h r + sum_i m_i g_i] when the message has
    the generators' length and [InvalidParameters] otherwise; a commitment it
    returns verifies with [open(m, r)], i.e. [verify] returns [Ok true]. *)
Theorem pedersen_commit_verify (params : @PedersenParams F V) (m : seq F) (r : F) :
  commit params m r =
    (if size m == size (vec_g params)
     then Ok (r *: h params + \sum_(i < size m) m`_i *: (vec_g params)`_i)
     else Err (CommitmentErrors.InvalidParameters
                 "message length should equal to the generator length")) /\
  (forall cm, commit params m r = Ok cm -> (op <- open m r ;; verify params cm op) = Ok true).
Proof.
have Hc : size m = size (vec_g params) -> commit params m r = Ok (r *: h params + msum (vec_g params) m).
  by move=> Hs; rewrite /commit Hs eqxx /= (msm_some (esym Hs)).
split.
  case: eqP => Hs; first by rewrite Hc // msum_sum.
  by rewrite /commit; move/eqP: Hs => /negbTE ->.
move=> cm; case: (eqVneq (size m) (size (vec_g params))) => Hs.
  by rewrite Hc // => -[<-]; rewrite /= /verify (msm_some (esym Hs)) /= eqxx.
by rewrite /commit Hs.
Qed.
(** Claim C2: [setup] draws a single random point and repeats it: for every
    random-number generator and every size, the generator vector is
    [nseq supported_size pt] for the one point [pt] drawn after [h_scalar]. *)
Theorem pedersen_setup_repeats (Rng : Type) (rand_scalar : Rng -> F * Rng)
  (rand_point : Rng -> V * Rng) (generator : V) (rng : Rng) (supported_size : nat) :
  let pt := (rand_point (rand_scalar rng).2).1 in
  setup rand_scalar rand_point generator rng supported_size =
    Ok ({| h := (rand_scalar rng).1 *: generator; vec_g := nseq supported_size pt |},
        (rand_point (rand_scalar rng).2).2).
Proof. by rewrite /setup; case: (rand_scalar rng) => s r1 /=; case: (rand_point r1). Qed.

End PedersenProps.
End PedersenProps.

Module VecProps.
Section VecProps.
Context {F : fieldType} {V : lmodType F}.
Import Vec.

(** Claim C4: when the permutation is a permutation of the ring, [shuffle]
    returns the permuted ring and the vector [b] with [b_i = 1] exactly where
    the permuted ring holds [pk] and [0] elsewhere; its number of non-zero
    entries is the number of occurrences of [pk], and when [pk] is absent
    it is the all-zero vector (no panic, no error). *)
Theorem shuffle_indicator (thread_shuffle : seq V -> seq V) (ring : seq V) (pk : V)
  (Hperm : perm_eq (thread_shuffle ring) ring) :
  let res := shuffle thread_shuffle ring pk in
  res.1 = thread_shuffle ring /\
  size res.2 = size ring /\
  (forall i, (i < size ring)%N -> res.2`_i = (if res.1`_i == pk then 1 else 0)) /\
  count (fun c => c != 0) res.2 = count_mem pk ring /\
  (pk \notin ring -> res.2 = nseq (size ring) 0).
Proof.
have Hs : size (thread_shuffle ring) = size ring by apply: perm_size.
rewrite /shuffle /=; split=> //; split; first by rewrite size_map.
split.
  move=> i Hi; rewrite (nth_map 0) ?Hs //.
  by case: eqP => [->|H]; [rewrite eqxx | case: eqP => // H'; case: H].
have Hc : (count (fun c : F => c != 0)
            [seq (if pk == q then 1 else 0) | q <- thread_shuffle ring]) = (count_mem pk ring).
  have Hcnt := permP Hperm.
  rewrite count_map -(Hcnt (pred1 pk)) /=.
  apply: eq_count => q /=; rewrite [q == pk]eq_sym.
  by case: (pk == q); rewrite ?oner_eq0 ?eqxx.
split=> // Hn; apply: (@eq_from_nth _ 0); rewrite size_map ?size_nseq ?Hs //.
move=> i Hi; rewrite (nth_map 0) ?Hs // nth_nseq Hi.
case: (pk =P _) => // Heq; case/negP: Hn; rewrite -(perm_mem Hperm) Heq.
by apply: mem_nth; rewrite Hs.
Qed.

End VecProps.
End VecProps.

Module RingProps.
Section RingProps.
Context {F : fieldType} {V : lmodType F}.
Import Vec Linear Facts.

Variable Rng : Type.
Variable rand_scalar : Rng -> F * Rng.
Variable rand_point : Rng -> V * Rng.
Variable generator : V.
Variable thread_shuffle : seq V -> seq V.

Lemma pedersen_setup_ok (rng : Rng) (s : nat) :
  exists p r', Pedersen.setup rand_scalar rand_point generator rng s = Ok (p, r').
Proof. by rewrite /Pedersen.setup; case: (rand_scalar rng) => ? ?; case: rand_point; eauto. Qed.

Lemma ring_of_setup (N : nat) (pt pk : V) :
  (forall s : seq V, perm_eq (thread_shuffle s) s) ->
  let ring := (shuffle thread_shuffle (rcons (nseq N pt) pk) pk).1 in
  perm_eq ring (rcons (nseq N pt) pk) /\ all (fun q => (q == pt) || (q == pk)) ring.
Proof.
move=> Hperm /=; split; first exact: Hperm.
rewrite (perm_all _ (Hperm _)) all_rcons eqxx orbT /=.
by apply/allP => q /nseqP [-> _]; rewrite eqxx.
Qed.

(** Claim C6: in both ring-signature setups the ring is a permutation of
    [supported_size - 1] (linear) or [2 * supported_size - 1] (compressed)
    copies of one decoy point [d] followed by the signer's key [pk], the
    commitment [commit(key_params, wit, 0)] under the returned key parameters
    (the third, resp. fifth, commitment parameter set), so every entry is [d]
    or [pk]; this holds for every random-number generator, given only that
    [thread_shuffle] permutes. *)
Theorem setup_ring_decoys_equal (rng : Rng) (wit : seq F) (msg : string) (supported_size : nat)
  (Hperm : forall s : seq V, perm_eq (thread_shuffle s) s) :
  (forall params wit' rng',
     Linear.setup rand_scalar rand_point generator thread_shuffle rng wit msg supported_size
       = Ok (params, wit', rng') ->
     exists d pk, Pedersen.commit (nth no_params (com_parameters params) 2) wit 0 = Ok pk /\
                  perm_eq (vec_pk params) (rcons (nseq (supported_size - 1) d) pk) /\
                  all (fun q => (q == d) || (q == pk)) (vec_pk params)) /\
  (forall params wit' rng',
     Compressed.setup rand_scalar rand_point generator thread_shuffle rng wit msg supported_size
       = Ok (params, wit', rng') ->
     exists d pk, Pedersen.commit (nth no_params (com_parameters params) 4) wit 0 = Ok pk /\
                  perm_eq (vec_pk params) (rcons (nseq (2 * supported_size - 1) d) pk) /\
                  all (fun q => (q == d) || (q == pk)) (vec_pk params)).
Proof.
split=> params wit' rng'.
  rewrite /Linear.setup /Linear.pedersen_setup.
  have [p1 [r1 ->]] := pedersen_setup_ok rng supported_size; cbn [bind com_err map_err].
  have [p2 [r2 ->]] := pedersen_setup_ok r1 supported_size; cbn [bind com_err map_err].
  have [p3 [r3 ->]] := pedersen_setup_ok r2 1; cbn [bind com_err map_err].
  rewrite /=; case Ek: (Pedersen.commit p3 wit 0) => [pk|e|m] //=.
  case: (rand_point r3) => pt r4; case: eqP => // _.
  move=> [<- _ _] /=; exists pt, pk; split; [exact: Ek | exact: ring_of_setup].
rewrite /Compressed.setup /Compressed.pedersen_setup.
have [p1 [r1 ->]] := pedersen_setup_ok rng supported_size; cbn [bind com_err map_err].
have [p2 [r2 ->]] := pedersen_setup_ok r1 supported_size; cbn [bind com_err map_err].
have [p3 [r3 ->]] := pedersen_setup_ok r2 supported_size; cbn [bind com_err map_err].
have [p4 [r4 ->]] := pedersen_setup_ok r3 supported_size; cbn [bind com_err map_err].
have [p5 [r5 ->]] := pedersen_setup_ok r4 1; cbn [bind com_err map_err].
rewrite /=; case Ek: (Pedersen.commit p5 wit 0) => [pk|e|m] //=.
case: (rand_point r5) => pt r6; case: eqP => // _.
move=> [<- _ _] /=; exists pt, pk; split; [exact: Ek | exact: ring_of_setup].
Qed.

Variable challenge_hash : @Transcript.transcript F V -> string -> F.

Lemma bind_Ok_inv {A B E : Type} (r : result A E) (k : A -> result B E) (b : B) (P : Prop) :
  (forall a, r = Ok a -> k a = Ok b -> P) -> bind r k = Ok b -> P.
Proof. by case: r => [a|e|m] //= H; apply: H. Qed.

Ltac run_ok :=
  repeat match goal with
  | |- bind _ _ = Ok _ -> _ => apply: bind_Ok_inv => ? _; cbv beta
  | |- (if _ then _ else _) = Ok _ -> _ => case: ifP => Hif
  | |- Panic _ = Ok _ -> _ => by []
  | |- Err _ = Ok _ -> _ => by []
  | |- context [rand_scalar ?r] => case: (rand_scalar r) => ? ?
  end.

(** Claim C7: the linear prover's masks [r_0, r_1], and the compressed
    prover's [r_0 .. r_3], are each one scalar repeated [N] times, for every
    random-number generator. *)
Theorem prover_masks_repeated (rng : Rng) (params : RingSignatureParams) (wit : seq F) :
  (forall s1, prove_round1 rand_scalar challenge_hash rng params wit = Ok s1 ->
     exists c0 c1, r1_r0 s1 = nseq (num_pub_inputs params) c0 /\
                   r1_r1 s1 = nseq (num_pub_inputs params) c1) /\
  (forall c, Compressed.prove_commitments rand_scalar rng params wit = Ok c ->
     exists c0 c1 c2 c3, Compressed.c_r0 c = nseq (num_pub_inputs params) c0 /\
                         Compressed.c_r1 c = nseq (num_pub_inputs params) c1 /\
                         Compressed.c_r2 c = nseq (num_pub_inputs params) c2 /\
                         Compressed.c_r3 c = nseq (num_pub_inputs params) c3).
Proof.
split.
  move=> s1; rewrite /prove_round1; run_ok.
  rewrite /Transcript.get_and_append_challenge /= => -[<-] /=.
  have HN : size (drop (size wit - num_pub_inputs params) wit) = num_pub_inputs params.
    by rewrite size_drop subKn // leqNgt Hif.
  by rewrite size_map HN; eauto.
move=> c; rewrite /Compressed.prove_commitments; run_ok.
move=> -[<-] /=.
have HN : size (drop (size wit - num_pub_inputs params) wit) = num_pub_inputs params.
  by rewrite size_drop subKn // leqNgt Hif.
by rewrite size_map HN; eauto 10.
Qed.

Variable sha256_digest : string -> string.

Lemma vec_add_inv {E : Type} (xs ys v : seq F) :
  (vec_add xs ys : result _ E) = Ok v -> size xs = size ys /\ v = [seq p.1 + p.2 | p <- zip xs ys].
Proof. by rewrite /vec_add; case: eqP => // H [<-]. Qed.

Lemma hadamard_inv {E : Type} (xs ys v : seq F) :
  (hadamard_product xs ys : result _ E) = Ok v ->
  size xs = size ys /\ v = [seq p.1 * p.2 | p <- zip xs ys].
Proof. by rewrite /hadamard_product; case: eqP => // H [<-]. Qed.

Lemma inner_product_inv {E : Type} (xs ys : seq F) (c : F) :
  (inner_product xs ys : result _ E) = Ok c -> size xs = size ys /\ c = IPARead.ip xs ys.
Proof. by rewrite /inner_product; case: eqP => // H [<-]. Qed.

Lemma nth_zip_map (f : F * F -> F) (xs ys : seq F) (i : nat) :
  size xs = size ys -> (i < size xs)%N -> [seq f p | p <- zip xs ys]`_i = f (xs`_i, ys`_i).
Proof.
move=> Hs Hi; have Hz : (i < size (zip xs ys))%N by rewrite size_zip -Hs minnn.
by rewrite (nth_map (0, 0) _ _ Hz) nth_zip.
Qed.

Ltac run_keep :=
  repeat match goal with
  | |- bind _ _ = Ok _ -> _ => apply: bind_Ok_inv => ? ?; cbv beta
  | |- (let (_, _) := ?p in _) = Ok _ -> _ => case: p => ? ?
  | |- Panic _ = Ok _ -> _ => by []
  | |- Err _ = Ok _ -> _ => by []
  end.

Lemma round1_shape (rng : Rng) (params : RingSignatureParams) (wit : seq F) s1 :
  prove_round1 rand_scalar challenge_hash rng params wit = Ok s1 ->
  size (r1_b0 s1) = num_pub_inputs params /\
  r1_b1 s1 = [seq 1 - b_i | b_i <- r1_b0 s1] /\
  size (r1_r0 s1) = num_pub_inputs params /\ size (r1_r1 s1) = num_pub_inputs params.
Proof.
rewrite /prove_round1; run_ok.
rewrite /Transcript.get_and_append_challenge /= => -[<-] /=.
have HN : size (drop (size wit - num_pub_inputs params) wit) = num_pub_inputs params.
  by rewrite size_drop subKn // leqNgt Hif.
by rewrite !size_nseq size_map HN.
Qed.

Lemma round3_shape (params : RingSignatureParams) s1 s3 :
  prove_round3 rand_scalar challenge_hash sha256_digest params s1 = Ok s3 ->
  r3_powers_yn s3 = generate_powers (r1_y s1) (num_pub_inputs params) /\
  r3_z1n s3 = nseq (num_pub_inputs params) (r1_z s1).
Proof.
rewrite /prove_round3; run_ok.
by rewrite /Transcript.get_and_append_challenge /= => -[<-].
Qed.

(** Claim C8: when the linear prover succeeds, its challenges are the
    transcript's [y, z, x] and its openings are
    [zeta_i = (b0_i + z + r0_i x) y^(i+1)], [eta_i = b1_i + z + r1_i x],
    [hat_t = <zeta, eta>], [taux = tau1 x + tau2 x^2] and [mu = alpha + beta x],
    with [b0, b1, r0, r1, alpha, beta, y, z] from the first round and
    [tau1, tau2, x] from the third. *)
Theorem prover_openings (rng : Rng) (params : RingSignatureParams) (wit : seq F)
  (proof : LinearRingSignature) :
  prove rand_scalar challenge_hash sha256_digest rng params wit = Ok proof ->
  exists s1 s3,
    prove_round1 rand_scalar challenge_hash rng params wit = Ok s1 /\
    prove_round3 rand_scalar challenge_hash sha256_digest params s1 = Ok s3 /\
    let N := num_pub_inputs params in
    let y := r1_y s1 in let z := r1_z s1 in let x := r3_x s3 in
    let op := openings proof in
    challenges proof = [:: y; z; x] /\
    zeta op = mkseq (fun i => ((r1_b0 s1)`_i + z + (r1_r0 s1)`_i * x) * y ^+ i.+1) N /\
    eta op = mkseq (fun i => (r1_b1 s1)`_i + z + (r1_r1 s1)`_i * x) N /\
    hat_t op = \sum_(i < N) (zeta op)`_i * (eta op)`_i /\
    taux op = r3_tau1 s3 * x + r3_tau2 s3 * x ^+ 2 /\
    mu op = r1_alpha s1 + r1_beta s1 * x.
Proof.
rewrite /prove; apply: bind_Ok_inv => s1 H1; apply: bind_Ok_inv => s3 H3.
exists s1, s3; do 2 split => //.
have [Hb0 [Hb1 [Hr0 Hr1]]] := round1_shape H1.
have [Hy Hz] := round3_shape H3.
move: H; rewrite /prove_round4.
apply: bind_Ok_inv => v1 Hv1; apply: bind_Ok_inv => w0 Hw0; apply: bind_Ok_inv => ze Hze.
apply: bind_Ok_inv => v2 Hv2; apply: bind_Ok_inv => et Het; apply: bind_Ok_inv => ht Hht.
apply: bind_Ok_inv => -[j sm] _ /=; apply: bind_Ok_inv => _ _ [<-] /=.
set N := num_pub_inputs params; set x := r3_x s3; set y := r1_y s1; set z := r1_z s1.
rewrite Hz Hy in Hv1 Hv2 Hze.
have [Sv1 Ev1] := vec_add_inv Hv1; have [Sw0 Ew0] := vec_add_inv Hw0.
have [Sze Eze] := hadamard_inv Hze; have [Sv2 Ev2] := vec_add_inv Hv2.
have [Se Eet] := vec_add_inv Het; have [Sht ->] := inner_product_inv Hht.
rewrite size_nseq /scalar_product size_map in Sv1 Sv2.
have Lv1 : size v1 = N by rewrite Ev1 size_map size_zip size_nseq size_map Hr0 minnn.
have Lv2 : size v2 = N by rewrite Ev2 size_map size_zip size_nseq size_map Hr1 minnn.
have Lw0 : size w0 = N by rewrite Ew0 size_map size_zip Hb0 Lv1 minnn.
have Lze : size ze = N by rewrite Eze size_map size_zip Lw0 size_generate_powers minnn.
have Let : size et = N by rewrite Eet size_map size_zip Hb1 size_map Hb0 Lv2 minnn.
split=> //; split.
  apply: (@eq_from_nth _ 0); rewrite ?size_mkseq //.
  move=> i Hi; rewrite Lze in Hi; rewrite nth_mkseq // Eze nth_zip_map ?Lw0 ?size_generate_powers //.
  rewrite nth_generate_powers // Ew0 nth_zip_map ?Hb0 ?Lv1 // Ev1 nth_zip_map;
    rewrite ?size_nseq ?size_map ?Hr0 //.
  by rewrite nth_nseq Hi (nth_map 0) ?Hr0 //= addrA.
split.
  apply: (@eq_from_nth _ 0); rewrite ?size_mkseq //.
  have Sb1 : size (r1_b1 s1) = N by rewrite Hb1 size_map Hb0.
  move=> i Hi; rewrite Let in Hi; rewrite nth_mkseq // Eet nth_zip_map ?Sb1 ?Lv2 //.
  rewrite Ev2 nth_zip_map ?size_nseq ?size_map ?Hr1 //.
  by rewrite nth_nseq Hi /scalar_product (nth_map 0) ?Hr1 //= addrA.
split; first by rewrite ip_sum // Lze.
by rewrite -mulrA -expr2.
Qed.

End RingProps.
End RingProps.

Module VerifyProps.
Section VerifyProps.
Context {F : fieldType} {V : lmodType F}.
Import Vec Linear Facts.

Variable challenge_hash : @Transcript.transcript F V -> string -> F.
Variable sha256_digest : string -> string.

Lemma outcome_bind {A B E : Type} (Pok : B -> Prop) (Perr : E -> Prop) (Ppan : string -> Prop)
  (r : result A E) (k : A -> result B E) :
  outcome (fun _ => True) Perr Ppan r -> (forall a, outcome Pok Perr Ppan (k a)) ->
  outcome Pok Perr Ppan (bind r k).
Proof. by case: r => [a|e|m] //= _; apply. Qed.

Section Prims.
Variables (Perr : SigmaErrors.t -> Prop) (Ppan : string -> Prop).

Lemma oc_index {A : Type} (x0 : A) (v : seq A) (i : nat) :
  Ppan "index out of bounds" -> outcome okT Perr Ppan (index x0 v i).
Proof. by rewrite /index; case: ifP. Qed.

Lemma oc_assert (b : bool) (msg : string) :
  Ppan msg -> outcome okT Perr Ppan (assert b msg).
Proof. by rewrite /assert; case: ifP. Qed.

Lemma oc_unwrap {A : Type} (o : option A) :
  Ppan "called `unwrap()` on an error value" -> outcome okT Perr Ppan (unwrap o).
Proof. by case: o. Qed.

Lemma oc_inverse (x : F) :
  Ppan "called `Option::unwrap()` on a `None` value" -> outcome okT Perr Ppan (inverse_unwrap x).
Proof. by rewrite /inverse_unwrap; case: ifP. Qed.

Lemma oc_inner_product (xs ys : seq F) :
  Ppan "Vectors must be of the same length" -> outcome okT Perr Ppan (inner_product xs ys).
Proof. by rewrite /inner_product; case: ifP. Qed.

Lemma oc_hadamard (xs ys : seq F) :
  Ppan "Vectors must be of the same length" -> outcome okT Perr Ppan (hadamard_product xs ys).
Proof. by rewrite /hadamard_product; case: ifP. Qed.

Lemma oc_commit (p : @Pedersen.PedersenParams F V) (m : seq F) (r : F) :
  (forall ce, Perr (SigmaErrors.CommitmentErrors ce)) ->
  Ppan "called `unwrap()` on an error value" ->
  outcome okT Perr Ppan (com_err (Pedersen.commit p m r)).
Proof.
move=> He Hp; rewrite /Pedersen.commit; case: ifP => _ /=; first exact: He.
by case: msm.
Qed.
End Prims.

Ltac in_list := rewrite /=; repeat first [left; reflexivity | right].

Ltac outc_step :=
  match goal with
  | |- outcome _ _ _ (bind _ _) =>
      apply: outcome_bind;
      [ first [ apply: oc_index | apply: oc_assert | apply: oc_unwrap | apply: oc_inverse
              | apply: oc_inner_product | apply: oc_hadamard
              | apply: oc_commit; [by eauto | ] ]; in_list
      | move=> ? ]
  | |- outcome _ _ _ (if _ then _ else _) => case: ifP => ?
  | |- outcome _ _ _ (let (_, _) := ?p in _) => case: p => ? ?
  | |- _ => progress (rewrite /Transcript.get_and_append_challenge; cbv zeta iota beta)
  end.

Lemma index_ok {A E : Type} (x0 : A) (v : seq A) (i : nat) :
  (i < size v)%N -> (index x0 v i : result A E) = Ok (nth x0 v i).
Proof. by rewrite /index => ->. Qed.

Lemma com_err_commit_ok (p : @Pedersen.PedersenParams F V) (m : seq F) (r : F) :
  size m = size (Pedersen.vec_g p) ->
  com_err (Pedersen.commit p m r)
  = Ok (r *: Pedersen.h p + IPARead.msum (Pedersen.vec_g p) m).
Proof. by move=> Hs; rewrite /Pedersen.commit Hs eqxx /= (msm_some (esym Hs)). Qed.

Lemma scale_loop_ok (gs : seq V) (powers : seq F) (i : nat) :
  (i + size gs <= size powers)%N ->
  Compressed.scale_loop gs powers i = Ok [seq p.1 *: p.2 | p <- zip (drop i powers) gs].
Proof.
elim: gs i => [|g gs IH] i Hs /=; first by case: (drop i powers).
have Hi : (i < size powers)%N by apply: leq_trans Hs; rewrite addnS ltnS leq_addr.
by rewrite (index_ok 0 Hi) /= IH ?addSn -?addnS // (drop_nth 0 Hi).
Qed.

Lemma compressed_digest_panic (params : RingSignatureParams) (proof : @Compressed.LogarithmicRingSignature F V) :
  (5 <= size (com_parameters params))%N -> (7 <= size (Compressed.commitments proof))%N ->
  (3 <= size (Compressed.challenges proof))%N -> (Compressed.challenges proof)`_0 != 0 ->
  (forall i, (i < 4)%N -> size (Pedersen.vec_g (nth no_params (com_parameters params) i)) = num_pub_inputs params) ->
  size (Pedersen.vec_g (nth no_params (com_parameters params) 4)) = 1%N ->
  size (vec_pk params) = (2 * num_pub_inputs params)%N ->
  sha256_digest (message params) <> Compressed.digest proof ->
  Compressed.verify challenge_hash sha256_digest params proof = Panic assert_eq_msg.
Proof.
move=> Hp Hc Hch Hy Hg Hk Hpk Hd.
have Hp' : forall i, (i < 5)%N -> (i < size (com_parameters params))%N
  by move=> i Hi; apply: leq_trans Hp.
have Hc' : forall i, (i < 7)%N -> (i < size (Compressed.commitments proof))%N
  by move=> i Hi; apply: leq_trans Hc.
have Hch' : forall i, (i < 3)%N -> (i < size (Compressed.challenges proof))%N
  by move=> i Hi; apply: leq_trans Hch.
have Hf : (sha256_digest (message params) =? Compressed.digest proof)%string = false
  by apply/String.eqb_neq.
rewrite /Compressed.verify !(@index_ok _ _ _ (com_parameters params)) ?Hp' //.
rewrite !(@index_ok _ _ _ (Compressed.commitments proof)) ?Hc' //.
rewrite !(@index_ok _ _ _ (Compressed.challenges proof)) ?Hch' //.
have Hg0 := Hg 0%N erefl; have Hg1 := Hg 1%N erefl; have Hg2 := Hg 2%N erefl; have Hg3 := Hg 3%N erefl.
cbv beta iota zeta delta [bind].
rewrite inner_product_ok ?size_nseq ?size_generate_powers //; cbv beta iota.
rewrite hadamard_ok ?size_cat ?size_nseq ?size_generate_powers ?mul2n ?addnn //; cbv beta iota.
rewrite inner_product_ok ?size_map ?size_zip ?size_cat ?size_nseq ?size_generate_powers
  ?mul2n ?addnn ?minnn //; cbv beta iota.
rewrite com_err_commit_ok ?size_nseq ?Hg1 //; cbv beta iota.
rewrite com_err_commit_ok ?size_nseq ?Hg0 //; cbv beta iota.
rewrite /inverse_unwrap (negbTE Hy); cbv beta iota.
rewrite scale_loop_ok ?add0n ?Hg0 ?size_generate_powers //; cbv beta iota.
rewrite scale_loop_ok ?add0n ?Hg2 ?size_generate_powers //; cbv beta iota.
rewrite vec_add_ok ?size_map ?size_nseq //; cbv beta iota.
rewrite vec_add_ok ?size_map ?size_nseq //; cbv beta iota.
rewrite com_err_commit_ok ?size_nseq ?Hg0 //; cbv beta iota.
rewrite com_err_commit_ok ?size_nseq ?Hg2 //; cbv beta iota.
rewrite com_err_commit_ok ?size_map ?size_zip ?size_nseq ?size_map ?size_nseq ?Hg1 ?minnn //; cbv beta iota.
rewrite com_err_commit_ok ?size_map ?size_zip ?size_nseq ?size_map ?size_nseq ?Hg3 ?minnn //; cbv beta iota.
rewrite com_err_commit_ok ?Hk //; cbv beta iota.
rewrite msm_some ?Hpk ?size_cat ?size_map ?size_generate_powers ?mul2n ?addnn //; cbv beta iota delta [unwrap].
rewrite /assert Hf.
by case: Transcript.get_and_append_challenge => _ t; case: Transcript.get_and_append_challenge.
Qed.
(** Claim C3: ring-signature verification does not collapse every failure
    into [InvalidProof]. The linear verifier's outcome is [Ok true],
    [Err (InvalidProof "invalid challenge value")], a commitment error, or a
    panic with one of the messages of [verify_panics]. When the message
    digest differs from the proof's digest, the linear verifier (with enough
    parameters and commitments) and the compressed verifier (on parameters
    shaped as its setup makes them) both panic on the [assert_eq!] instead of
    returning an error. *)
Theorem ring_verify_outcomes (params : RingSignatureParams) (proof : LinearRingSignature) :
  match verify challenge_hash sha256_digest params proof with
  | Ok b => b = true
  | Err e => e = SigmaErrors.InvalidProof "invalid challenge value" \/
             exists ce, e = SigmaErrors.CommitmentErrors ce
  | Panic m => List.In m verify_panics
  end /\
  ((3 <= size (com_parameters params))%N -> (5 <= size (commitments proof))%N ->
   sha256_digest (message params) <> digest proof ->
   verify challenge_hash sha256_digest params proof = Panic assert_eq_msg) /\
  (forall cproof : Compressed.LogarithmicRingSignature,
   (5 <= size (com_parameters params))%N -> (7 <= size (Compressed.commitments cproof))%N ->
   (3 <= size (Compressed.challenges cproof))%N -> (Compressed.challenges cproof)`_0 != 0 ->
   (forall i, (i < 4)%N ->
      size (Pedersen.vec_g (nth no_params (com_parameters params) i)) = num_pub_inputs params) ->
   size (Pedersen.vec_g (nth no_params (com_parameters params) 4)) = 1%N ->
   size (vec_pk params) = (2 * num_pub_inputs params)%N ->
   sha256_digest (message params) <> Compressed.digest cproof ->
   Compressed.verify challenge_hash sha256_digest params cproof = Panic assert_eq_msg).
Proof.
split; last split; last exact: compressed_digest_panic.
  change (outcome (fun b => b = true)
            (fun e => e = SigmaErrors.InvalidProof "invalid challenge value" \/
                      exists ce, e = SigmaErrors.CommitmentErrors ce)
            (fun m => List.In m verify_panics) (verify challenge_hash sha256_digest params proof)).
  by rewrite /verify; repeat outc_step; try by [left | ].
move=> Hp Hc Hd.
have Hp' : forall i, (i < 3)%N -> (i < size (com_parameters params))%N
  by move=> i Hi; apply: leq_trans Hp.
have Hc' : forall i, (i < 5)%N -> (i < size (commitments proof))%N
  by move=> i Hi; apply: leq_trans Hc.
have Hf : (sha256_digest (message params) =? digest proof)%string = false
  by apply/String.eqb_neq.
rewrite /verify !(@index_ok _ _ _ (com_parameters params)) ?Hp' //.
rewrite !(@index_ok _ _ _ (commitments proof)) ?Hc' //= Hf.
by [].
Qed.
End VerifyProps.
End VerifyProps.
Module IPAProps.
Section ZmodPerm.
Variable M : zmodType.
#[local] Instance aac_addM_A : Associative eq (@GRing.add M) := @addrA M.
#[local] Instance aac_addM_C : Commutative eq (@GRing.add M) := @addrC M.

Lemma perm12 (a1 a2 a3 a4 a5 a6 b1 b2 b3 c1 c2 c3 : M) :
  (a1 + b1) + (c1 + a2) + ((a3 + c2) + (b2 + a4)) + ((a5 + c3) + (b3 + a6)) =
  a1 + a2 + (a3 + a4) + (a5 + a6) + (c1 + (c2 + c3)) + (b1 + (b2 + b3)).
Proof. aac_reflexivity. Qed.

Lemma perm5 (x y z p q : M) : x + (y + (z + (- p + - q))) = y + z + x - q - p.
Proof. by rewrite [y + z + x]addrC -!addrA [- p + - q]addrC. Qed.
End ZmodPerm.

Section Alg.
Context {F : fieldType} {V : lmodType F}.
Import Vec IPA IPARead Facts.

Lemma size_fold_sc (c1 c2 : F) (l r : seq F) :
  size l = size r -> size (fold_sc c1 c2 l r) = size l.
Proof. by move=> H; rewrite size_map size_zip_eq. Qed.

Lemma size_fold_pt (c1 c2 : F) (l r : seq V) :
  size l = size r -> size (fold_pt c1 c2 l r) = size l.
Proof. by move=> H; rewrite size_map size_zip_eq. Qed.

Lemma msum_fold_pt (c1 c2 : F) (l r : seq V) (s : seq F) :
  size l = size r -> msum (fold_pt c1 c2 l r) s = c1 *: msum l s + c2 *: msum r s.
Proof.
elim: l r s => [|p l IH] [|q r] [|c s] //= Hs; rewrite ?msum_nil_l ?msum_nil_r ?scaler0 ?addr0 //.
rewrite /fold_pt /= -/(fold_pt c1 c2 l r) !msum_cons (IH r s (succn_inj Hs)).
by rewrite !scalerDr !scalerA [c * c1]mulrC [c * c2]mulrC addrACA.
Qed.

Lemma msum_fold_sc (d1 d2 : F) (g : seq V) (p q : seq F) :
  size p = size q -> msum g (fold_sc d1 d2 p q) = d1 *: msum g p + d2 *: msum g q.
Proof.
elim: p q g => [|x p IH] [|y q] [|G g] //= Hs; rewrite ?msum_nil_l ?msum_nil_r ?scaler0 ?addr0 //.
rewrite /fold_sc /= -/(fold_sc d1 d2 p q) !msum_cons (IH q g (succn_inj Hs)).
by rewrite !scalerDr !scalerA scalerDl [x * d1]mulrC [y * d2]mulrC addrACA.
Qed.

Lemma ip_fold_sc_l (d1 d2 : F) (p q w : seq F) :
  size p = size q -> ip (fold_sc d1 d2 p q) w = d1 * ip p w + d2 * ip q w.
Proof.
elim: p q w => [|x p IH] [|y q] [|z w] Hs //; rewrite ?ip_nil_l ?ip_nil_r ?mulr0 ?addr0 //.
have -> : fold_sc d1 d2 (x :: p) (y :: q) = (x * d1 + y * d2) :: fold_sc d1 d2 p q by [].
rewrite !ip_cons (IH q w (succn_inj Hs)).
by rewrite mulrDl !mulrDr !mulrA [x * d1]mulrC [y * d2]mulrC addrACA.
Qed.

Lemma ip_nil_r (xs : seq F) : ip xs [::] = 0.
Proof. by rewrite /ip; case: xs. Qed.

Lemma ip_fold_sc_r (e1 e2 : F) (w p q : seq F) :
  size p = size q -> ip w (fold_sc e1 e2 p q) = e1 * ip w p + e2 * ip w q.
Proof.
elim: p q w => [|x p IH] [|y q] [|z w] Hs //; rewrite ?ip_nil_l ?ip_nil_r ?mulr0 ?addr0 //.
have -> : fold_sc e1 e2 (x :: p) (y :: q) = (x * e1 + y * e2) :: fold_sc e1 e2 p q by [].
rewrite !ip_cons (IH q w (succn_inj Hs)).
by rewrite !mulrDr [e1 * (z * x)]mulrC [e2 * (z * y)]mulrC !mulrA addrACA.
Qed.

Lemma msum_scale (f : seq F) (G : seq V) (s : seq F) :
  msum (scale f G) s = msum G [seq p.1 * p.2 | p <- zip s f].
Proof.
elim: f G s => [|c f IH] [|p G] [|x s] //=; rewrite ?msum_nil_l ?msum_nil_r //.
by rewrite /scale /= -/(scale f G) !msum_cons IH scalerA.
Qed.

End Alg.
Section Box.
Context {F : fieldType}.
Import IPA IPARead.

Lemma bit_length0 (w : nat) : bit_length w 0 = 0%N.
Proof. by case: w. Qed.

Lemma bit_length_pow (w i j : nat) : (j < w)%N -> (2 ^ j <= i < 2 ^ j.+1)%N ->
  bit_length w i = j.+1.
Proof.
elim: w i j => [|w IH] i j //= Hj /andP [Hlo Hhi].
have -> : (i == 0%N) = false by apply/negbTE; rewrite -lt0n (leq_trans _ Hlo) ?expn_gt0.
congr S; case: j Hj Hlo Hhi => [|j] Hj Hlo Hhi.
  have -> : i = 1%N by apply/eqP; rewrite eqn_leq -ltnS Hhi Hlo.
  exact: bit_length0.
rewrite -divn2; apply: IH => //; apply/andP; split.
  by rewrite leq_divRL // -expnSr.
by rewrite ltn_divLR // -expnSr.
Qed.

Lemma log_i_eq (i j : nat) : (j < 32)%N -> (2 ^ j <= i < 2 ^ j.+1)%N ->
  (32 - 1 - leading_zeros_u32 i)%N = j.
Proof.
move=> Hj Hi; rewrite /leading_zeros_u32 (bit_length_pow Hj Hi).
by rewrite subn1 /= subKn // -ltnS.
Qed.

Lemma size_box_rec (xs : seq F) : size (box_rec xs) = (2 ^ size xs)%N.
Proof. by elim: xs => [|x xs IH] //=; rewrite size_cat !size_map IH expnS mul2n addnn. Qed.

Lemma box_rec_step (xs : seq F) (i j : nat) : all (fun x => x != 0) xs ->
  (j < size xs)%N -> (2 ^ j <= i < 2 ^ j.+1)%N ->
  (box_rec xs)`_i = (box_rec xs)`_(i - 2 ^ j) * (xs`_(size xs - 1 - j) * xs`_(size xs - 1 - j)).
Proof.
elim: xs i j => [|x X IH] i j //= /andP [Hx HX] Hj /andP [Hlo Hhi].
have SB := size_box_rec X.
have Hpos : (0 < 2 ^ j)%N by rewrite expn_gt0.
rewrite subn1 /= !nth_cat !size_map SB.
case: (ltngtP j (size X)) Hj => [Hlt _ | Hgt Hj' | Heq _].
- have Hi : (i < 2 ^ size X)%N by rewrite (leq_trans Hhi) // leq_exp2l.
  have Hi' : (i - 2 ^ j < 2 ^ size X)%N by rewrite (leq_ltn_trans (leq_subr _ _) Hi).
  rewrite Hi Hi' !(nth_map 0) ?SB // (IH i j HX Hlt (introT andP (conj Hlo Hhi))).
  have -> : (size X - j)%N = (size X - 1 - j).+1 by rewrite -subnDA add1n subnSK.
  by rewrite /= mulrA.
- by move: Hj'; rewrite ltnS leqNgt Hgt.
- subst j; rewrite ltnNge Hlo /=.
  have Hi' : (i - 2 ^ size X < 2 ^ size X)%N by rewrite ltn_subLR // addnn -mul2n -expnS.
  rewrite Hi' !(nth_map 0) ?SB // subnn /=.
  rewrite mulrC -mulrA [_ * (x * x)]mulrC mulrA mulrA mulVf // mul1r mulrC.
  done.
Qed.

Lemma all_inv_box (xs : seq F) : all_inv xs = (box_rec xs)`_0.
Proof.
have H : forall (c : F) X, foldl (fun acc y => acc * y^-1) c X = c * (box_rec X)`_0.
  move=> c X; elim: X c => [|x X IH] c /=; first by rewrite mulr1.
  have SB : (0 < size (box_rec X))%N by rewrite size_box_rec expn_gt0.
  by rewrite IH nth_cat size_map SB (nth_map 0) // mulrA.
by rewrite /all_inv H mul1r.
Qed.

Lemma box_loop_rec (xs : seq F) (i fuel : nat) : all (fun x => x != 0) xs ->
  (size xs < 32)%N -> (0 < i)%N -> (i + fuel)%N = (2 ^ size xs)%N ->
  box_loop [seq x * x | x <- xs] (size xs) i fuel (take i (box_rec xs)) = box_rec xs.
Proof.
move=> Hnz Hk; elim: fuel i => [|fuel IH] i Hi Hf.
  by rewrite addn0 in Hf; rewrite /= Hf -size_box_rec take_size.
set j := trunc_log 2 i.
have Hlo : (2 ^ j <= i)%N by apply: trunc_logP.
have Hhi : (i < 2 ^ j.+1)%N by apply: trunc_log_ltn.
have Hik : (i < 2 ^ size xs)%N by rewrite -Hf addnS ltnS leq_addr.
have Hjk : (j < size xs)%N by rewrite -(@ltn_exp2l 2) // (leq_ltn_trans Hlo Hik).
have Hpos : (0 < 2 ^ j)%N by rewrite expn_gt0.
rewrite /= (@log_i_eq i j (ltn_trans Hjk Hk)) ?Hlo ?Hhi //.
have Hm : (size xs - 1 - j < size xs)%N.
  by rewrite -subnDA add1n ltn_subrL andTb (leq_ltn_trans _ Hjk).
rewrite nth_take ?ltn_subrL ?Hpos ?Hi // (nth_map 0) //.
rewrite -box_rec_step ?Hlo ?Hhi // -take_nth ?size_box_rec //.
by apply: IH; rewrite ?addSnnS.
Qed.

End Box.

Section Rounds.
Context {F : fieldType} {V : lmodType F}.
Import Vec Transcript IPA IPARead Facts.

Variable challenge_hash : @transcript F V -> string -> F.
Hypothesis Hnz : forall t l, challenge_hash t l != 0.
Variable u : V.

Local Notation round := (IPARead.round challenge_hash u).
Local Notation rounds := (IPARead.rounds challenge_hash u).

Lemma half_pow (k : nat) : (2 ^ k.+1 %/ 2 = 2 ^ k)%N.
Proof. by rewrite expnS mulKn. Qed.

Lemma size_take_half {A : Type} (k : nat) (l : seq A) :
  size l = (2 ^ k.+1)%N -> size (take (2 ^ k) l) = (2 ^ k)%N /\ size (drop (2 ^ k) l) = (2 ^ k)%N.
Proof.
move=> H; rewrite size_take size_drop H expnS mul2n -addnn addnK.
by rewrite -{1}(addn0 (2 ^ k)%N) ltn_add2l expn_gt0.
Qed.

Lemma msum_split (m : nat) (G : seq V) (a : seq F) :
  size (take m G) = size (take m a) ->
  msum G a = msum (take m G) (take m a) + msum (drop m G) (drop m a).
Proof. by move=> H; rewrite -{1}(cat_take_drop m G) -{1}(cat_take_drop m a) msum_cat. Qed.

Lemma ip_split (m : nat) (a b : seq F) :
  size (take m a) = size (take m b) ->
  ip a b = ip (take m a) (take m b) + ip (drop m a) (drop m b).
Proof. by move=> H; rewrite -{1}(cat_take_drop m a) -{1}(cat_take_drop m b) ip_cat. Qed.

Lemma round_algebra (A B C D E G H I : V) (p q r t x y : F) :
  A + y *: B + (x *: C + D) + (E + x *: G + (y *: H + I)) +
    (p *: u + (x * q) *: u + ((y * r) *: u + t *: u)) =
  A + D + (E + I) + (p *: u + t *: u) + (x *: C + (x *: G + (x * q) *: u)) +
    (y *: B + (y *: H + (y * r) *: u)).
Proof. exact: perm12. Qed.

Lemma round_shaped (k : nat) (s : @state F V) : shaped k.+1 s -> shaped k (round s).
Proof.
case=> [Hn [Ha [Hb [HG HH]]]]; rewrite /shaped /round /= Hn half_pow.
case: (size_take_half Ha) => Ha1 Ha2; case: (size_take_half Hb) => Hb1 Hb2.
case: (size_take_half HG) => HG1 HG2; case: (size_take_half HH) => HH1 HH2.
by rewrite !size_fold_sc ?size_fold_pt ?Ha1 ?Ha2 ?Hb1 ?Hb2 ?HG1 ?HG2 ?HH1 ?HH2.
Qed.

Lemma Pval_round (k : nat) (s : @state F V) : shaped k.+1 s ->
  let x := challenge_hash (append_serializable_element (st_t s) "commitments L, R"
                             [:: cross_L u s; cross_R u s]) "challenge" in
  Pval u (round s) = Pval u s + (x * x) *: cross_L u s + (x^-1 * x^-1) *: cross_R u s.
Proof.
case=> [Hn [Ha [Hb [HG HH]]]] x.
have Hx : x != 0 := Hnz _ _.
case: (size_take_half Ha) => Ha1 Ha2; case: (size_take_half Hb) => Hb1 Hb2.
case: (size_take_half HG) => HG1 HG2; case: (size_take_half HH) => HH1 HH2.
have Es : Pval u s =
  msum (take (2 ^ k) (st_G s)) (take (2 ^ k) (st_a s)) + msum (drop (2 ^ k) (st_G s)) (drop (2 ^ k) (st_a s))
  + (msum (take (2 ^ k) (st_H s)) (take (2 ^ k) (st_b s)) + msum (drop (2 ^ k) (st_H s)) (drop (2 ^ k) (st_b s)))
  + (ip (take (2 ^ k) (st_a s)) (take (2 ^ k) (st_b s)) + ip (drop (2 ^ k) (st_a s)) (drop (2 ^ k) (st_b s))) *: u.
  by rewrite /Pval (@msum_split (2 ^ k)%N (st_G s)) ?HG1 ?Ha1 // (@msum_split (2 ^ k)%N (st_H s)) ?HH1 ?Hb1 // (@ip_split (2 ^ k)%N) ?Ha1 ?Hb1.
rewrite Es /cross_L /cross_R /Pval /round /= Hn half_pow -/x.
rewrite !msum_cat ?HG2 ?HH1 ?Ha1 ?Hb2 ?HG1 ?HH2 ?Ha2 ?Hb1 // !msum_cons !msum_nil_l !addr0.
have eG : size (take (2 ^ k) (st_G s)) = size (drop (2 ^ k) (st_G s)) by rewrite HG1 HG2.
have eH : size (take (2 ^ k) (st_H s)) = size (drop (2 ^ k) (st_H s)) by rewrite HH1 HH2.
have ea : size (take (2 ^ k) (st_a s)) = size (drop (2 ^ k) (st_a s)) by rewrite Ha1 Ha2.
have eb : size (take (2 ^ k) (st_b s)) = size (drop (2 ^ k) (st_b s)) by rewrite Hb1 Hb2.
rewrite !(@msum_fold_pt _ _ _ _ _ _ _ eG) !(@msum_fold_pt _ _ _ _ _ _ _ eH).
rewrite !(@msum_fold_sc _ _ _ _ _ _ _ ea) !(@msum_fold_sc _ _ _ _ _ _ _ eb).
rewrite !(@ip_fold_sc_l _ _ _ _ _ _ ea) !(@ip_fold_sc_r _ _ _ _ _ _ eb).
rewrite !(scalerDr, scalerDl, scalerA, mulrDr, mulrDl, mulrA).
rewrite mulVf // mulfV // !mul1r !scale1r.
exact: round_algebra.
Qed.

Lemma round_st (s : @state F V) :
  let x := challenge_hash (append_serializable_element (st_t s) "commitments L, R"
                             [:: cross_L u s; cross_R u s]) "challenge" in
  [/\ st_L (round s) = rcons (st_L s) (cross_L u s),
      st_R (round s) = rcons (st_R s) (cross_R u s),
      st_x (round s) = rcons (st_x s) x &
      st_t (round s) = rcons (append_serializable_element (st_t s) "commitments L, R"
                             [:: cross_L u s; cross_R u s]) (Challenge "challenge" x)].
Proof. by []. Qed.

Lemma rounds_shaped (k j : nat) (s : @state F V) : (j <= k)%N -> shaped k s ->
  [/\ shaped (k - j) (rounds j s),
      size (st_L (rounds j s)) = (size (st_L s) + j)%N,
      size (st_R (rounds j s)) = (size (st_R s) + j)%N &
      size (st_x (rounds j s)) = (size (st_x s) + j)%N].
Proof.
move=> + Hs; elim: j => [|j IH] Hj; first by rewrite subn0 !addn0.
case: (IH (ltnW Hj)) => Hsh HL HR Hx.
rewrite /rounds iterS -/(IPARead.rounds challenge_hash u j s).
case: (round_st (rounds j s)) => -> -> -> _.
rewrite !size_rcons HL HR Hx !addnS; split => //.
by apply: round_shaped; rewrite subnSK.
Qed.

Lemma Pval_rounds (k j : nat) (s : @state F V) : (j <= k)%N -> shaped k s ->
  st_L s = [::] -> st_R s = [::] -> st_x s = [::] ->
  Pval u (rounds j s) =
    Pval u s + msum (st_L (rounds j s)) [seq x * x | x <- st_x (rounds j s)]
             + msum (st_R (rounds j s)) [seq x^-1 * x^-1 | x <- st_x (rounds j s)].
Proof.
move=> + Hs HL0 HR0 Hx0; elim: j => [|j IH] Hj.
  by rewrite /rounds /= HL0 HR0 !msum_nil_l !addr0.
case: (rounds_shaped (ltnW Hj) Hs) => Hsh HL HR Hx.
rewrite HL0 HR0 Hx0 /= in HL HR Hx.
rewrite /rounds iterS -/(IPARead.rounds challenge_hash u j s).
have Hsh' : shaped (k - j.+1).+1 (rounds j s) by rewrite subnSK.
rewrite (Pval_round Hsh').
rewrite IH ?(ltnW Hj) //.
case: (round_st (rounds j s)) => -> -> -> _.
rewrite !map_rcons !msum_rcons ?size_map ?HL ?HR ?Hx //.
by rewrite -!addrA; congr (_ + (_ + (_ + (_ + _)))); exact: addrCA.
Qed.

Lemma replay_rcons (t : @transcript F V) (Ls Rs : seq V) (L R : V) :
  size Ls = size Rs ->
  replay challenge_hash t (rcons Ls L) (rcons Rs R) =
    let t1 := append_serializable_element (replay challenge_hash t Ls Rs).1
                "commitments L, R" [:: L; R] in
    let x := challenge_hash t1 "challenge" in
    (rcons t1 (Challenge "challenge" x), rcons (replay challenge_hash t Ls Rs).2 x).
Proof.
elim: Ls Rs t => [|L' Ls IH] [|R' Rs] t //= Hs.
by rewrite (IH Rs _ (succn_inj Hs)); case: (replay _ _ _ _).
Qed.

Lemma replay_rounds (k j : nat) (s : @state F V) : (j <= k)%N -> shaped k s ->
  st_L s = [::] -> st_R s = [::] -> st_x s = [::] ->
  replay challenge_hash (st_t s) (st_L (rounds j s)) (st_R (rounds j s)) =
    (st_t (rounds j s), st_x (rounds j s)).
Proof.
move=> + Hs HL0 HR0 Hx0; elim: j => [|j IH] Hj.
  by rewrite /rounds /= HL0 HR0 Hx0.
case: (rounds_shaped (ltnW Hj) Hs) => Hsh HL HR Hx.
rewrite HL0 HR0 /= in HL HR.
rewrite /rounds iterS -/(IPARead.rounds challenge_hash u j s).
case: (round_st (rounds j s)) => -> -> -> ->.
by rewrite replay_rcons ?HL ?HR // IH ?(ltnW Hj).
Qed.

Lemma rounds_x (j : nat) (s : @state F V) : exists X, st_x (rounds j s) = st_x s ++ X.
Proof.
elim: j => [|j [X HX]]; first by exists [::]; rewrite cats0.
exists (rcons X (challenge_hash (append_serializable_element (st_t (rounds j s))
          "commitments L, R" [:: cross_L u (rounds j s); cross_R u (rounds j s)]) "challenge")).
rewrite /rounds iterS -/(IPARead.rounds challenge_hash u j s).
by case: (round_st (rounds j s)) => _ _ -> _; rewrite HX rcons_cat.
Qed.

Lemma rounds_GH (k : nat) (s : @state F V) : shaped k s ->
  let B := box_rec (drop (size (st_x s)) (st_x (rounds k s))) in
  st_G (rounds k s) = [:: msum (st_G s) B] /\ st_H (rounds k s) = [:: msum (st_H s) (rev B)].
Proof.
elim: k s => [|k IH] s Hs B.
  case: Hs => _ [_ [_ [HG HH]]].
  rewrite /B /rounds /= drop_size /=.
  case: (st_G s) HG => [|g [|? ?]] // _; case: (st_H s) HH => [|h [|? ?]] // _.
  by rewrite /msum /=; split; congr [:: _]; rewrite scale1r addr0.
have Hs' := round_shaped Hs.
case: (IH _ Hs') => HG' HH'.
case: (rounds_x k (round s)) => X HX.
case: (rounds_shaped (leqnn k) Hs') => _ _ _; rewrite HX size_cat => /eqP; rewrite eqn_add2l => /eqP HXk.
case: (round_st s) => _ _ Hx _.
have EB : B = [seq (challenge_hash (append_serializable_element (st_t s) "commitments L, R"
            [:: cross_L u s; cross_R u s]) "challenge")^-1 * c | c <- box_rec X] ++
          [seq challenge_hash (append_serializable_element (st_t s) "commitments L, R"
            [:: cross_L u s; cross_R u s]) "challenge" * c | c <- box_rec X].
  by rewrite /B /rounds iterSr -/(IPARead.rounds challenge_hash u k (round s)) HX Hx -cats1 -catA drop_size_cat.
rewrite /rounds iterSr -/(IPARead.rounds challenge_hash u k (round s)) HG' HH' HX Hx.
rewrite -cats1 drop_size_cat // EB.
case: Hs => Hn [_ [_ [HG HH]]].
case: (size_take_half HG) => HG1 HG2; case: (size_take_half HH) => HH1 HH2.
have SB : size (box_rec X) = (2 ^ k)%N by rewrite size_box_rec HXk.
rewrite /round /= Hn half_pow rev_cat -!map_rev.
rewrite !msum_fold_pt ?HG1 ?HG2 ?HH1 ?HH2 //.
rewrite -{3}(cat_take_drop (2 ^ k) (st_G s)) -{3}(cat_take_drop (2 ^ k) (st_H s)).
by rewrite !msum_cat ?size_map ?size_rev ?HG1 ?HH1 ?SB // !msumZ.
Qed.

End Rounds.
Section Steps.
Context {F : fieldType} {V : lmodType F}.
Import Vec Transcript IPA IPARead Facts.

Variable challenge_hash : @transcript F V -> string -> F.
Hypothesis Hnz : forall t l, challenge_hash t l != 0.

Lemma index_ok' {A E : Type} (x0 : A) (v : seq A) (i : nat) :
  (i < size v)%N -> (index x0 v i : result A E) = Ok (nth x0 v i).
Proof. by rewrite /index => ->. Qed.

Lemma vec_split_ok {A E : Type} (v : seq A) (n : nat) :
  (n <= size v)%N -> (vec_split v n : result _ E) = Ok (take n v, drop n v).
Proof. by rewrite /vec_split => ->. Qed.

Lemma slice_ok {A E : Type} (v : seq A) (lo hi : nat) :
  (lo <= hi)%N -> (hi <= size v)%N -> (slice v lo hi : result _ E) = Ok (take (hi - lo) (drop lo v)).
Proof. by rewrite /slice => -> ->. Qed.

Lemma inverse_ok {E : Type} (x : F) : x != 0 -> (inverse_unwrap x : result F E) = Ok x^-1.
Proof. by rewrite /inverse_unwrap => /negbTE ->. Qed.

Lemma mapM_ok {A : eqType} {B E : Type} (f : A -> result B E) (g : A -> B) (l : seq A) :
  (forall i, i \in l -> f i = Ok (g i)) -> mapM f l = Ok (map g l).
Proof.
elim: l => [|y l IH] //= H.
by rewrite H ?mem_head // IH // => i Hi; apply: H; rewrite in_cons Hi orbT.
Qed.

Lemma fold_sc_eq (c1 c2 : F) (l r : seq F) :
  [seq p.1 + p.2 | p <- zip (scalar_product l c1) (scalar_product r c2)] = fold_sc c1 c2 l r.
Proof. by rewrite /scalar_product map_zip_map -map_comp. Qed.

Lemma fold_pt_iota (c1 c2 : F) (l r : seq V) : size l = size r ->
  [seq c1 *: l`_i + (c2 *: r`_i + 0) | i <- iota 0 (size l)] = fold_pt c1 c2 l r.
Proof.
move=> Hs; apply: (@eq_from_nth _ 0); first by rewrite size_map size_iota size_fold_pt.
move=> i; rewrite size_map size_iota => Hi.
rewrite (nth_map 0) ?size_iota // nth_iota // add0n.
by rewrite /fold_pt (nth_map (0, 0)) ?size_zip_eq // nth_zip //= addr0.
Qed.

Lemma fold_pt_iota_fst (m : nat) (c1 c2 d1 d2 : F) (l r l' r' : seq V) :
  size l = m -> size r = m ->
  [seq p.1 | p <- [seq (c1 *: l`_i + (c2 *: r`_i + 0), d1 *: l'`_i + (d2 *: r'`_i + 0))
                  | i <- iota 0 m]] = fold_pt c1 c2 l r.
Proof. by move=> <- Hs; rewrite -map_comp -fold_pt_iota. Qed.

Lemma fold_pt_iota_snd (m : nat) (c1 c2 d1 d2 : F) (l r l' r' : seq V) :
  size l' = m -> size r' = m ->
  [seq p.2 | p <- [seq (c1 *: l`_i + (c2 *: r`_i + 0), d1 *: l'`_i + (d2 *: r'`_i + 0))
                  | i <- iota 0 m]] = fold_pt d1 d2 l' r'.
Proof. by move=> <- Hs; rewrite -map_comp -fold_pt_iota. Qed.

Lemma loop_step_ok (params : @InnerProductParam F V) (k : nat) (s : @state F V) :
  shaped k.+1 s ->
  loop_step challenge_hash params s = Ok (round challenge_hash (u params) s).
Proof.
case=> Hn [Ha [Hb [HG HH]]].
case: (size_take_half Ha) => Ha1 Ha2; case: (size_take_half Hb) => Hb1 Hb2.
case: (size_take_half HG) => HG1 HG2; case: (size_take_half HH) => HH1 HH2.
have Hm : forall (A : Type) (l : seq A), size l = (2 ^ k.+1)%N -> (2 ^ k <= size l)%N.
  by move=> A l ->; rewrite leq_exp2l.
rewrite /loop_step /round /cross_L /cross_R Hn half_pow !vec_split_ok ?Hm //=.
rewrite !inner_product_ok ?Ha1 ?Hb2 ?Ha2 ?Hb1 //=.
rewrite !msm_some ?size_cat ?HG2 ?HH1 ?Ha1 ?Hb2 ?HG1 ?HH2 ?Ha2 ?Hb1 //=.
set x := challenge_hash _ _.
rewrite inverse_ok ?Hnz //= !vec_add_ok ?size_map ?Ha1 ?Ha2 ?Hb1 ?Hb2 //= !fold_sc_eq.
rewrite (mapM_ok (g := fun i => (x^-1 *: (take (2 ^ k) (st_G s))`_i + (x *: (drop (2 ^ k) (st_G s))`_i + 0),
                                 x *: (take (2 ^ k) (st_H s))`_i + (x^-1 *: (drop (2 ^ k) (st_H s))`_i + 0)))).
  move=> i; rewrite mem_iota add0n => /andP [_ Hi].
  by rewrite !index_ok' ?HG1 ?HG2 ?HH1 ?HH2.
by rewrite /= fold_pt_iota_fst // fold_pt_iota_snd.
Qed.

Lemma take_scale (m : nat) (f : seq F) (G : seq V) :
  take m (scale f G) = scale (take m f) (take m G).
Proof. by elim: f G m => [|c f IH] [|g G] [|m] //=; rewrite /scale /= -/(scale _ _) IH. Qed.

Lemma drop_scale (m : nat) (f : seq F) (G : seq V) :
  drop m (scale f G) = scale (drop m f) (drop m G).
Proof.
elim: f G m => [|c f IH] [|g G] [|m] //=; try by case: (drop _ _).
exact: IH.
Qed.

Lemma size_scale (f : seq F) (G : seq V) : size f = size G -> size (scale f G) = size f.
Proof. by move=> H; rewrite size_map size_zip_eq. Qed.

Lemma fold_pt_scale (m : nat) (c1 c2 : F) (fl fr : seq F) (l r : seq V) :
  size fl = m -> size fr = m -> size l = m -> size r = m ->
  [seq (c1 * fl`_i) *: l`_i + ((c2 * fr`_i) *: r`_i + 0) | i <- iota 0 m] =
  fold_pt c1 c2 (scale fl l) (scale fr r).
Proof.
move=> H1 H2 H3 H4.
rewrite -fold_pt_iota ?size_scale ?H1 ?H2 ?H3 ?H4 //.
apply/eq_in_map => i; rewrite mem_iota add0n => /andP [_ Hi].
rewrite /scale !(nth_map (0, 0)) ?size_zip_eq ?H1 ?H2 ?H3 ?H4 // !nth_zip ?H1 ?H2 ?H3 ?H4 //=.
by rewrite !scalerA.
Qed.

Lemma fold_pt_scale_fst (m : nat) (c1 c2 d1 d2 : F) (fl fr fl' fr' : seq F) (l r l' r' : seq V) :
  size fl = m -> size fr = m -> size l = m -> size r = m ->
  [seq p.1 | p <- [seq ((c1 * fl`_i) *: l`_i + ((c2 * fr`_i) *: r`_i + 0),
                        (d1 * fl'`_i) *: l'`_i + ((d2 * fr'`_i) *: r'`_i + 0)) | i <- iota 0 m]] =
  fold_pt c1 c2 (scale fl l) (scale fr r).
Proof. by move=> *; rewrite -map_comp -(@fold_pt_scale m). Qed.

Lemma fold_pt_scale_snd (m : nat) (c1 c2 d1 d2 : F) (fl fr fl' fr' : seq F) (l r l' r' : seq V) :
  size fl' = m -> size fr' = m -> size l' = m -> size r' = m ->
  [seq p.2 | p <- [seq ((c1 * fl`_i) *: l`_i + ((c2 * fr`_i) *: r`_i + 0),
                        (d1 * fl'`_i) *: l'`_i + ((d2 * fr'`_i) *: r'`_i + 0)) | i <- iota 0 m]] =
  fold_pt d1 d2 (scale fl' l') (scale fr' r').
Proof. by move=> *; rewrite -map_comp -(@fold_pt_scale m). Qed.

Lemma base_step_ok (params : @InnerProductParam F V) (k : nat) (s : @state F V) :
  shaped k.+1 s -> size (factors_G params) = (2 ^ k.+1)%N -> size (factors_H params) = (2 ^ k.+1)%N ->
  base_step challenge_hash params s = Ok (round challenge_hash (u params) (scaled params s)).
Proof.
case=> Hn [Ha [Hb [HG HH]]] HfG HfH.
case: (size_take_half Ha) => Ha1 Ha2; case: (size_take_half Hb) => Hb1 Hb2.
case: (size_take_half HG) => HG1 HG2; case: (size_take_half HH) => HH1 HH2.
case: (size_take_half HfG) => Hf1 Hf2; case: (size_take_half HfH) => Hh1 Hh2.
have Hm : forall (A : Type) (l : seq A), size l = (2 ^ k.+1)%N -> (2 ^ k <= size l)%N.
  by move=> A l ->; rewrite leq_exp2l.
have H2m : (2 * 2 ^ k = 2 ^ k.+1)%N by rewrite expnS.
rewrite /base_step /round /cross_L /cross_R /scaled /= Hn half_pow !vec_split_ok ?Hm //=.
rewrite !inner_product_ok ?Ha1 ?Hb2 ?Ha2 ?Hb1 //=.
have Hkk : (2 ^ k <= 2 ^ k.+1)%N by rewrite leq_exp2l.
have Hsub : (2 ^ k.+1 - 2 ^ k = 2 ^ k)%N by rewrite expnS mul2n -addnn addnK.
rewrite !slice_ok ?H2m ?HfG ?HfH ?Hkk //= Hsub subn0 !drop0.
rewrite (take_oversize (n := 2 ^ k) (s := drop _ (factors_G params))) ?Hf2 //.
rewrite (take_oversize (n := 2 ^ k) (s := drop _ (factors_H params))) ?Hh2 //.
rewrite !hadamard_ok ?Ha1 ?Ha2 ?Hb1 ?Hb2 ?Hf1 ?Hf2 ?Hh1 ?Hh2 //=.
rewrite !msm_some ?size_cat ?size_map ?size_zip_eq ?HG2 ?HH1 ?Ha1 ?Hb2 ?HG1 ?HH2 ?Ha2 ?Hb1 ?Hf1 ?Hf2 ?Hh1 ?Hh2 //=.
have Esc : forall (f1 a1 f2 a2 : seq F) (G1 G2 : seq V),
    size f1 = (2 ^ k)%N -> size a1 = (2 ^ k)%N -> size G1 = (2 ^ k)%N ->
    size f2 = (2 ^ k)%N -> size a2 = (2 ^ k)%N -> size G2 = (2 ^ k)%N ->
    forall (rest : seq V) (rs : seq F),
    msum (G1 ++ G2 ++ rest) ([seq p.1 * p.2 | p <- zip a1 f1] ++ [seq p.1 * p.2 | p <- zip a2 f2] ++ rs)
    = msum (scale f1 G1 ++ scale f2 G2 ++ rest) (a1 ++ a2 ++ rs).
  move=> f1 a1 f2 a2 G1 G2 Hf1' Ha1' HG1' Hf2' Ha2' HG2' rest rs.
  rewrite !msum_cat ?size_map ?size_zip_eq ?size_scale ?Hf1' ?Ha1' ?HG1' ?Hf2' ?Ha2' ?HG2' //.
  by rewrite !msum_scale.
rewrite !Esc ?Hf1 ?Hf2 ?Hh1 ?Hh2 ?Ha1 ?Ha2 ?Hb1 ?Hb2 ?HG1 ?HG2 ?HH1 ?HH2 //.
rewrite -take_scale -drop_scale -take_scale -drop_scale.
set x := challenge_hash _ _.
rewrite inverse_ok ?Hnz //= !vec_add_ok ?size_map ?Ha1 ?Ha2 ?Hb1 ?Hb2 //= !fold_sc_eq.
rewrite (mapM_ok (g := fun i =>
   ((x^-1 * (take (2 ^ k) (factors_G params))`_i) *: (take (2 ^ k) (st_G s))`_i +
    ((x * (drop (2 ^ k) (factors_G params))`_i) *: (drop (2 ^ k) (st_G s))`_i + 0),
    (x * (take (2 ^ k) (factors_H params))`_i) *: (take (2 ^ k) (st_H s))`_i +
    ((x^-1 * (drop (2 ^ k) (factors_H params))`_i) *: (drop (2 ^ k) (st_H s))`_i + 0)))).
  move=> i; rewrite mem_iota add0n => /andP [_ Hi].
  have Hi2 : (2 ^ k + i < size (factors_G params))%N by rewrite HfG -H2m mul2n -addnn ltn_add2l.
  have Hi3 : (2 ^ k + i < size (factors_H params))%N by rewrite HfH -H2m mul2n -addnn ltn_add2l.
  rewrite !index_ok' ?HG1 ?HG2 ?HH1 ?HH2 ?(leq_trans Hi) ?Hm //=.
  by rewrite !nth_take // !nth_drop.
rewrite /= !take_scale !drop_scale.
by rewrite fold_pt_scale_fst ?Hf1 ?Hf2 ?HG1 ?HG2 // fold_pt_scale_snd ?Hh1 ?Hh2 ?HH1 ?HH2.
Qed.

Lemma while_loop_ok (params : @InnerProductParam F V) (k fuel : nat) (s : @state F V) :
  shaped k s -> (k <= fuel)%N ->
  while_loop challenge_hash fuel params s = Ok (rounds challenge_hash (u params) k s).
Proof.
elim: k fuel s => [|k IH] [|fuel] s Hs Hk //=.
  by case: Hs => -> _.
case: (Hs) => Hn _.
have -> : (st_n s != 1%N) by rewrite Hn -(expn0 2) eqn_exp2l.
rewrite (loop_step_ok _ Hs) /= (IH fuel _ (round_shaped challenge_hash (u params) Hs)) //.
by rewrite /IPARead.rounds -iterSr iterS.
Qed.

Lemma scaled_shaped (params : @InnerProductParam F V) (k : nat) (s : @state F V) :
  shaped k s -> size (factors_G params) = (2 ^ k)%N -> size (factors_H params) = (2 ^ k)%N ->
  shaped k (scaled params s).
Proof.
case=> Hn [Ha [Hb [HG HH]]] HfG HfH.
by rewrite /shaped /scaled /= !size_scale ?HfG ?HfH ?HG ?HH.
Qed.

Lemma prove_ok (params : @InnerProductParam F V) (vec_a vec_b : seq F) (k : nat) :
  size (vec_G params) = (2 ^ k)%N -> size (vec_H params) = (2 ^ k)%N ->
  size vec_a = (2 ^ k)%N -> size vec_b = (2 ^ k)%N ->
  size (factors_G params) = (2 ^ k)%N -> size (factors_H params) = (2 ^ k)%N ->
  IPA.prove challenge_hash params vec_a vec_b =
    Ok (proof_of (rounds challenge_hash (u params) k (scaled params (init_state params vec_a vec_b)))).
Proof.
move=> HG HH Ha Hb HfG HfH.
have Hlog : logn 2 (2 ^ k) = k by rewrite pfactorK.
have Hs0 : shaped k (init_state params vec_a vec_b) by rewrite /shaped /init_state /= HG.
have Hsc := scaled_shaped Hs0 HfG HfH.
have Hne : (2 ^ k != size (vec_G params))%N = false by rewrite HG eqxx.
have Hp : is_power_of_two (size (vec_G params)) by rewrite HG /is_power_of_two Hlog.
have Ht : trailing_zeros (size (vec_G params)) = k.
  by rewrite HG /trailing_zeros expn_eq0 /= Hlog.
rewrite /IPA.prove HH Ha Hb HfG HfH !Hne Hp Ht /=.
rewrite -/(init_state params vec_a vec_b).
have Hfin : forall s2, shaped 0 s2 ->
  (a0 <- index 0 (st_a s2) 0 ;; b0 <- index 0 (st_b s2) 0 ;;
   Ok {| vec_L := st_L s2; vec_R := st_R s2; a := a0; b := b0; challenges := st_x s2 |})
  = Ok (proof_of s2) :> result (@InnerProductProof F V) SigmaErrors.t.
  by move=> s2 [_ [Ha2 [Hb2 _]]]; rewrite !index_ok' ?Ha2 ?Hb2.
destruct k as [|k].
  by rewrite HG eqxx; apply: (Hfin _ Hs0).
have -> : (size (vec_G params) != 1)%N by rewrite HG -(expn0 2) eqn_exp2l.
rewrite (base_step_ok Hs0 HfG HfH) bind_Ok.
rewrite (@while_loop_ok params k k.+1 _ (round_shaped challenge_hash (u params) Hsc)) //=.
have Hr := round_shaped challenge_hash (u params) Hsc.
case: (rounds_shaped challenge_hash (u params) (leqnn k) Hr); rewrite subnn => Hz _ _ _.
by rewrite Hfin // /IPARead.rounds -iterSr iterS.
Qed.

Lemma replay_nz (t : @transcript F V) (Ls Rs : seq V) :
  all (fun x => x != 0) (replay challenge_hash t Ls Rs).2.
Proof.
elim: Ls t Rs => [|L Ls IH] t [|R Rs] //=.
move: (IH (rcons (append_serializable_element t "commitments L, R" [:: L; R])
             (Challenge "challenge" (challenge_hash
                (append_serializable_element t "commitments L, R" [:: L; R]) "challenge"))) Rs).
by case: replay => tf ys /= ->; rewrite Hnz.
Qed.

Lemma replay_take (t : @transcript F V) (Ls Rs : seq V) :
  replay challenge_hash t Ls (take (size Ls) Rs) = replay challenge_hash t Ls Rs.
Proof.
elim: Ls t Rs => [|L Ls IH] t [|R Rs] //=.
by rewrite IH.
Qed.

Lemma challenge_loop_run (proof : @InnerProductProof F V) (i fuel : nat)
  (t : @transcript F V) (xs xsq xisq : seq F) (ai : F) :
  (i + fuel <= size (vec_L proof))%N -> (i + fuel <= size (vec_R proof))%N ->
  (i + fuel <= size (challenges proof))%N ->
  challenge_loop challenge_hash proof i fuel (t, xs, xsq, xisq, ai) =
    let ys := replay challenge_hash t (take fuel (drop i (vec_L proof)))
                (take fuel (drop i (vec_R proof))) in
    if ys.2 == take fuel (drop i (challenges proof)) then
      Ok (ys.1, xs ++ ys.2, xsq ++ [seq x * x | x <- ys.2],
          xisq ++ [seq x^-1 * x^-1 | x <- ys.2], foldl (fun acc x => acc * x^-1) ai ys.2)
    else Err (SigmaErrors.InvalidProof "invalid challenge value").
Proof.
elim: fuel i t xs xsq xisq ai => [|f IH] i t xs xsq xisq ai HL HR HC.
  by rewrite /= !take0 /= !cats0.
have Hlt : forall m, (i + f.+1 <= m)%N -> (i < m)%N.
  by move=> m Hm; apply: leq_trans Hm; rewrite addnS ltnS leq_addr.
have HS : forall m, (i + f.+1 <= m)%N -> (i.+1 + f <= m)%N by move=> m; rewrite addSnnS.
rewrite /= !index_ok' ?Hlt //.
rewrite (drop_nth 0 (Hlt _ HL)) (drop_nth 0 (Hlt _ HR)) (drop_nth 0 (Hlt _ HC)) /=.
rewrite inverse_ok ?Hnz //= IH ?HS //=.
set x := challenge_hash _ _.
case: replay => tf ys /=; rewrite eqseq_cons.
case: (x == _) => //=.
case: (ys == _) => //.
by rewrite cat_rcons -!cats1 -!catA.
Qed.

Lemma msum_box (fG : seq F) (G : seq V) (B : seq F) (c : F) :
  msum G (scalar_product [seq p.1 * p.2 | p <- zip B fG] c) = c *: msum (scale fG G) B.
Proof.
rewrite msum_scale /scalar_product -msumZ; congr msum.
by apply: eq_map => x; rewrite mulrC.
Qed.

Lemma single_of_size1 (l : seq F) : size l = 1%N -> l = [:: l`_0].
Proof. by case: l => [|y [|]]. Qed.

Lemma verify_ok (params : @InnerProductParam F V) (vec_a vec_b : seq F) (k : nat) :
  (k < 32)%N ->
  size (vec_G params) = (2 ^ k)%N -> size (vec_H params) = (2 ^ k)%N ->
  size vec_a = (2 ^ k)%N -> size vec_b = (2 ^ k)%N ->
  size (factors_G params) = (2 ^ k)%N -> size (factors_H params) = (2 ^ k)%N ->
  let s0 := scaled params (init_state params vec_a vec_b) in
  IPA.verify challenge_hash (2 ^ k) (Pval (u params) s0) params
    (proof_of (rounds challenge_hash (u params) k s0)) = Ok tt.
Proof.
move=> Hk HG HH Ha Hb HfG HfH s0.
have Hs0 : shaped k s0.
  by apply: scaled_shaped => //; rewrite /shaped /init_state /= HG.
case: (rounds_shaped challenge_hash (u params) (leqnn k) Hs0); rewrite subnn => HR HLs HRs Hxs.
have HnzX := replay_nz (st_t s0) (st_L (rounds challenge_hash (u params) k s0))
                         (st_R (rounds challenge_hash (u params) k s0)).
have Ht0 : st_t s0 = append_field_element (new "RingSignature") "IPAsize" (2 ^ k)%:R.
  by rewrite /= HG.
have HL0 : st_L s0 = [::] by [].
have HR0 : st_R s0 = [::] by [].
have Hx0 : st_x s0 = [::] by [].
rewrite HL0 HR0 Hx0 /= !add0n in HLs HRs Hxs.
rewrite /IPA.verify HG eqxx /= HLs leqNgt Hk /= eqxx /= -Ht0.
rewrite challenge_loop_run ?HLs ?HRs ?Hxs // !drop0 !take_oversize ?HLs ?HRs ?Hxs //.
rewrite (replay_rounds challenge_hash (u params) (leqnn k) Hs0 HL0 HR0 Hx0) /= eqxx /=.
rewrite (replay_rounds challenge_hash (u params) (leqnn k) Hs0 HL0 HR0 Hx0) /= in HnzX.
have HGH := rounds_GH challenge_hash (u params) Hs0; rewrite Hx0 /= drop0 in HGH.
set R := rounds challenge_hash (u params) k s0 in HR HLs HRs Hxs HnzX HGH *.
set X := st_x R in Hxs HnzX HGH *.
have Ht1 : [:: foldl (fun acc x => acc / x) 1 X] = take 1 (box_rec X).
  rewrite -[foldl _ _ _]/(all_inv X) all_inv_box.
  have : (0 < size (box_rec X))%N by rewrite size_box_rec expn_gt0.
  by case: (box_rec X) => [|y l] //= _; rewrite take0.
have Hbox := @box_loop_rec _ X 1 (2 ^ k - 1) HnzX.
rewrite Hxs in Hbox; rewrite Ht1 Hbox ?subnKC ?expn_gt0 //.
have HB : size (box_rec X) = (2 ^ k)%N by rewrite size_box_rec Hxs.
case: HR => _ [Ha1 [Hb1 _]].
rewrite !hadamard_ok ?size_rev ?HB ?HfG ?HfH // !bind_Ok.
rewrite msm_some; first by rewrite /= !size_cat /scalar_product !size_map !size_zip ?size_rev HB HfG HfH HG HH HLs HRs Hxs !minnn.
rewrite /unwrap bind_Ok; case: eqP => // Hne; exfalso; apply: Hne.
rewrite msum_cons !msum_cat ?HG ?HH ?HLs /scalar_product ?size_map ?size_zip ?size_rev ?HB ?HfG ?HfH ?minnn ?Hxs //.
rewrite -!/(scalar_product _ _) !msum_box !msum_opp.
have E := Pval_rounds Hnz (u params) (leqnn k) Hs0 HL0 HR0 Hx0.
rewrite -/R -/X in E.
have -> : Pval (u params) s0 = Pval (u params) R - msum (st_R R) [seq x^-1 * x^-1 | x <- X]
                                 - msum (st_L R) [seq x * x | x <- X] by rewrite E !addrK.
set a' := (st_a R)`_0; set b' := (st_b R)`_0.
case: HGH => HG1 HH1.
rewrite /Pval HG1 HH1 [st_a R](single_of_size1 Ha1) [st_b R](single_of_size1 Hb1).
rewrite -/a' -/b' !msum_cons !msum_nil_l !addr0 ip_cons ip_nil_l addr0.
exact: perm5.
Qed.

End Steps.

Section Claims.
Context {F : fieldType} {V : lmodType F}.
Import Vec Transcript IPA IPARead Facts.

Lemma seq1_of_size {A : Type} (x0 : A) (l : seq A) : size l = 1%N -> l = [:: nth x0 l 0].
Proof. by case: l => [|y [|]]. Qed.

(** Claim C1 (amended): for every length [n = 2^k], every parameter set
    whose four vectors have length [n], all [a], [b] of length [n], and a
    challenge hash that never yields [0], [prove] succeeds, and [verify n P]
    on its proof for [P = MSM(G, a o f_G) + MSM(H, b o f_H) + <a,b> u]
    accepts it when [k < 32] and returns
    [InvalidParameters "vector size is too large"] when [k >= 32]. *)
Theorem ipa_completeness (challenge_hash : @transcript F V -> string -> F)
  (Hnz : forall t l, challenge_hash t l != 0)
  (params : @InnerProductParam F V) (vec_a vec_b : seq F) (k : nat) :
  size (vec_G params) = (2 ^ k)%N -> size (vec_H params) = (2 ^ k)%N ->
  size vec_a = (2 ^ k)%N -> size vec_b = (2 ^ k)%N ->
  size (factors_G params) = (2 ^ k)%N -> size (factors_H params) = (2 ^ k)%N ->
  exists proof,
    IPA.prove challenge_hash params vec_a vec_b = Ok proof /\
    IPA.verify challenge_hash (2 ^ k)
      (msum (vec_G params) [seq p.1 * p.2 | p <- zip vec_a (factors_G params)]
       + msum (vec_H params) [seq p.1 * p.2 | p <- zip vec_b (factors_H params)]
       + ip vec_a vec_b *: u params) params proof =
      if (k < 32)%N then Ok tt
      else Err (SigmaErrors.InvalidParameters "vector size is too large").
Proof.
move=> HG HH Ha Hb HfG HfH.
eexists; split; first exact: (prove_ok Hnz HG HH Ha Hb HfG HfH).
case: (ltnP k 32) => Hk.
  rewrite -!msum_scale.
  exact: (verify_ok Hnz Hk HG HH Ha Hb HfG HfH).
have Hs0 : shaped k (init_state params vec_a vec_b) by rewrite /shaped /init_state /= HG.
have Hsc := scaled_shaped Hs0 HfG HfH.
case: (rounds_shaped challenge_hash (u params) (leqnn k) Hsc) => _ HL _ _.
set s := rounds _ _ _ _ in HL *.
have Hl : (32 <= size (vec_L (proof_of s)))%N.
  by rewrite [vec_L _]/= HL (leq_trans Hk) ?leq_addl.
move: Hl; set pr := proof_of s => Hl.
rewrite /IPA.verify HG eqxx.
cbv beta iota zeta delta [bind assert].
by rewrite Hl.
Qed.

(** Claim C9: for length [1], [prove] runs no folding round and returns the
    proof with empty [L], [R] and challenges and scalars [(a0, b0)]; [verify 1]
    accepts that proof exactly when
    [P = (a0 f_G[0]) G0 + (b0 f_H[0]) H0 + (a0 b0) u]. *)
Theorem ipa_single (challenge_hash : @transcript F V -> string -> F)
  (params : @InnerProductParam F V) (a0 b0 : F) :
  size (vec_G params) = 1%N -> size (vec_H params) = 1%N ->
  size (factors_G params) = 1%N -> size (factors_H params) = 1%N ->
  let proof := {| vec_L := [::]; vec_R := [::]; a := a0; b := b0; challenges := [::] |} in
  IPA.prove challenge_hash params [:: a0] [:: b0] = Ok proof /\
  forall P, IPA.verify challenge_hash 1 P params proof = Ok tt <->
    P = (a0 * (factors_G params)`_0) *: (vec_G params)`_0
        + (b0 * (factors_H params)`_0) *: (vec_H params)`_0 + (a0 * b0) *: u params.
Proof.
case: params => [fG fH u0 G H] /=.
case: fG => [|f []] //; case: fH => [|f' []] //; case: G => [|g []] //; case: H => [|h []] // _ _ _ _.
split.
  by rewrite /IPA.prove /=.
move=> P; rewrite /IPA.verify /=.
have -> : (a0 * b0) *: u0 + ((1 * f * a0) *: g + ((1 * f' * b0) *: h + 0))
          = (a0 * f) *: g + (b0 * f') *: h + (a0 * b0) *: u0.
  by rewrite addr0 !mul1r [f * a0]mulrC [f' * b0]mulrC addrC.
by case: eqP => [<-|Hne]; split => // E; case: Hne.
Qed.

(** Claim C5 (amended): [prove] returns [InvalidParameters] whenever one of
    [|vec_H|], [|a|], [|b|], [|f_G|], [|f_H|] differs from [n = |vec_G|], and
    when they agree but [n] is no power of two.  [verify n] panics on its
    [assert_eq!] when [|vec_G| <> n]; with [|vec_G| = n], it returns
    [InvalidParameters] when [log_n = |L| >= 32] and [InvalidProof] when
    [n <> 2^log_n]; and, when [|R|] and the challenge vector have at least
    [log_n] entries, [n = 2^log_n], [log_n < 32] and the hash never yields
    [0], it returns [InvalidProof] whenever the challenges re-derived from the
    transcript differ from the first [log_n] challenges of the proof. *)
Theorem ipa_input_validation (challenge_hash : @transcript F V -> string -> F) :
  (forall (params : @InnerProductParam F V) (vec_a vec_b : seq F),
     (size (vec_H params) != size (vec_G params)) || (size vec_a != size (vec_G params))
     || (size vec_b != size (vec_G params)) || (size (factors_G params) != size (vec_G params))
     || (size (factors_H params) != size (vec_G params)) ->
     IPA.prove challenge_hash params vec_a vec_b =
       Err (SigmaErrors.InvalidParameters "vectors length are different")) /\
  (forall (params : @InnerProductParam F V) (vec_a vec_b : seq F),
     size (vec_H params) = size (vec_G params) -> size vec_a = size (vec_G params) ->
     size vec_b = size (vec_G params) -> size (factors_G params) = size (vec_G params) ->
     size (factors_H params) = size (vec_G params) ->
     (forall k, size (vec_G params) <> (2 ^ k)%N) ->
     IPA.prove challenge_hash params vec_a vec_b =
       Err (SigmaErrors.InvalidParameters "vector length is not power of two")) /\
  (forall (n : nat) (P : V) (params : @InnerProductParam F V) (proof : @InnerProductProof F V),
     size (vec_G params) != n ->
     IPA.verify challenge_hash n P params proof = Panic "assertion `left == right` failed") /\
  (forall (n : nat) (P : V) (params : @InnerProductParam F V) (proof : @InnerProductProof F V),
     size (vec_G params) = n -> (32 <= size (vec_L proof))%N ->
     IPA.verify challenge_hash n P params proof =
       Err (SigmaErrors.InvalidParameters "vector size is too large")) /\
  (forall (n : nat) (P : V) (params : @InnerProductParam F V) (proof : @InnerProductProof F V),
     size (vec_G params) = n -> (size (vec_L proof) < 32)%N -> n <> (2 ^ size (vec_L proof))%N ->
     IPA.verify challenge_hash n P params proof =
       Err (SigmaErrors.InvalidProof "incorrect proof length")) /\
  ((forall t l, challenge_hash t l != 0) ->
   forall (n : nat) (P : V) (params : @InnerProductParam F V) (proof : @InnerProductProof F V),
     size (vec_G params) = n -> n = (2 ^ size (vec_L proof))%N -> (size (vec_L proof) < 32)%N ->
     (size (vec_L proof) <= size (vec_R proof))%N ->
     (size (vec_L proof) <= size (challenges proof))%N ->
     (replay challenge_hash (append_field_element (new "RingSignature") "IPAsize" n%:R)
        (vec_L proof) (vec_R proof)).2 != take (size (vec_L proof)) (challenges proof) ->
     IPA.verify challenge_hash n P params proof =
       Err (SigmaErrors.InvalidProof "invalid challenge value")).
Proof.
split; first by move=> params va vb H; rewrite /IPA.prove H.
split.
  move=> params va vb HH Ha Hb HfG HfH Hk.
  have Hp : is_power_of_two (size (vec_G params)) = false.
    by apply/negbTE/negP => /eqP E; apply: (Hk _ E).
  by rewrite /IPA.prove HH Ha Hb HfG HfH eqxx /= Hp.
split.
  by move=> n P params proof Hn; rewrite /IPA.verify (negbTE Hn).
split.
  by move=> n P params proof HG H32; rewrite /IPA.verify HG eqxx /= H32.
split.
  move=> n P params proof HG Hlt Hn.
  by rewrite /IPA.verify HG eqxx /= leqNgt Hlt /=; move/eqP/negbTE: Hn => ->.
move=> Hnz n P params proof HG Hn Hlt HR HC Hmis.
have Hn' : (n != 2 ^ size (vec_L proof))%N = false by rewrite Hn eqxx.
rewrite /IPA.verify HG eqxx /= leqNgt Hlt /= Hn'.
rewrite (challenge_loop_run Hnz) ?add0n // !drop0 take_size replay_take.
by rewrite /= (negbTE Hmis).
Qed.

End Claims.

End IPAProps.

(** * Further properties of the vector helpers, Pedersen, the IPA and the ring signatures *)

Module VecExtra.
Section VecExtra.
Context {F : fieldType}.
Import Vec IPARead Facts.

(** [inner_product] sums the products of the entries of equal-length vectors and panics on a length mismatch. *)
Theorem inner_product_sum {E : Type} (xs ys : seq F) :
  inner_product xs ys =
    (if size xs == size ys then Ok (\sum_(i < size xs) xs`_i * ys`_i)
     else Panic "Vectors must be of the same length") :> result F E.
Proof.
case: eqP => Hs; first by rewrite inner_product_ok // ip_sum.
by rewrite /inner_product; move/eqP/negbTE: Hs => ->.
Qed.

(** [inner_product] is symmetric and equals the sum of the entries of the Hadamard product. *)
Theorem inner_product_hadamard {E : Type} (xs ys : seq F) :
  inner_product xs ys = inner_product ys xs :> result F E /\
  inner_product xs ys = (v <- hadamard_product xs ys ;; Ok (\sum_(i < size v) v`_i)) :> result F E.
Proof.
rewrite !inner_product_sum /hadamard_product eq_sym.
case: eqP => Hs //; split.
  by rewrite Hs; congr Ok; apply: eq_bigr => i _; rewrite mulrC.
rewrite /= size_map size_zip_eq //; congr Ok; apply: eq_bigr => i _.
by rewrite (nth_map (0, 0)) ?size_zip_eq // nth_zip.
Qed.

(** [vec_add] adds equal-length vectors entry by entry and panics on a length mismatch. *)
Theorem vec_add_pointwise {E : Type} (xs ys : seq F) :
  vec_add xs ys =
    (if size xs == size ys then Ok (mkseq (fun i => xs`_i + ys`_i) (size xs))
     else Panic "Vectors must be of the same length") :> result (seq F) E.
Proof.
case: eqP => Hs; last by rewrite /vec_add; move/eqP/negbTE: Hs => ->.
rewrite vec_add_ok //; congr Ok; apply: (@eq_from_nth _ 0).
  by rewrite size_map size_mkseq size_zip_eq.
move=> i; rewrite size_map size_zip_eq // => Hi.
by rewrite (nth_map (0, 0)) ?size_zip_eq // nth_zip // nth_mkseq.
Qed.

(** [hadamard_product] multiplies equal-length vectors entry by entry and panics on a length mismatch. *)
Theorem hadamard_pointwise {E : Type} (xs ys : seq F) :
  hadamard_product xs ys =
    (if size xs == size ys then Ok (mkseq (fun i => xs`_i * ys`_i) (size xs))
     else Panic "Vectors must be of the same length") :> result (seq F) E.
Proof.
case: eqP => Hs; last by rewrite /hadamard_product; move/eqP/negbTE: Hs => ->.
rewrite hadamard_ok //; congr Ok; apply: (@eq_from_nth _ 0).
  by rewrite size_map size_mkseq size_zip_eq.
move=> i; rewrite size_map size_zip_eq // => Hi.
by rewrite (nth_map (0, 0)) ?size_zip_eq // nth_zip // nth_mkseq.
Qed.

(** Scaling by [c] and by [d] adds up to scaling by [c + d]; scaling twice is scaling by the product. *)
Theorem scalar_product_compose {E : Type} (xs : seq F) (c d : F) :
  vec_add (scalar_product xs c) (scalar_product xs d) = Ok (scalar_product xs (c + d))
    :> result (seq F) E /\
  scalar_product (scalar_product xs c) d = scalar_product xs (c * d).
Proof.
split; last by rewrite /scalar_product -map_comp; apply: eq_map => x /=; rewrite mulrA.
rewrite vec_add_ok ?size_map // /scalar_product map_zip_map.
by congr Ok; elim: xs => [|x xs IH] //=; rewrite IH mulrDr.
Qed.

(** [vec_split v n] returns a prefix of length [n] and the rest when [n <= size v], and panics otherwise. *)
Theorem vec_split_round_trip {A E : Type} (v : seq A) (n : nat) :
  ((n <= size v)%N -> exists l r, vec_split v n = Ok (l, r) :> result _ E /\
                                  l ++ r = v /\ size l = n) /\
  ((size v < n)%N -> vec_split v n = Panic "Vectors must have length than n" :> result _ E).
Proof.
split=> Hn; rewrite /vec_split.
  by rewrite Hn; exists (take n v), (drop n v); rewrite cat_take_drop size_take_min (minn_idPl Hn).
by rewrite leqNgt Hn.
Qed.

(** [generate_powers y n] is the list [y, y^2, ..., y^n]. *)
Theorem generate_powers_spec (y : F) (n : nat) :
  size (generate_powers y n) = n /\
  forall i, (i < n)%N -> (generate_powers y n)`_i = y ^+ i.+1.
Proof. by split; [exact: size_generate_powers | exact: nth_generate_powers]. Qed.

(** For [y <> 0] the powers of [y] and of [y^-1] multiply entrywise to the all-one vector. *)
Theorem generate_powers_inverse {E : Type} (y : F) (n : nat) : y != 0 ->
  hadamard_product (generate_powers y n) (generate_powers y^-1 n) = Ok (nseq n 1)
    :> result (seq F) E.
Proof.
move=> Hy; rewrite hadamard_pointwise !size_generate_powers eqxx; congr Ok.
apply: (@eq_from_nth _ 0); rewrite size_mkseq ?size_nseq // => i Hi.
by rewrite nth_mkseq // nth_nseq Hi !nth_generate_powers // exprVn divff // expf_neq0.
Qed.
End VecExtra.
End VecExtra.

Module PedersenExtra.
Section PedersenExtra.
Context {F : fieldType} {V : lmodType F}.
Import Pedersen IPARead Facts.

(** Pedersen [verify] recomputes [r h + sum m_i g_i] and compares it with the commitment; it panics when the lengths differ. *)
Theorem pedersen_verify_spec (params : @PedersenParams F V) (cm : V) (op : @PedersenOpening F) :
  verify params cm op =
    (if size (message op) == size (vec_g params)
     then Ok (random op *: h params
              + \sum_(i < size (message op)) (message op)`_i *: (vec_g params)`_i == cm)
     else Panic "called `unwrap()` on an error value").
Proof.
rewrite /verify; case: eqP => Hs.
  by rewrite (msm_some (esym Hs)) /= msum_sum // Hs.
by rewrite /msm; case: eqP => // H; case: Hs.
Qed.

(** Pedersen [commit] is [r h + sum m_i g_i] for a message as long as the generators and [InvalidParameters] otherwise. *)
Theorem pedersen_commit_spec (params : @PedersenParams F V) (m : seq F) (r : F) :
  commit params m r =
    (if size m == size (vec_g params)
     then Ok (r *: h params + \sum_(i < size m) m`_i *: (vec_g params)`_i)
     else Err (CommitmentErrors.InvalidParameters
                 "message length should equal to the generator length"%string)).
Proof.
rewrite /commit; case: eqP => Hs //=.
by rewrite (msm_some (esym Hs)) /= msum_sum.
Qed.

(** Pedersen commitments are additively homomorphic: the commitment to [m1 + m2] with [r1 + r2] is the sum of the commitments. *)
Theorem pedersen_commit_add (params : @PedersenParams F V) (m1 m2 : seq F) (r1 r2 : F) (c1 c2 : V) :
  commit params m1 r1 = Ok c1 -> commit params m2 r2 = Ok c2 ->
  (m <- Vec.vec_add m1 m2 ;; commit params m (r1 + r2)) = Ok (c1 + c2).
Proof.
rewrite /commit.
case: (size m1 =P size (vec_g params)) => Hs1 /=; last by [].
case: (size m2 =P size (vec_g params)) => Hs2 /=; last by [].
rewrite (msm_some (esym Hs1)) (msm_some (esym Hs2)) /= => -[<-] [<-].
rewrite vec_add_ok; first by rewrite Hs1 Hs2.
have Hsz : size [seq p.1 + p.2 | p <- zip m1 m2] = size (vec_g params).
  by rewrite size_map size_zip_eq ?Hs1 ?Hs2.
rewrite /= Hsz eqxx /= (msm_some (esym Hsz)) /= scalerDl.
have -> : msum (vec_g params) [seq p.1 + p.2 | p <- zip m1 m2] =
          msum (vec_g params) m1 + msum (vec_g params) m2.
  clear Hsz; move: (vec_g params) Hs1 Hs2; elim: m1 m2 => [|x m1 IH] [|y m2] [|g G] //= Hs1 Hs2.
    by rewrite !msum_nil_l addr0.
  case: Hs1 => Hs1; case: Hs2 => Hs2.
  by rewrite !msum_cons (IH m2 G Hs1 Hs2) scalerDl addrACA.
by rewrite addrACA.
Qed.

(** [setup] repeats one random generator, so two messages with the same entry sum have the same commitment. *)
Theorem pedersen_setup_collision (Rng : Type) (rand_scalar : Rng -> F * Rng)
  (rand_point : Rng -> V * Rng) (generator : V) (rng rng' : Rng) (s : nat)
  (params : @PedersenParams F V) (m1 m2 : seq F) (r : F) :
  setup rand_scalar rand_point generator rng s = Ok (params, rng') ->
  size m1 = s -> size m2 = s -> \sum_(i < s) m1`_i = \sum_(i < s) m2`_i ->
  commit params m1 r = commit params m2 r.
Proof.
rewrite /setup; case: (rand_scalar rng) => hs r1; case: (rand_point r1) => pt r2 [<- _] H1 H2 Hsum.
have Hc : forall m, size m = s -> commit {| h := hs *: generator; vec_g := nseq s pt |} m r =
                                  Ok (r *: (hs *: generator) + (\sum_(i < s) m`_i) *: pt).
  move=> m Hm; rewrite /commit /= size_nseq Hm eqxx /= msm_some ?size_nseq //.
  rewrite msum_sum ?size_nseq // Hm scaler_suml; congr (Ok (_ + _)).
  by apply: eq_bigr => i _; rewrite nth_nseq ltn_ord.
by rewrite !Hc // Hsum.
Qed.

End PedersenExtra.
End PedersenExtra.

Module IPAExtra.
Section IPAExtra.
Context {F : fieldType} {V : lmodType F}.
Import Vec Transcript IPA IPARead Facts IPAProps.
Variable challenge_hash : @transcript F V -> string -> F.

Lemma size_box_loop (cs : seq F) (ln i fuel : nat) (vb : seq F) :
  size (box_loop cs ln i fuel vb) = (size vb + fuel)%N.
Proof.
elim: fuel i vb => [|f IH] i vb /=; first by rewrite addn0.
by rewrite IH size_rcons addSnnS.
Qed.

Lemma size_replay (t : @transcript F V) (Ls Rs : seq V) :
  size (replay challenge_hash t Ls Rs).2 = minn (size Ls) (size Rs).
Proof.
elim: Ls t Rs => [|L Ls IH] t [|R Rs] //=.
move: (IH (rcons (append_serializable_element t "commitments L, R" [:: L; R])
             (Challenge "challenge" (challenge_hash
                (append_serializable_element t "commitments L, R" [:: L; R]) "challenge"))) Rs).
by case: replay => tf ys /= ->; rewrite minnSS.
Qed.

Lemma prove_cases (params : @InnerProductParam F V) (vec_a vec_b : seq F) :
  let n := size (vec_G params) in
  ((size (vec_H params) != n) || (size vec_a != n) || (size vec_b != n)
   || (size (factors_G params) != n) || (size (factors_H params) != n) ->
   IPA.prove challenge_hash params vec_a vec_b =
     Err (SigmaErrors.InvalidParameters "vectors length are different")) /\
  ((size (vec_H params) != n) || (size vec_a != n) || (size vec_b != n)
   || (size (factors_G params) != n) || (size (factors_H params) != n) = false ->
   ~~ is_power_of_two n ->
   IPA.prove challenge_hash params vec_a vec_b =
     Err (SigmaErrors.InvalidParameters "vector length is not power of two")).
Proof.
split.
  by move=> Hm; rewrite /IPA.prove; cbv zeta; rewrite Hm.
by move=> Hm Hp; rewrite /IPA.prove; cbv zeta; rewrite Hm Hp.
Qed.

Section WithNz.
Hypothesis Hnz : forall t l, challenge_hash t l != 0.

Lemma prove_ok_sizes (params : @InnerProductParam F V) (vec_a vec_b : seq F) (proof : @InnerProductProof F V) :
  IPA.prove challenge_hash params vec_a vec_b = Ok proof ->
  let k := logn 2 (size (vec_G params)) in
  size (vec_G params) = (2 ^ k)%N /\ size (vec_H params) = (2 ^ k)%N /\
  size vec_a = (2 ^ k)%N /\ size vec_b = (2 ^ k)%N /\
  size (factors_G params) = (2 ^ k)%N /\ size (factors_H params) = (2 ^ k)%N.
Proof.
case: (prove_cases params vec_a vec_b) => /= H1 H2 Hok.
set m := (size (vec_H params) != size (vec_G params)) || (size vec_a != size (vec_G params))
         || (size vec_b != size (vec_G params)) || (size (factors_G params) != size (vec_G params))
         || (size (factors_H params) != size (vec_G params)).
case Hm: m; first by rewrite (H1 Hm) in Hok.
case Hp: (is_power_of_two (size (vec_G params))); last by rewrite (H2 Hm (negbT Hp)) in Hok.
move/eqP: Hp => Hp.
move: Hm; rewrite /m; case: eqP => //= HH; case: eqP => //= Ha; case: eqP => //= Hb.
case: eqP => //= HfG; case: eqP => //= HfH _.
by rewrite HH Ha Hb HfG HfH -Hp.
Qed.

(** With non-zero challenges the IPA prover never panics: it succeeds or reports one of its two parameter errors. *)
Theorem prove_never_panics (params : @InnerProductParam F V) (vec_a vec_b : seq F) :
  outcome okT
    (fun e => e = SigmaErrors.InvalidParameters "vectors length are different" \/
              e = SigmaErrors.InvalidParameters "vector length is not power of two")
    (fun _ => False) (IPA.prove challenge_hash params vec_a vec_b).
Proof.
case: (prove_cases params vec_a vec_b) => /= H1 H2.
set m := (size (vec_H params) != size (vec_G params)) || (size vec_a != size (vec_G params))
         || (size vec_b != size (vec_G params)) || (size (factors_G params) != size (vec_G params))
         || (size (factors_H params) != size (vec_G params)).
case Hm: m.
  by rewrite (H1 Hm) /outcome; left.
case Hp: (is_power_of_two (size (vec_G params))); last first.
  by rewrite (H2 Hm (negbT Hp)) /outcome; right.
move/eqP: Hp => Hp.
move: Hm; rewrite /m; case: eqP => //= HH; case: eqP => //= Ha; case: eqP => //= Hb.
case: eqP => //= HfG; case: eqP => //= HfH _.
by rewrite (prove_ok Hnz Hp (etrans HH Hp) (etrans Ha Hp) (etrans Hb Hp) (etrans HfG Hp)
                     (etrans HfH Hp)).
Qed.

(** An IPA proof has [log2 n] rounds, and its challenges are the ones the verifier recomputes from its points [L] and [R]. *)
Theorem prove_challenges_replay (params : @InnerProductParam F V) (vec_a vec_b : seq F)
  (proof : @InnerProductProof F V) :
  IPA.prove challenge_hash params vec_a vec_b = Ok proof ->
  let n := size (vec_G params) in
  [/\ n = (2 ^ size (vec_L proof))%N, size (vec_R proof) = size (vec_L proof),
      size (challenges proof) = size (vec_L proof) &
      (replay challenge_hash (append_field_element (new "RingSignature") "IPAsize" n%:R)
         (vec_L proof) (vec_R proof)).2 = challenges proof].
Proof.
move=> Hok; case: (prove_ok_sizes Hok) => /=.
set k := logn 2 _ => HG [HH [Ha [Hb [HfG HfH]]]].
move: Hok; rewrite (prove_ok Hnz HG HH Ha Hb HfG HfH) => -[<-].
set s0 := scaled params (init_state params vec_a vec_b).
have Hs0 : shaped k s0.
  by apply: scaled_shaped => //; rewrite /shaped /init_state /= HG.
case: (rounds_shaped challenge_hash (u params) (leqnn k) Hs0) => _ HL HR Hx.
have E := replay_rounds challenge_hash (u params) (leqnn k) Hs0 erefl erefl erefl.
rewrite /= in HL HR Hx; rewrite /proof_of /= HL HR Hx HG.
split=> //; rewrite -HG.
by rewrite [append_field_element _ _ _]/(st_t s0) E.
Qed.

(** On well-sized parameters and proofs the IPA verifier never panics: it accepts or returns one of four errors. *)
Theorem verify_never_panics (n : nat) (P : V) (params : @InnerProductParam F V)
  (proof : @InnerProductProof F V) :
  size (vec_G params) = n -> size (vec_H params) = n ->
  size (factors_G params) = n -> size (factors_H params) = n ->
  size (vec_R proof) = size (vec_L proof) -> (size (vec_L proof) <= size (challenges proof))%N ->
  outcome okT
    (fun e => List.In e [:: SigmaErrors.InvalidParameters "vector size is too large";
                            SigmaErrors.InvalidProof "incorrect proof length";
                            SigmaErrors.InvalidProof "invalid challenge value";
                            SigmaErrors.InvalidProof "invalid IPA proof"])
    (fun _ => False) (IPA.verify challenge_hash n P params proof).
Proof.
move=> HG HH HfG HfH HR HC.
rewrite /IPA.verify HG eqxx /=.
case: ifP => _; first by rewrite /outcome /=; left.
case: ifP => [_|/negbFE/eqP Hn]; first by rewrite /outcome /=; right; left.
rewrite challenge_loop_run ?add0n ?HR //.
rewrite !drop0 [take _ (vec_L _)]take_oversize // [take _ (vec_R _)]take_oversize ?HR //.
cbv zeta.
set ys := replay _ _ _ _.
have Hys : size ys.2 = size (vec_L proof) by rewrite size_replay HR minnn.
case: eqP => _; last by rewrite /outcome /=; do 2 right; left.
rewrite bind_Ok /=.
have Hb : forall (cs : seq F) (ai : F), size (box_loop cs (size (vec_L proof)) 1 (n - 1) [:: ai]) = n.
  by move=> cs ai; rewrite size_box_loop add1n subn1 prednK // Hn expn_gt0.
rewrite hadamard_ok ?Hb ?HfG // bind_Ok hadamard_ok ?size_rev ?Hb ?HfH // bind_Ok.
rewrite msm_some; first by rewrite /= !size_cat /scalar_product !size_map !size_zip ?size_rev
  !Hb HfG HfH HG HH HR Hys !minnn.
rewrite /unwrap bind_Ok; case: eqP => _; rewrite /outcome /okT; [exact I | by do 3 right; left].
Qed.

End WithNz.

(** An IPA proof accepted for a commitment [P] is rejected with [InvalidProof] for every other commitment. *)
Theorem verify_unique_target (n : nat) (P P' : V) (params : @InnerProductParam F V)
  (proof : @InnerProductProof F V) :
  IPA.verify challenge_hash n P params proof = Ok tt -> P' != P ->
  IPA.verify challenge_hash n P' params proof =
    Err (SigmaErrors.InvalidProof "invalid IPA proof").
Proof.
rewrite /IPA.verify.
case: (size (vec_G params) == n) => //=.
case: ifP => //= _; case: ifP => //= _.
case: (challenge_loop _ _ _ _ _) => [[[[[t xs] xs2] xi] ai]|e|m] //=.
case: (hadamard_product _ _) => [gb|e|m] //=.
case: (hadamard_product _ _) => [hb|e|m] //=.
case: (unwrap _) => [E|e|m] //=.
case: eqP => [->|] // _ HP.
by rewrite eq_sym (negbTE HP).
Qed.

End IPAExtra.
End IPAExtra.

Module LinearExtra.
Section AacInst.
Variable M : zmodType.
Variable R : comPzRingType.
#[local] Instance aac_addZ_A : Associative eq (@GRing.add M) := @addrA M.
#[local] Instance aac_addZ_C : Commutative eq (@GRing.add M) := @addrC M.
#[local] Instance aac_addR_A : Associative eq (@GRing.add R) := @addrA R.
#[local] Instance aac_addR_C : Commutative eq (@GRing.add R) := @addrC R.
#[local] Instance aac_mulR_A : Associative eq (@GRing.mul R) := @mulrA R.
#[local] Instance aac_mulR_C : Commutative eq (@GRing.mul R) := @mulrC R.



Lemma perm_step2 (a b c d e f g h : M) :
  a + b + (c + d + e) + (f + g + h) = a + c + f + (b + e + h) + d + g.
Proof. aac_reflexivity. Qed.

Lemma perm_step3 (a b c d : M) : a + c + d = a + b + (c - b) + d.
Proof. by rewrite -[a + b + _]addrA [b + (c - b)]addrC subrK. Qed.

Lemma perm_step1 (a b c d e : M) : a + b + c + (d + e) = a + (b + d) + (c + e).
Proof. aac_reflexivity. Qed.

Lemma step1_exp0 (z yi s0 x s1 : R) :
  z * yi + s0 * x * yi +
  (z * yi * z + z * yi * (s1 * x) + (s0 * x * yi * z + s0 * x * yi * (s1 * x))) =
  yi * z + yi * (z * z) +
  (x * (s0 * yi * z) + x * (s0 * yi) + x * (z * yi * s1)) + x * x * (s0 * yi * s1).
Proof. aac_reflexivity. Qed.

Lemma step1_exp1 (z yi s0 x s1 : R) :
  yi * z + (z * yi * z + s0 * x * yi * z) +
  (yi * (s1 * x) + (z * yi * (s1 * x) + s0 * x * yi * (s1 * x))) =
  yi * z + yi * (z * z) +
  (x * (s0 * yi * z) + (x * (z * yi * s1) + x * (yi * s1))) + x * x * (s0 * yi * s1).
Proof. aac_reflexivity. Qed.

Lemma step1_idx (bi yi z x s0 s1 : R) : bi = 0 \/ bi = 1 ->
  (bi + (z + s0 * x)) * yi * (1 - bi + (z + s1 * x)) =
  1 * yi * (z + z * z) + (x * (s0 * yi * (z + (1 - bi))) + x * ((z + bi) * yi * s1))
  + x * x * (s0 * yi * s1).
Proof.
case=> H; subst bi; rewrite ?subr0 ?subrr ?add0r ?addr0 !(mulrDl, mulrDr, mul1r, mulr1).
  exact: step1_exp0.
exact: step1_exp1.
Qed.
End AacInst.

Section LinearExtra.
Context {F : fieldType} {V : lmodType F}.
Import Vec Transcript Linear Facts.

Variable Rng : Type.
Variable rand_scalar : Rng -> F * Rng.
Variable challenge_hash : @transcript F V -> string -> F.
Variable sha256_digest : string -> string.
Hypothesis Hnz : forall t l, challenge_hash t l != 0.

Lemma com_commit (h0 : V) (gs : seq V) (m : seq F) (r : F) :
  size m = size gs ->
  com_err (Pedersen.commit {| Pedersen.h := h0; Pedersen.vec_g := gs |} m r)
  = Ok (r *: h0 + IPARead.msum gs m).
Proof. by move=> Hs; rewrite /Pedersen.commit /= Hs eqxx /= (msm_some (esym Hs)). Qed.

Lemma map_mkseq' (h : F -> F) (f : nat -> F) (n : nat) :
  [seq h a | a <- mkseq f n] = mkseq (fun i => h (f i)) n.
Proof. by rewrite /mkseq -map_comp. Qed.

Lemma zipmap_mkseq (h : F * F -> F) (f g : nat -> F) (n : nat) :
  [seq h p | p <- zip (mkseq f n) (mkseq g n)] = mkseq (fun i => h (f i, g i)) n.
Proof.
rewrite /mkseq; elim: (iota 0 n) => [//|i s IH] /=.
by rewrite IH.
Qed.

Lemma nseq_mkseq (c : F) (n : nat) : nseq n c = mkseq (fun _ => c) n.
Proof.
apply: (@eq_from_nth _ 0); rewrite ?size_nseq ?size_mkseq // => i Hi.
by rewrite nth_nseq Hi nth_mkseq.
Qed.

Lemma powers_mkseq (y : F) (n : nat) : generate_powers y n = mkseq (fun i => y ^+ i.+1) n.
Proof.
apply: (@eq_from_nth _ 0); rewrite ?size_generate_powers ?size_mkseq // => i Hi.
by rewrite nth_generate_powers // nth_mkseq.
Qed.

Lemma ip_mkseq (f g : nat -> F) (n : nat) :
  IPARead.ip (mkseq f n) (mkseq g n) = \sum_(i < n) f i * g i.
Proof.
rewrite ip_sum ?size_mkseq //; apply: eq_bigr => i _.
by rewrite !nth_mkseq.
Qed.

Lemma msum_mkseq (gs : seq V) (f : nat -> F) (n : nat) :
  size gs = n -> IPARead.msum gs (mkseq f n) = \sum_(i < n) f i *: gs`_i.
Proof.
move=> Hs; rewrite msum_sum ?size_mkseq //; apply: eq_bigr => i _.
by rewrite nth_mkseq.
Qed.

Lemma msum_nseq0 (gs : seq V) (n : nat) : IPARead.msum gs (nseq n 0) = 0.
Proof.
elim: gs n => [|g gs IH] [|n]; rewrite ?msum_nil_l ?msum_nil_r //=.
by rewrite /IPARead.msum /= -/(IPARead.msum gs (nseq n 0)) IH scale0r addr0.
Qed.

Lemma step1_vec (hh hg : V) (ht d t1 t2 tau1 tau2 x : F) : ht = d + x * t1 + x * x * t2 ->
  ht *: hh + 0 + ((tau1 * x + tau2 * x * x) *: hg + 0) ==
  d *: hh + 0 + x *: (t1 *: hh + (tau1 *: hg + 0)) + (x * x) *: (t2 *: hh + (tau2 *: hg + 0)).
Proof.
move=> ->; apply/eqP; rewrite !addr0 !scalerDl !scalerDr !scalerA.
have -> : tau2 * x * x = x * x * tau2 by rewrite -mulrA mulrC.
rewrite [tau1 * x]mulrC.
exact: perm_step1.
Qed.

Lemma step2_vec (hg hh : V) (gG gH : seq V) (N : nat) (bf : nat -> F)
  (alpha beta x z s0 s1 y : F) : y != 0 ->
  (alpha + beta * x) *: hg
  + \sum_(i < N) ((bf i + (z + s0 * x)) * y ^+ i.+1 * y^-1 ^+ i.+1) *: gG`_i
  + (0 *: hh + \sum_(i < N) (1 - bf i + (z + s1 * x)) *: gH`_i) ==
  alpha *: hg + \sum_(i < N) bf i *: gG`_i + (0 *: hh + \sum_(i < N) (1 - bf i) *: gH`_i)
  + x *: (beta *: hg + \sum_(i < N) s0 *: gG`_i + (0 *: hh + \sum_(i < N) s1 *: gH`_i))
  + (0 *: hg + \sum_(i < N) z *: gG`_i) + (0 *: hh + \sum_(i < N) z *: gH`_i).
Proof.
move=> Hy; apply/eqP.
have Ey : forall i, y ^+ i * y^-1 ^+ i = 1 by move=> i; rewrite -exprMn mulfV // expr1n.
have -> : \sum_(i < N) ((bf i + (z + s0 * x)) * y ^+ i.+1 * y^-1 ^+ i.+1) *: gG`_i =
  \sum_(i < N) bf i *: gG`_i + \sum_(i < N) z *: gG`_i + x *: \sum_(i < N) s0 *: gG`_i.
  rewrite scaler_sumr -!big_split /=; apply: eq_bigr => i _.
  by rewrite -mulrA Ey mulr1 scalerA [x * s0]mulrC !scalerDl addrA.
have -> : \sum_(i < N) (1 - bf i + (z + s1 * x)) *: gH`_i =
  \sum_(i < N) (1 - bf i) *: gH`_i + \sum_(i < N) z *: gH`_i + x *: \sum_(i < N) s1 *: gH`_i.
  rewrite scaler_sumr -!big_split /=; apply: eq_bigr => i _.
  by rewrite scalerA [x * s1]mulrC !scalerDl addrA.
rewrite !scale0r !add0r !scalerDr scalerDl scalerA [x * beta]mulrC.
exact: perm_step2.
Qed.

Lemma step3_vec (pk : seq V) (N i0 : nat) (bf : nat -> F) (hk gk : V) (y z x s0 sk rs : F) :
  (i0 < N)%N -> (forall i, (i < N)%N -> bf i = (i == i0)%:R) -> pk`_i0 = sk *: gk ->
  \sum_(i < N) ((bf i + (z + s0 * x)) * y ^+ i.+1) *: pk`_i ==
  0 *: hk + ((0 + y ^+ i0.+1 * bf i0 * sk + rs * x) *: gk + 0) +
  x *: (\sum_(i < N) (s0 * y ^+ i.+1) *: pk`_i + (0 *: hk + (- rs *: gk + 0))) +
  \sum_(i < N) (y ^+ i.+1 * z) *: pk`_i.
Proof.
move=> Hi0 Hbf Hpk0; apply/eqP.
have Ebi : bf i0 = 1 by rewrite Hbf // eqxx.
have -> : \sum_(i < N) ((bf i + (z + s0 * x)) * y ^+ i.+1) *: pk`_i =
  y ^+ i0.+1 *: pk`_i0 + x *: \sum_(i < N) (s0 * y ^+ i.+1) *: pk`_i
  + \sum_(i < N) (y ^+ i.+1 * z) *: pk`_i.
  have -> : y ^+ i0.+1 *: pk`_i0 = \sum_(i < N) (bf i * y ^+ i.+1) *: pk`_i.
    rewrite (bigD1 (Ordinal Hi0)) //= Ebi mul1r big1 ?addr0 // => i Hne.
    have Hne' : (nat_of_ord i == i0) = false.
      by apply/negbTE; apply: contra Hne => /eqP Hi; apply/eqP; apply: val_inj.
    by rewrite Hbf // Hne' mul0r scale0r.
  rewrite scaler_sumr -!big_split /=; apply: eq_bigr => i _.
  rewrite scalerA !mulrDl !scalerDl [z * _]mulrC -mulrA [x * (s0 * _)]mulrCA addrA.
  by rewrite addrAC.
rewrite Hpk0 scalerA !scale0r !add0r !addr0 Ebi mulr1 scalerDl scalerDr scaleNr scalerN scalerA [rs * x]mulrC.
exact: perm_step3.
Qed.

Lemma count1_nth (T : eqType) (x0 x : T) (s : seq T) (i : nat) :
  count_mem x s = 1%N -> (i < size s)%N -> (nth x0 s i == x) = (i == seq.index x s).
Proof.
elim: s i => [//|y s IH] [|i] /=; first by case: (y == x).
case: (eqVneq y x) => [_|Hne] /=.
  rewrite add1n => -[] /count_memPn Hx Hi.
  by apply/negbTE; apply: contra Hx => /eqP <-; apply: mem_nth.
by rewrite add0n => Hc Hi; rewrite IH.
Qed.

Lemma assert_true {E : Type} (b : bool) (msg : string) : b -> (assert b msg : result unit E) = Ok tt.
Proof. by move=> ->. Qed.

Lemma constraints_bits (b : seq F) :
  all (fun p : F * F => p.1 + p.2 == 1) (zip b [seq 1 - x | x <- b]) &&
  all (fun p : F * F => p.1 * p.2 == 0) (zip b [seq 1 - x | x <- b])
  = all (fun x => (x == 0) || (x == 1)) b.
Proof.
elim: b => [//|x b IH] /=.
rewrite addrC subrK eqxx /= mulf_eq0 subr_eq0 [1 == x]eq_sym -IH.
by case: (all _ (zip b _)); case: (all _ (zip b _)); rewrite ?andbT ?andbF.
Qed.

Lemma fs_loop_single (pw bv vsk : seq F) (i0 i fuel j : nat) (sum : F) :
  (i + fuel <= size pw)%N -> (i + fuel <= size bv)%N ->
  (forall k, (i <= k < i + fuel)%N -> (pw`_k * bv`_k != 0) = (k == i0)) ->
  fs_loop pw bv vsk i fuel j sum =
  if (i <= i0 < i + fuel)%N then
    (if (j < size vsk)%N then Ok (j.+1, sum + pw`_i0 * bv`_i0 * vsk`_j)
     else Panic "index out of bounds"%string)
  else Ok (j, sum).
Proof.
elim: fuel i j sum => [|fuel IH] i j sum Hp Hb Ht /=.
  by rewrite addn0 ltnNge; case: (i <= i0)%N.
have Hi : (i < i + fuel.+1)%N by rewrite addnS ltnS leq_addr.
rewrite /index (leq_trans Hi Hp) (leq_trans Hi Hb) /= Ht ?leqnn //.
have Hp' : (i.+1 + fuel <= size pw)%N by rewrite addSnnS.
have Hb' : (i.+1 + fuel <= size bv)%N by rewrite addSnnS.
have Ht' : forall k, (i.+1 <= k < i.+1 + fuel)%N -> (pw`_k * bv`_k != 0) = (k == i0).
  move=> k /andP[H1 H2]; apply: Ht; rewrite -addSnnS H2 andbT.
  exact: ltnW.
case: (eqVneq i i0) => [Ei|Hne] /=.
  subst i0; rewrite leqnn Hi /=; case: (j < size vsk)%N => //=.
  by rewrite IH // ltnn.
rewrite IH // -addSnnS.
by have -> : (i <= i0)%N = (i.+1 <= i0)%N by rewrite ltn_neqAle Hne.
Qed.

Lemma prove_verify_honest (rng : Rng) (params : RingSignatureParams) (sk : F) (i0 : nat)
  (hg hh hk gk : V) (gG gH : seq V) (b : seq F) :
  let N := num_pub_inputs params in
  com_parameters params = [:: {| Pedersen.h := hg; Pedersen.vec_g := gG |};
                              {| Pedersen.h := hh; Pedersen.vec_g := gH |};
                              {| Pedersen.h := hk; Pedersen.vec_g := [:: gk] |}] ->
  size gG = N -> size gH = N -> size (vec_pk params) = N -> size b = N -> (i0 < N)%N ->
  (forall i, (i < N)%N -> b`_i = (i == i0)%:R) -> (vec_pk params)`_i0 = sk *: gk ->
  exists proof, prove rand_scalar challenge_hash sha256_digest rng params (sk :: b) = Ok proof
    /\ verify challenge_hash sha256_digest params proof = Ok true.
Proof.
move=> N Hcp HgG HgH Hpk Hb Hi0 Hbi Hsk.
have Hb01 : all (fun x => (x == 0) || (x == 1)) b.
  apply/(all_nthP 0) => i; rewrite Hb => Hi; rewrite Hbi //.
  by case: (i == i0); rewrite ?eqxx ?orbT.
rewrite /prove /prove_round1 /prove_round3 /prove_round4
  /append_serializable_element /append_message /new /get_and_append_challenge Hcp /= -/N Hb.
have -> : (N.+1 < N)%N = false by rewrite ltnNge leqnSn.
rewrite subSnn /= drop0 constraints_bits Hb01 /=.
case: (rand_scalar rng) => alpha rng1 /=.
case: (rand_scalar rng1) => beta rng2 /=.
case: (rand_scalar rng2) => s0 rng3 /=.
case: (rand_scalar rng3) => s1 rng4 /=.
rewrite com_commit ?HgG //=.
rewrite com_commit ?size_map ?HgH //=.
rewrite com_commit ?size_nseq ?HgG //=.
rewrite com_commit ?size_nseq ?size_map ?HgH //=.
rewrite Hb.
set cA := alpha *: hg + _ + _.
set cB := beta *: hg + _ + _.
set y := challenge_hash _ "challenge y".
set z := challenge_hash _ "challenge z".
set pw := generate_powers y N.
rewrite hadamard_ok; try by rewrite ?(size_map, size_zip, size_nseq, size_generate_powers, Hb, minnn).
rewrite /=.
rewrite vec_add_ok; try by rewrite ?(size_map, size_zip, size_nseq, size_generate_powers, Hb, minnn).
rewrite /=.
rewrite vec_add_ok; try by rewrite ?(size_map, size_zip, size_nseq, size_generate_powers, Hb, minnn).
rewrite /=.
rewrite hadamard_ok; try by rewrite ?(size_map, size_zip, size_nseq, size_generate_powers, Hb, minnn).
rewrite /=.
rewrite inner_product_ok; try by rewrite ?(size_map, size_zip, size_nseq, size_generate_powers, Hb, minnn).
rewrite /=.
rewrite inner_product_ok; try by rewrite ?(size_map, size_zip, size_nseq, size_generate_powers, Hb, minnn).
rewrite inner_product_ok; try by rewrite ?(size_map, size_zip, size_nseq, size_generate_powers, Hb, minnn).
rewrite /=.
case: (rand_scalar rng4) => rs rng5 /=.
case: (rand_scalar rng5) => tau1 rng6 /=.
case: (rand_scalar rng6) => tau2 rng7 /=.
rewrite msm_some; try by rewrite ?(size_map, size_zip, size_nseq, size_generate_powers, Hb, Hpk, minnn).
rewrite /=.
set x := challenge_hash _ "challenge x".
rewrite vec_add_ok; try by rewrite ?(size_map, size_zip, size_nseq, size_generate_powers, Hb, Hpk, minnn).
rewrite /=.
rewrite vec_add_ok; try by rewrite ?(size_map, size_zip, size_nseq, size_generate_powers, Hb, Hpk, minnn).
rewrite /=.
rewrite hadamard_ok; try by rewrite ?(size_map, size_zip, size_nseq, size_generate_powers, Hb, Hpk, minnn).
rewrite /=.
rewrite vec_add_ok; try by rewrite ?(size_map, size_zip, size_nseq, size_generate_powers, Hb, Hpk, minnn).
rewrite /=.
rewrite vec_add_ok; try by rewrite ?(size_map, size_zip, size_nseq, size_generate_powers, Hb, Hpk, minnn).
rewrite /=.
rewrite inner_product_ok; try by rewrite ?(size_map, size_zip, size_nseq, size_generate_powers, Hb, Hpk, minnn).
rewrite /=.
have Hy : y != 0 by apply: Hnz.
rewrite (@fs_loop_single _ _ _ i0); [by rewrite /pw size_generate_powers add0n|by rewrite Hb add0n| |].
  move=> k /andP[_ Hk]; rewrite add0n in Hk.
  rewrite /pw nth_generate_powers // Hbi // mulf_eq0 negb_or expf_eq0 (negbTE Hy) andbF /=.
  by case: (k == i0); rewrite ?oner_eq0 ?eqxx.
rewrite Hi0 /= take0 /=.
eexists; split; first reflexivity.
rewrite /verify /append_serializable_element /append_message /new /get_and_append_challenge Hcp /=.
rewrite -/y -/z -/x -/N String.eqb_refl /= !eqxx /=.
rewrite inner_product_ok; try by rewrite ?(size_map, size_zip, size_nseq, size_generate_powers, Hb, Hpk, minnn).
rewrite /=.
do 3 rewrite com_commit ?size_nseq ?HgG ?HgH //=.
set bf := nth 0 b.
have Eb : b = mkseq bf N by rewrite /bf -Hb mkseq_nth.
rewrite assert_true.
  rewrite !msum_nseq0 /pw powers_mkseq Eb /scalar_product ?nseq_mkseq.
  rewrite ?(map_mkseq', zipmap_mkseq) ?ip_mkseq /=.
  apply: step1_vec.
  rewrite [_ * (z + z * z)]mulr_suml [x * (_ + _)]mulrDr !mulr_sumr -!big_split /=; apply: eq_bigr => i _.
  apply: step1_idx.
  rewrite /bf Hbi //; case: (nat_of_ord i == i0); [right|left]; done.
rewrite /= /inverse_unwrap (negbTE Hy) /=.
rewrite hadamard_ok; try by rewrite ?(size_map, size_zip, size_nseq, size_generate_powers, Hb, Hpk, minnn).
rewrite /=.
do 4 (rewrite com_commit; try by rewrite ?(size_map, size_zip, size_nseq, size_generate_powers, Hb, minnn, HgG, HgH)); rewrite /=.
rewrite assert_true.
  rewrite /cA /cB /pw !powers_mkseq Eb /scalar_product ?nseq_mkseq.
  rewrite ?(map_mkseq', zipmap_mkseq) /=.
  rewrite !msum_mkseq //.
  exact: step2_vec.
rewrite /=.
do 2 (rewrite msm_some; try by rewrite ?(size_map, size_zip, size_nseq, size_generate_powers, Hb, minnn, Hpk)); rewrite /=.
rewrite assert_true.
  rewrite /pw !powers_mkseq Eb /scalar_product ?nseq_mkseq.
  rewrite ?(map_mkseq', zipmap_mkseq) /= nth_mkseq //.
  rewrite !msum_mkseq //.
  exact: (step3_vec _ _ _ _ _ _ Hi0 Hbi Hsk).
rewrite /= inner_product_ok; try by rewrite ?(size_map, size_zip, size_nseq, size_generate_powers, Hb, minnn).
by rewrite /= eqxx.
Qed.

(** Completeness of the linear ring signature: for a one-hot selector [b] whose key position holds [sk g_k], the honest proof verifies. *)
Theorem linear_completeness (rng : Rng) (params : RingSignatureParams) (sk : F) (i0 : nat)
  (hg hh hk gk : V) (gG gH : seq V) (b : seq F) :
  let N := num_pub_inputs params in
  com_parameters params = [:: {| Pedersen.h := hg; Pedersen.vec_g := gG |};
                              {| Pedersen.h := hh; Pedersen.vec_g := gH |};
                              {| Pedersen.h := hk; Pedersen.vec_g := [:: gk] |}] ->
  size gG = N -> size gH = N -> size (vec_pk params) = N -> size b = N -> (i0 < N)%N ->
  (forall i, (i < N)%N -> b`_i = (i == i0)%:R) -> (vec_pk params)`_i0 = sk *: gk ->
  exists proof, prove rand_scalar challenge_hash sha256_digest rng params (sk :: b) = Ok proof
    /\ verify challenge_hash sha256_digest params proof = Ok true.
Proof. exact: prove_verify_honest. Qed.
Variable rand_point : Rng -> V * Rng.
Variable generator : V.
Variable thread_shuffle : seq V -> seq V.

(** A proof made from the parameters and witness of a successful [setup] verifies when the key occurs once in the ring. *)
Theorem linear_setup_completeness (rng rng' : Rng) (sk : F) (msg : string) (s : nat) params wit :
  (forall l, size (thread_shuffle l) = size l) ->
  setup rand_scalar rand_point generator thread_shuffle rng [:: sk] msg s = Ok (params, wit, rng') ->
  count_mem (sk *: (Pedersen.vec_g (nth no_params (com_parameters params) 2))`_0) (vec_pk params) = 1%N ->
  exists proof, prove rand_scalar challenge_hash sha256_digest rng params wit = Ok proof
    /\ verify challenge_hash sha256_digest params proof = Ok true.
Proof.
move=> Hsh.
rewrite /setup /pedersen_setup /Pedersen.setup.
case: (rand_scalar rng) => h1 r1 /=; case: (rand_point r1) => p1 r2 /=.
case: (rand_scalar r2) => h2 r3 /=; case: (rand_point r3) => p2 r4 /=.
case: (rand_scalar r4) => h3 r5 /=; case: (rand_point r5) => p3 r6 /=.
case: (rand_point r6) => pt r7 /=.
rewrite scale0r add0r addr0.
case: eqP => // Hs0; case=> <- <- _ /=.
set pk := sk *: p3; set ring := thread_shuffle _ => Hcnt.
have Hsz : size ring = s by rewrite Hsh size_rcons size_nseq subn1 prednK // lt0n; apply/eqP.
have Hin : pk \in ring by rewrite -has_pred1 has_count Hcnt.
apply: (@prove_verify_honest _ _ _ (seq.index pk ring) _ _ _ p3 (nseq s p1) (nseq s p2)) => //=.
- by rewrite size_nseq.
- by rewrite size_nseq.
- by rewrite size_map.
- by rewrite -Hsz index_mem.
- move=> i Hi; rewrite (nth_map 0) ?Hsz // eq_sym (count1_nth 0 Hcnt) ?Hsz //.
  by case: (i == seq.index pk ring).
- exact: nth_index.
Qed.
(** The linear prover panics on a witness shorter than the ring or whose selector part is not a bit vector. *)
Theorem linear_prove_rejects_bad_witness (rng : Rng) (params : RingSignatureParams) (wit : seq F) :
  (2 < size (com_parameters params))%N ->
  let N := num_pub_inputs params in
  ((size wit < N)%N ->
     prove rand_scalar challenge_hash sha256_digest rng params wit
     = Panic "attempt to subtract with overflow"%string) /\
  ((N <= size wit)%N -> ~~ all (fun x => (x == 0) || (x == 1)) (drop (size wit - N) wit) ->
     prove rand_scalar challenge_hash sha256_digest rng params wit
     = Panic "assertion failed: constraint_1 && constraint_2"%string).
Proof.
rewrite /prove /prove_round1.
case: (com_parameters params) => [|c0 [|c1 [|c2 cps]]] //= _.
split=> [Hlt|Hge Hbad]; first by rewrite Hlt.
by rewrite ltnNge Hge /= constraints_bits (negbTE Hbad).
Qed.

(** Linear [setup] fails for a secret key vector that is not of length one, panics for ring size [0], and succeeds otherwise. *)
Theorem linear_setup_outcomes (rng : Rng) (wit : seq F) (msg : string) (s : nat) :
  ((size wit != 1)%N ->
     setup rand_scalar rand_point generator thread_shuffle rng wit msg s
     = Err (SigmaErrors.CommitmentErrors (CommitmentErrors.InvalidParameters
              "message length should equal to the generator length"%string))) /\
  (size wit = 1%N ->
     setup rand_scalar rand_point generator thread_shuffle rng wit msg 0
     = Panic "attempt to subtract with overflow"%string) /\
  (size wit = 1%N -> (0 < s)%N ->
     exists params wit' rng',
       setup rand_scalar rand_point generator thread_shuffle rng wit msg s = Ok (params, wit', rng')
       /\ num_pub_inputs params = s /\ size (com_parameters params) = 3%N).
Proof.
rewrite /setup /pedersen_setup /Pedersen.setup.
case: (rand_scalar rng) => h1 r1 /=; case: (rand_point r1) => p1 r2 /=.
case: (rand_scalar r2) => h2 r3 /=; case: (rand_point r3) => p2 r4 /=.
case: (rand_scalar r4) => h3 r5 /=; case: (rand_point r5) => p3 r6 /=.
rewrite /Pedersen.commit /=.
split; first by move=> /negbTE ->.
split=> [Hw|Hw Hs]; rewrite Hw /= (msm_some (bs:=[:: p3])) ?Hw //=;
  case: (rand_point r6) => pt r7 //=.
by case: eqP Hs => [->|_ _] //; do 3 eexists.
Qed.
End LinearExtra.
End LinearExtra.

Module CompressedExtra.
Section CompressedExtra.
Context {F : fieldType} {V : lmodType F}.
Import Vec Linear Compressed Facts LinearExtra.

Variable Rng : Type.
Variable rand_scalar : Rng -> F * Rng.
Variable rand_point : Rng -> V * Rng.
Variable generator : V.
Variable thread_shuffle : seq V -> seq V.

(** Compressed [setup] builds a ring of [2 s] keys for [s] public inputs; the prover's commitment [A] covers only the last [s] selector bits. *)
Theorem compressed_setup_commitments (rng rng2 : Rng) (sk : F) (msg : string) (s : nat) :
  (forall l, size (thread_shuffle l) = size l) -> (0 < s)%N ->
  exists params wit' rng',
    Compressed.setup rand_scalar rand_point generator thread_shuffle rng [:: sk] msg s
      = Ok (params, wit', rng') /\
    num_pub_inputs params = s /\ size (vec_pk params) = (2 * s)%N /\ size wit' = (2 * s).+1 /\
    exists c, prove_commitments rand_scalar rng2 params wit' = Ok c /\
      head 0 (c_points c) =
        (c_alpha c)`_0 *: Pedersen.h (nth no_params (com_parameters params) 0)
        + IPARead.msum (Pedersen.vec_g (nth no_params (com_parameters params) 0)) (drop s.+1 wit')
        + IPARead.msum (Pedersen.vec_g (nth no_params (com_parameters params) 1))
            [seq 1 - x | x <- drop s.+1 wit'].
Proof.
move=> Hsh Hs.
rewrite /Compressed.setup /Compressed.pedersen_setup /Pedersen.setup.
case: (rand_scalar rng) => h1 r1 /=; case: (rand_point r1) => p1 r2 /=.
case: (rand_scalar r2) => h2 r3 /=; case: (rand_point r3) => p2 r4 /=.
case: (rand_scalar r4) => h3 r5 /=; case: (rand_point r5) => p3 r6 /=.
case: (rand_scalar r6) => h4 r7 /=; case: (rand_point r7) => p4 r8 /=.
case: (rand_scalar r8) => h5 r9 /=; case: (rand_point r9) => p5 r10 /=.
rewrite /Pedersen.commit /=.
case: (rand_point r10) => pt r11 /=.
have -> : (s == 0%N) = false by apply/negbTE; rewrite -lt0n.
rewrite scale0r add0r addr0.
set pk := sk *: p5; set ring := thread_shuffle _; set bv := [seq _ | q <- ring].
have Hring : size ring = (2 * s)%N.
  by rewrite Hsh size_rcons size_nseq subn1 prednK // muln_gt0.
have Hbv : size bv = (2 * s)%N by rewrite size_map.
do 3 eexists; split; first reflexivity.
rewrite /= Hring Hbv; do 3 (split; first by []).
rewrite /prove_commitments /= Hbv.
have -> : ((2 * s).+1 < s)%N = false by rewrite ltnNge ltnW // ltnS mul2n -addnn leq_addl.
have -> : ((2 * s).+1 - s = s.+1)%N by rewrite subSn ?mul2n -?addnn ?addnK // leq_addl.
set b := drop s.+1 (sk :: bv).
have Hb : size b = s by rewrite size_drop /= Hbv mul2n -addnn subSS addnK.
have Hb01 : all (fun x => (x == 0) || (x == 1)) b.
  rewrite /b /=; apply/allP => x /mem_drop /mapP [q _ ->].
  by case: ifP; rewrite eqxx ?orbT.
rewrite constraints_bits Hb01 /= Hb Hs.
have Hb2 : size [seq p.1 - p.2 | p <- zip b (1 :: nseq (s - 1) 0)] = s.
  by rewrite size_map size_zip Hb /= size_nseq subn1 prednK // minnn.
case: (rand_scalar rng2) => a1 q1; case: (rand_scalar q1) => a2 q2.
case: (rand_scalar q2) => a3 q3; case: (rand_scalar q3) => a4 q4.
case: (rand_scalar q4) => s0 q5; case: (rand_scalar q5) => s1 q6.
case: (rand_scalar q6) => s2 q7; case: (rand_scalar q7) => s3 q8.
rewrite !com_commit; try by rewrite ?Hb2 ?size_map ?size_zip ?size_nseq ?Hb ?Hb2 ?minnn.
eexists; split; first reflexivity.
by rewrite /= scale0r add0r.
Qed.

End CompressedExtra.
End CompressedExtra.

(** * Concrete instances *)

Module Witnesses.
Import Concrete.

Lemma hash_nz_ne0 (t : @Transcript.transcript Fq Vq) (l : string) : hash_nz t l != 0.
Proof. by rewrite /hash_nz; case: ifP => [_|/negbT //]; exact: oner_neq0. Qed.

(** C10 at [g = 2], [h = 1], [m = [3]], [r = 4]: the commitment exists and opens. *)
Lemma pedersen_commit_verify_witness :
  exists cm, Pedersen.commit {| Pedersen.h := (1 : Vq); Pedersen.vec_g := [:: (2%:R : Vq)] |}
                             [:: (3%:R : Fq)] 4%:R = Ok cm /\
    (op <- Pedersen.open [:: (3%:R : Fq)] 4%:R ;;
     Pedersen.verify {| Pedersen.h := (1 : Vq); Pedersen.vec_g := [:: (2%:R : Vq)] |} cm op)
    = Ok true.
Proof.
have Hok : (if Pedersen.commit {| Pedersen.h := (1 : Vq); Pedersen.vec_g := [:: (2%:R : Vq)] |}
               [:: (3%:R : Fq)] 4%:R is Ok _ then true else false) = true by vm_compute.
case E: (Pedersen.commit _ _ _) Hok => [cm|e|m] // _.
exists cm; split; first reflexivity.
exact: (proj2 (PedersenProps.pedersen_commit_verify _ _ _) cm E).
Defined.

(** C4 with the identity permutation on the ring [[1; 2]] and [pk = 2]. *)
Lemma shuffle_indicator_witness :
  perm_eq (id [:: (1 : Vq); 2%:R]) [:: 1; 2%:R] /\
  (Vec.shuffle id [:: (1 : Vq); 2%:R] 2%:R).2`_1 = 1.
Proof.
have Hp : perm_eq (id [:: (1 : Vq); 2%:R]) [:: 1; 2%:R] by exact: perm_refl.
split; first exact: Hp.
case: (@VecProps.shuffle_indicator Fq Vq id [:: 1; 2%:R] 2%:R Hp) => _ [_ [Hi _]].
by rewrite (Hi 1%N) //; vm_compute.
Defined.

(** C6 with the counter generator and the identity permutation: the linear
    ring of three keys ([supported_size = 3]) and the compressed ring of four
    keys ([supported_size = 2]). *)
Lemma setup_ring_decoys_equal_witness :
  (exists params wit' rng', setupL3 = Ok (params, wit', rng') /\
    exists d pk : Vq,
      Pedersen.commit (nth Linear.no_params (Linear.com_parameters params) 2) [:: 5%:R] 0 = Ok pk /\
      perm_eq (Linear.vec_pk params) (rcons (nseq (3 - 1) d) pk) /\
      all (fun q => (q == d) || (q == pk)) (Linear.vec_pk params)) /\
  (exists params wit' rng', setupC2 = Ok (params, wit', rng') /\
    exists d pk : Vq,
      Pedersen.commit (nth Linear.no_params (Linear.com_parameters params) 4) [:: 5%:R] 0 = Ok pk /\
      perm_eq (Linear.vec_pk params) (rcons (nseq (2 * 2 - 1) d) pk) /\
      all (fun q => (q == d) || (q == pk)) (Linear.vec_pk params)).
Proof.
pose proof (RingProps.setup_ring_decoys_equal rng_scalar rng_point 1 0 [:: 5%:R] "msg" 3
              (fun s => perm_refl s)) as HL.
pose proof (RingProps.setup_ring_decoys_equal rng_scalar rng_point 1 0 [:: 5%:R] "msg" 2
              (fun s => perm_refl s)) as HC.
split.
  have Hok : (if setupL3 is Ok _ then true else false) = true by vm_compute.
  case E: setupL3 Hok => [[[p w] r]|e|m] // _.
  exists p, w, r; split; first reflexivity.
  exact: (HL.1 p w r E).
have Hok : (if setupC2 is Ok _ then true else false) = true by vm_compute.
case E: setupC2 Hok => [[[p w] r]|e|m] // _.
exists p, w, r; split; first reflexivity.
exact: (HC.2 p w r E).
Defined.

(** C7 on the parameters and witness [setupL] returns. *)
Lemma prover_masks_repeated_witness :
  exists s1, Linear.prove_round1 rng_scalar hash_nz rngL paramsL witL = Ok s1 /\
    exists c0 c1, Linear.r1_r0 s1 = nseq (Linear.num_pub_inputs paramsL) c0 /\
                  Linear.r1_r1 s1 = nseq (Linear.num_pub_inputs paramsL) c1.
Proof.
remember (Linear.prove_round1 rng_scalar hash_nz rngL paramsL witL) as r eqn:E.
have Hok : (if r is Ok _ then true else false) = true by rewrite E; vm_compute.
destruct r as [s1|e|m]; [|discriminate Hok|discriminate Hok].
exists s1; split; first reflexivity.
exact: ((RingProps.prover_masks_repeated rng_scalar hash_nz rngL paramsL witL).1 s1 (esym E)).
Defined.

(** C8 on the same run of the linear prover. *)
Lemma prover_openings_witness :
  exists proof, Linear.prove rng_scalar hash_nz sha rngL paramsL witL = Ok proof /\
    exists s1 s3, Linear.prove_round3 rng_scalar hash_nz sha paramsL s1 = Ok s3 /\
      Linear.taux (Linear.openings proof) = Linear.r3_tau1 s3 * Linear.r3_x s3
                                            + Linear.r3_tau2 s3 * Linear.r3_x s3 ^+ 2.
Proof.
remember (Linear.prove rng_scalar hash_nz sha rngL paramsL witL) as r eqn:E.
have Hok : (if r is Ok _ then true else false) = true by rewrite E; vm_compute.
destruct r as [pf|e|m]; [|discriminate Hok|discriminate Hok].
exists pf; split; first reflexivity.
case: (RingProps.prover_openings (esym E)) => s1 [s3 [_ [H3 [_ [_ [_ [_ [Ht _]]]]]]]].
exists s1, s3; exact (conj H3 Ht).
Defined.

(** C3: the digests of [proofL_bad] and [proofC_bad] are not the message's;
    the linear and the compressed verifiers both panic. *)
Lemma ring_verify_outcomes_witness :
  Linear.verify hash_nz sha paramsL proofL_bad = Panic Linear.assert_eq_msg /\
  Compressed.verify hash_nz sha paramsC proofC_bad = Panic Linear.assert_eq_msg.
Proof.
have H1 : (3 <= size (Linear.com_parameters paramsL))%N by vm_compute.
have H2 : (5 <= size (Linear.commitments proofL_bad))%N by vm_compute.
have H3 : sha (Linear.message paramsL) <> Linear.digest proofL_bad.
  move=> H.
  have : String.eqb (sha (Linear.message paramsL)) (Linear.digest proofL_bad) = false
    by vm_compute.
  by rewrite H String.eqb_refl.
have HC3 : sha (Linear.message paramsC) <> Compressed.digest proofC_bad.
  move=> H.
  have : String.eqb (sha (Linear.message paramsC)) (Compressed.digest proofC_bad) = false
    by vm_compute.
  by rewrite H String.eqb_refl.
pose proof (@VerifyProps.ring_verify_outcomes Fq Vq hash_nz sha paramsL proofL_bad) as HL.
destruct HL as [_ [HL _]].
pose proof (@VerifyProps.ring_verify_outcomes Fq Vq hash_nz sha paramsC proofL_bad) as HC.
destruct HC as [_ [_ HC]].
split; first exact (HL H1 H2 H3).
apply: (HC proofC_bad) HC3.
- by vm_compute.
- by vm_compute.
- by vm_compute.
- by vm_compute.
- move=> [|[|[|[|i]]]] //= _; vm_compute; reflexivity.
- vm_compute; reflexivity.
- vm_compute; reflexivity.
Defined.

(** C3: failing verifications that are panics, not [Err InvalidProof]. *)
Lemma ring_verify_digest_panics :
  Linear.verify hash_nz sha paramsL proofL_bad = Panic Linear.assert_eq_msg /\
  Compressed.verify hash_nz sha paramsC proofC_bad = Panic Linear.assert_eq_msg.
Proof.
split.
  have H : (if Linear.verify hash_nz sha paramsL proofL_bad is Panic m
            then String.eqb m Linear.assert_eq_msg else false) = true by vm_compute.
  case: (Linear.verify _ _ _ _) H => // m /String.eqb_eq ->.
  by [].
have H : (if Compressed.verify hash_nz sha paramsC proofC_bad is Panic m
          then String.eqb m Linear.assert_eq_msg else false) = true by vm_compute.
case: (Compressed.verify _ _ _ _) H => // m /String.eqb_eq ->.
by [].
Qed.

(** C9 at [a = [7]], [b = [3]] on the parameters of length [1]. *)
Lemma ipa_single_witness :
  IPA.prove hash_nz ipa_params1 [:: 7%:R] [:: 3%:R] =
    Ok {| IPA.vec_L := [::]; IPA.vec_R := [::]; IPA.a := 7%:R; IPA.b := 3%:R;
          IPA.challenges := [::] |}.
Proof.
exact (proj1 (@IPAProps.ipa_single Fq Vq hash_nz ipa_params1 7%:R 3%:R erefl erefl erefl erefl)).
Defined.

(** C1 at [k = 1] on the parameters of length [2]. *)
Lemma ipa_completeness_witness :
  exists proof,
    IPA.prove hash_nz ipa_params2 [:: 1; 2%:R] [:: 3%:R; 4%:R] = Ok proof /\
    IPA.verify hash_nz (2 ^ 1)
      (IPARead.msum (IPA.vec_G ipa_params2)
         [seq p.1 * p.2 | p <- zip [:: 1; 2%:R] (IPA.factors_G ipa_params2)]
       + IPARead.msum (IPA.vec_H ipa_params2)
           [seq p.1 * p.2 | p <- zip [:: 3%:R; 4%:R] (IPA.factors_H ipa_params2)]
       + IPARead.ip [:: 1; 2%:R] [:: 3%:R; 4%:R] *: IPA.u ipa_params2) ipa_params2 proof = Ok tt.
Proof.
exact (@IPAProps.ipa_completeness Fq Vq hash_nz hash_nz_ne0 ipa_params2 [:: 1; 2%:R] [:: 3%:R; 4%:R] 1
         erefl erefl erefl erefl erefl erefl).
Defined.

(** C1: with vectors of length [2^32] the honest proof has [32] points [L]
    and [verify] refuses it as too large. *)
Lemma ipa_completeness_cex :
  exists proof,
    IPA.prove hash_nz ipa_params_big vec_big vec_big = Ok proof /\
    IPA.verify hash_nz (2 ^ 32) P_big ipa_params_big proof =
      Err (SigmaErrors.InvalidParameters "vector size is too large").
Proof.
pose s0 := IPARead.scaled ipa_params_big (IPARead.init_state ipa_params_big vec_big vec_big).
pose R := IPARead.rounds hash_nz (IPA.u ipa_params_big) 32 s0.
have Hp := @IPAProps.prove_ok Fq Vq hash_nz hash_nz_ne0 ipa_params_big vec_big vec_big 32
             (size_nseq _ _) (size_nseq _ _) (size_nseq _ _) (size_nseq _ _)
             (size_nseq _ _) (size_nseq _ _).
have Hs0 : IPARead.shaped 32 (IPARead.init_state ipa_params_big vec_big vec_big).
  rewrite /IPARead.shaped.
  do 4 (split; first exact (size_nseq _ _)); exact (size_nseq _ _).
have Hsc := IPAProps.scaled_shaped (params:=ipa_params_big) Hs0 (size_nseq _ _) (size_nseq _ _).
case: (@IPAProps.rounds_shaped Fq Vq hash_nz (IPA.u ipa_params_big) 32 32 s0 (leqnn 32) Hsc)
  => _ HL _ _.
have HL' : (32 <= size (IPA.vec_L (IPARead.proof_of R)))%N.
  change (32 <= size (IPA.st_L R))%N. rewrite HL. exact (leqnn 32).
have Hv : forall (n : nat) (P : Vq) (pr : @IPA.InnerProductProof Fq Vq),
    size (IPA.vec_G ipa_params_big) = n -> (32 <= size (IPA.vec_L pr))%N ->
    IPA.verify hash_nz n P ipa_params_big pr =
      Err (SigmaErrors.InvalidParameters "vector size is too large").
  move=> n P pr Hn Hl; rewrite /IPA.verify Hn eqxx.
  cbv beta iota zeta delta [bind assert].
  rewrite Hl; reflexivity.
exists (IPARead.proof_of R); split; first exact Hp.
exact (Hv _ _ _ (size_nseq _ _) HL').
Qed.

(** C4: a key absent from the ring gives the all-zero vector, no failure. *)
Lemma shuffle_absent_key :
  Vec.shuffle (F:=Fq) id [:: (1 : Vq); 2%:R] 3%:R = ([:: 1; 2%:R], [:: 0; 0]).
Proof. reflexivity. Qed.

(** C5 at [n = 2]: a challenge [0] that the transcript does not yield, with
    an extra [R] point and challenge; and a generator vector of the wrong
    length, on which [verify] panics. *)
Lemma ipa_input_validation_witness :
  IPA.verify hash_nz 2 0 ipa_params2 ipa_bad_challenge_long =
    Err (SigmaErrors.InvalidProof "invalid challenge value") /\
  IPA.verify hash_nz 1 0 ipa_params_empty ipa_proof32 =
    Panic "assertion `left == right` failed".
Proof.
have Hmis : (IPARead.replay hash_nz
               (Transcript.append_field_element (Transcript.new "RingSignature") "IPAsize" 2%:R)
               (IPA.vec_L ipa_bad_challenge_long) (IPA.vec_R ipa_bad_challenge_long)).2
            != take (size (IPA.vec_L ipa_bad_challenge_long)) (IPA.challenges ipa_bad_challenge_long)
  by vm_compute.
have Hsz : size (IPA.vec_G ipa_params_empty) != 1%N by vm_compute.
pose proof (@IPAProps.ipa_input_validation Fq Vq hash_nz) as HH.
destruct HH as [_ [_ [H3 [_ [_ H5]]]]].
split.
  exact (H5 hash_nz_ne0 2 0 ipa_params2 ipa_bad_challenge_long erefl erefl erefl erefl erefl Hmis).
exact (H3 1%N 0 ipa_params_empty ipa_proof32 Hsz).
Defined.

(** C5: a generator vector shorter than [n] makes [verify] panic on its
    [assert_eq!], before any length check returns an error. *)
Lemma ipa_verify_size_panics :
  IPA.verify hash_nz 1 0 ipa_params_empty ipa_proof32 =
    Panic "assertion `left == right` failed".
Proof. reflexivity. Qed.

End Witnesses.

(** ** Instances of the further properties *)
Module ExtraWitnesses.
Import Concrete.

Lemma hash_nz_nonzero (t : @Transcript.transcript Fq Vq) (l : string) : hash_nz t l != 0.
Proof. by rewrite /hash_nz; case: ifP => [_|/negbT //]; exact: oner_neq0. Qed.

Lemma generate_powers_inverse_witness :
  (2%:R : Fq) != 0 /\
  Vec.hadamard_product (Vec.generate_powers (2%:R : Fq) 3) (Vec.generate_powers (2%:R)^-1 3)
    = (Ok (nseq 3 1) : result (seq Fq) unit).
Proof.
have H : (2%:R : Fq) != 0 by vm_compute.
split; first exact H.
exact: (@VecExtra.generate_powers_inverse Fq unit 2%:R 3 H).
Defined.

Lemma pedersen_commit_add_witness :
  exists c1 c2 : Vq,
    Pedersen.commit {| Pedersen.h := (1 : Vq); Pedersen.vec_g := [:: (2%:R : Vq)] |} [:: (3%:R : Fq)] 4%:R
      = Ok c1 /\
    Pedersen.commit {| Pedersen.h := (1 : Vq); Pedersen.vec_g := [:: (2%:R : Vq)] |} [:: (5%:R : Fq)] 6%:R
      = Ok c2 /\
    (m <- Vec.vec_add [:: (3%:R : Fq)] [:: 5%:R] ;;
     Pedersen.commit {| Pedersen.h := (1 : Vq); Pedersen.vec_g := [:: (2%:R : Vq)] |} m (4%:R + 6%:R))
      = Ok (c1 + c2).
Proof.
have H1 : (if Pedersen.commit {| Pedersen.h := (1 : Vq); Pedersen.vec_g := [:: (2%:R : Vq)] |}
               [:: (3%:R : Fq)] 4%:R is Ok _ then true else false) = true by vm_compute.
have H2 : (if Pedersen.commit {| Pedersen.h := (1 : Vq); Pedersen.vec_g := [:: (2%:R : Vq)] |}
               [:: (5%:R : Fq)] 6%:R is Ok _ then true else false) = true by vm_compute.
case E1: (Pedersen.commit _ [:: (3%:R : Fq)] _) H1 => [c1|e|m] // _.
case E2: (Pedersen.commit _ [:: (5%:R : Fq)] _) H2 => [c2|e|m] // _.
exists c1, c2; split; first reflexivity; split; first reflexivity.
exact: (PedersenExtra.pedersen_commit_add E1 E2).
Defined.

Lemma pedersen_setup_collision_witness :
  exists params rng',
    Pedersen.setup rng_scalar rng_point (1 : Vq) 0 2 = Ok (params, rng') /\
    Pedersen.commit params [:: (1 : Fq); 2%:R] 7%:R = Pedersen.commit params [:: 2%:R; 1] 7%:R.
Proof.
have Hok : (if Pedersen.setup rng_scalar rng_point (1 : Vq) 0 2 is Ok _ then true else false) = true
  by vm_compute.
case E: (Pedersen.setup _ _ _ _ _) Hok => [[p r]|e|m] // _.
exists p, r; split; first reflexivity.
have Hs : \sum_(i < 2) [:: (1 : Fq); 2%:R]`_i = \sum_(i < 2) [:: (2%:R : Fq); 1]`_i.
  by rewrite !big_ord_recl !big_ord0 /= addrA [1 + _]addrC -addrA.
exact: (@PedersenExtra.pedersen_setup_collision Fq Vq nat rng_scalar rng_point 1 0 r 2 p
          [:: 1; 2%:R] [:: 2%:R; 1] 7%:R E erefl erefl Hs).
Defined.

Lemma ipa_prove_never_panics_witness :
  (forall t l, hash_nz t l != 0) /\
  outcome okT
    (fun e => e = SigmaErrors.InvalidParameters "vectors length are different" \/
              e = SigmaErrors.InvalidParameters "vector length is not power of two")
    (fun _ => False) (IPA.prove hash_nz ipa_params2 [:: 1; 2%:R] [:: 3%:R]).
Proof.
split; first exact hash_nz_nonzero.
exact: (@IPAExtra.prove_never_panics Fq Vq hash_nz hash_nz_nonzero ipa_params2 [:: 1; 2%:R] [:: 3%:R]).
Defined.

Lemma ipa_prove_challenges_replay_witness :
  exists proof, IPA.prove hash_nz ipa_params2 [:: 1; 2%:R] [:: 3%:R; 4%:R] = Ok proof /\
    (2 = 2 ^ size (IPA.vec_L proof))%N /\
    (IPARead.replay hash_nz
       (Transcript.append_field_element (Transcript.new "RingSignature") "IPAsize" 2%:R)
       (IPA.vec_L proof) (IPA.vec_R proof)).2 = IPA.challenges proof.
Proof.
have Hok : (if IPA.prove hash_nz ipa_params2 [:: 1; 2%:R] [:: 3%:R; 4%:R] is Ok _ then true else false)
  = true by vm_compute.
case E: (IPA.prove _ _ _ _) Hok => [pf|e|m] // _.
exists pf; split; first reflexivity.
case: (@IPAExtra.prove_challenges_replay Fq Vq hash_nz hash_nz_nonzero _ _ _ _ E) => H1 _ _ H4.
by split.
Defined.

Lemma ipa_verify_never_panics_witness :
  outcome okT
    (fun e => List.In e [:: SigmaErrors.InvalidParameters "vector size is too large";
                            SigmaErrors.InvalidProof "incorrect proof length";
                            SigmaErrors.InvalidProof "invalid challenge value";
                            SigmaErrors.InvalidProof "invalid IPA proof"])
    (fun _ => False) (IPA.verify hash_nz 2 0 ipa_params2 ipa_bad_challenge).
Proof.
exact: (@IPAExtra.verify_never_panics Fq Vq hash_nz hash_nz_nonzero 2 0 ipa_params2 ipa_bad_challenge
          erefl erefl erefl erefl erefl erefl).
Defined.

Lemma ipa_verify_unique_target_witness :
  exists proof, IPA.prove hash_nz ipa_params2 [:: 1; 2%:R] [:: 3%:R; 4%:R] = Ok proof /\
    IPA.verify hash_nz 2 P2 ipa_params2 proof = Ok tt /\
    IPA.verify hash_nz 2 (P2 + 1) ipa_params2 proof = Err (SigmaErrors.InvalidProof "invalid IPA proof").
Proof.
have Hok : (if IPA.prove hash_nz ipa_params2 [:: 1; 2%:R] [:: 3%:R; 4%:R] is Ok pf then
              (if IPA.verify hash_nz 2 P2 ipa_params2 pf is Ok _ then true else false) else false)
  = true by vm_compute.
case E: (IPA.prove _ _ _ _) Hok => [pf|e|m] //.
case Ev: (IPA.verify _ _ _ _ _) => [[]|e|m] // _.
have Hne : P2 + 1 != P2 by vm_compute.
exists pf; split; first reflexivity; split; first exact Ev.
exact: (IPAExtra.verify_unique_target Ev Hne).
Defined.

Lemma linear_completeness_witness :
  exists proof, Linear.prove rng_scalar hash_nz sha 0 paramsX [:: 5%:R; 0; 1] = Ok proof /\
    Linear.verify hash_nz sha paramsX proof = Ok true.
Proof.
have Hb : forall i, (i < 2)%N -> [:: (0 : Fq); 1]`_i = (i == 1)%N%:R.
  by case=> [|[|i]] //= _; rewrite ?mulr0n ?mulr1n.
exact: (@LinearExtra.linear_completeness Fq Vq nat rng_scalar hash_nz sha hash_nz_nonzero 0 paramsX
          5%:R 1 1 4%:R 7%:R 8%:R [:: 2%:R; 3%:R] [:: 5%:R; 6%:R] [:: 0; 1]
          erefl erefl erefl erefl erefl erefl Hb erefl).
Defined.

Lemma linear_setup_completeness_witness :
  exists params wit' rng', setupL = Ok (params, wit', rng') /\
    exists proof, Linear.prove rng_scalar hash_nz sha 0 params wit' = Ok proof /\
      Linear.verify hash_nz sha params proof = Ok true.
Proof.
have Hok : (if setupL is Ok (p, _, _) then
              count_mem ((5%:R : Fq) *: (Pedersen.vec_g (nth Linear.no_params (Linear.com_parameters p) 2))`_0)
                (Linear.vec_pk p) == 1%N
            else false) = true by vm_compute.
case E: setupL Hok => [[[p w] r]|e|m] // /eqP Hc.
exists p, w, r; split; first reflexivity.
exact: (@LinearExtra.linear_setup_completeness Fq Vq nat rng_scalar hash_nz sha hash_nz_nonzero
          rng_point 1 id 0 r 5%:R "msg" 2 p w (fun l => erefl) E Hc).
Defined.

Lemma linear_prove_rejects_bad_witness_witness :
  (2 < size (Linear.com_parameters paramsX))%N /\
  Linear.prove rng_scalar hash_nz sha 0 paramsX [:: 5%:R; 2%:R; 1] =
    Panic "assertion failed: constraint_1 && constraint_2".
Proof.
have H : (2 < size (Linear.com_parameters paramsX))%N by vm_compute.
split; first exact H.
have Hb : ~~ all (fun x => (x == 0) || (x == 1)) (drop (3 - 2) [:: (5%:R : Fq); 2%:R; 1]) by vm_compute.
exact: ((@LinearExtra.linear_prove_rejects_bad_witness Fq Vq nat rng_scalar hash_nz sha 0 paramsX
          [:: 5%:R; 2%:R; 1] H).2 erefl Hb).
Defined.

Lemma compressed_setup_commitments_witness :
  exists params wit' rng',
    Compressed.setup rng_scalar rng_point (1 : Vq) id 0 [:: 5%:R] "msg" 1 = Ok (params, wit', rng') /\
    Linear.num_pub_inputs params = 1%N /\ size (Linear.vec_pk params) = (2 * 1)%N /\
    size wit' = (2 * 1).+1 /\
    exists c, Compressed.prove_commitments rng_scalar 0 params wit' = Ok c /\
      head 0 (Compressed.c_points c) =
        (Compressed.c_alpha c)`_0 *: Pedersen.h (nth Linear.no_params (Linear.com_parameters params) 0)
        + IPARead.msum (Pedersen.vec_g (nth Linear.no_params (Linear.com_parameters params) 0))
            (drop 2 wit')
        + IPARead.msum (Pedersen.vec_g (nth Linear.no_params (Linear.com_parameters params) 1))
            [seq 1 - x | x <- drop 2 wit'].
Proof.
exact: (@CompressedExtra.compressed_setup_commitments Fq Vq nat rng_scalar rng_point 1 id 0 0 5%:R
          "msg" 1 (fun l => erefl) erefl).
Defined.

End ExtraWitnesses.
